(** * TrainCompany-tools: route and track reconstruction

    A shallow embedding of

      - [normalize_name] and the waypoint and trace loops of
        [BrouterImporterNew.import_data]   (importers/brouter_new.py),
      - [approximate_distance_to_line] (importers/brouter_new.py), over
        binary64 numbers,
      - [invalid_track], [track_from_path] and [convert_waypoints_to_route]
        (importers/db_trassenfinder.py),

    followed by the properties of these functions.

    Conventions.  A Python [str] is the list of its Unicode code points.
    Exceptions are values of [exn] carried by [result].  Calls to [logging]
    write to a log nobody reads back: they change neither control flow nor
    results and are left out.  Numbers that the program only adds and
    compares (kilometre positions, distances) are rationals. *)

From Stdlib Require Import List Bool Arith ZArith NArith QArith Qabs Lia String Ascii.
From Stdlib Require Import DecimalString Sorted Lqa.
From Stdlib Require Floats.
Import ListNotations.

Set Implicit Arguments.

(* ================================================================== *)
(** * Part I: the embedding                                            *)
(* ================================================================== *)

(** ** Python values shared by the modules *)

Module Py.

(** A [str] is a sequence of code points. *)
Definition str := list N.

(** The [str] of an ASCII literal. *)
Definition lit (s : string) : str :=
  List.map N_of_ascii (list_ascii_of_string s).

Fixpoint str_eqb (a b : str) : bool :=
  match a, b with
  | [], [] => true
  | x :: a', y :: b' => N.eqb x y && str_eqb a' b'
  | _, _ => false
  end.

(** The exceptions the embedded functions can raise. *)
Inductive exn : Type :=
| KeyError
| TypeError
| IndexError
| ValueError
| StatisticsError
| AssertionError.

Inductive result (A : Type) : Type :=
| Ok (a : A)
| Raise (e : exn).
Arguments Ok {A} a.
Arguments Raise {A} e.

Definition bind {A B} (m : result A) (k : A -> result B) : result B :=
  match m with
  | Ok a => k a
  | Raise e => Raise e
  end.

(** A [dict]: keys in insertion order, one entry per key.  Assigning to a
    key that is present replaces the value in place. *)
Section Dict.
Variables (K V : Type) (eqb : K -> K -> bool).

Definition dict := list (K * V).

Fixpoint get (d : dict) (k : K) : option V :=
  match d with
  | [] => None
  | (k', v) :: d' => if eqb k' k then Some v else get d' k
  end.

Fixpoint set (d : dict) (k : K) (v : V) : dict :=
  match d with
  | [] => [(k, v)]
  | (k', v') :: d' =>
      if eqb k' k then (k', v) :: d' else (k', v') :: set d' k v
  end.

Fixpoint pop (d : dict) (k : K) : dict :=
  match d with
  | [] => []
  | (k', v') :: d' => if eqb k' k then d' else (k', v') :: pop d' k
  end.

(** [{key: value for ...}] over a sequence of pairs. *)
Definition of_items (l : list (K * V)) : dict :=
  fold_left (fun d kv => set d (fst kv) (snd kv)) l [].
End Dict.

(** [d[k]] *)
Definition getitem {K V} (eqb : K -> K -> bool) (d : dict K V) (k : K)
  : result V :=
  match get eqb d k with
  | Some v => Ok v
  | None => Raise KeyError
  end.

(** [a < b] on numbers. *)
Definition Qlt_bool (a b : Q) : bool := negb (Qle_bool b a).

(** [[f(x) for x in l]]: the items are evaluated in order, and the first
    exception ends the comprehension. *)
Fixpoint comprehension {A B} (f : A -> result B) (l : list A)
  : result (list B) :=
  match l with
  | [] => Ok []
  | x :: rest =>
      match f x with
      | Ok y =>
          match comprehension f rest with
          | Ok ys => Ok (y :: ys)
          | Raise e => Raise e
          end
      | Raise e => Raise e
      end
  end.

End Py.

Notation "x <- m ;; k" := (Py.bind m (fun x => k))
  (at level 61, m at next level, right associativity).

(** ** NameNormalizer: [normalize_name] (brouter_new.py, lines 226-239) *)

Module NameNormalizer.
Import Py.

Section Unicode.
(** [str.lower] on a string with a character outside ASCII, and the
    transliteration table of the [unidecode] package: both belong to
    libraries, not to the repository. *)
Variable unicode_lower : str -> str.
Variable unidecode_table : N -> str.

Definition is_ascii (c : N) : bool := (c <? 128)%N.
Definition is_upper (c : N) : bool := ((65 <=? c) && (c <=? 90))%N.
Definition ascii_lower (c : N) : N := if is_upper c then (c + 32)%N else c.

(** [name.lower()] *)
Definition lower (s : str) : str :=
  if forallb is_ascii s then List.map ascii_lower s else unicode_lower s.

(** [unidecode.unidecode(name)]: ASCII is kept, every other character
    is replaced by its table entry. *)
Definition unidecode (s : str) : str :=
  flat_map (fun c => if is_ascii c then [c] else unidecode_table c) s.

(** [delimiters = re.compile(r"[- _]")], [delimiters.sub(" ", name)] *)
Definition is_delimiter (c : N) : bool :=
  ((c =? 45) || (c =? 32) || (c =? 95))%N.
Definition sub_delimiters (s : str) : str :=
  List.map (fun c => if is_delimiter c then 32%N else c) s.

(** [omitted_tokens = re.compile(r"[.']")], [omitted_tokens.sub("", name)] *)
Definition is_omitted (c : N) : bool := ((c =? 46) || (c =? 39))%N.
Definition sub_omitted_tokens (s : str) : str :=
  filter (fun c => negb (is_omitted c)) s.

(** [\s] of a [str] pattern: the characters with [str.isspace()]. *)
Definition is_space (c : N) : bool :=
  (((9 <=? c) && (c <=? 13)) || ((28 <=? c) && (c <=? 32))
   || (c =? 133) || (c =? 160) || (c =? 5760)
   || ((8192 <=? c) && (c <=? 8202))
   || (c =? 8232) || (c =? 8233) || (c =? 8239) || (c =? 8287)
   || (c =? 12288))%N.

Definition starts_space (s : str) : bool :=
  match s with
  | c :: _ => is_space c
  | [] => false
  end.

(** [more_than_one_space = re.compile(r"\s\s+")],
    [more_than_one_space.sub(" ", name)]: every maximal run of two or
    more white-space characters becomes one space; a run of one is
    kept as it is.  [skipping] holds inside a run already replaced. *)
Fixpoint sub_spaces_from (skipping : bool) (s : str) : str :=
  match s with
  | [] => []
  | c :: r =>
      if is_space c then
        if skipping then sub_spaces_from true r
        else if starts_space r then 32%N :: sub_spaces_from true r
             else c :: sub_spaces_from false r
      else c :: sub_spaces_from false r
  end.
Definition sub_more_than_one_space (s : str) : str :=
  sub_spaces_from false s.

(** [name.replace("saint", "st")]: occurrences from left to right,
    not overlapping. *)
Definition is_saint (a b c d e : N) : bool :=
  ((a =? 115) && (b =? 97) && (c =? 105) && (d =? 110) && (e =? 116))%N.
Fixpoint replace_saint_st (s : str) : str :=
  match s with
  | [] => []
  | a :: r1 =>
      match r1 with
      | b :: c :: d :: e :: r5 =>
          if is_saint a b c d e
          then 115%N :: 116%N :: replace_saint_st r5
          else a :: replace_saint_st r1
      | _ => a :: replace_saint_st r1
      end
  end.

(** The function is memoized with [lru_cache]; being pure, the cache
    does not show in its results. *)
Definition normalize_name (name : str) : str :=
  let name := lower name in
  let name := unidecode name in
  let name := sub_delimiters name in
  let name := sub_omitted_tokens name in
  let name := sub_more_than_one_space name in
  let name := replace_saint_st name in
  name.

(** Characters that [lower] and [unidecode] leave alone. *)
Definition plain (c : N) : bool := is_ascii c && negb (is_upper c).

Fixpoint no_space_run (s : str) : bool :=
  match s with
  | [] => true
  | c :: r => negb (is_space c && starts_space r) && no_space_run r
  end.
End Unicode.

(** Predicates used to state what a normalized name looks like. *)
Definition saint_prefix (s : str) : Prop :=
  exists r, s = 115%N :: 97%N :: 105%N :: 110%N :: 116%N :: r.

Definition no_delimiter (c : N) : Prop := is_delimiter c = true -> c = 32%N.
Definition not_omitted (c : N) : Prop := is_omitted c = false.
Definition is_plain (c : N) : Prop := plain c = true.

(** A name that passes every stage unchanged. *)
Record normal (t : str) : Prop := {
  normal_plain : Forall is_plain t;
  normal_delimiters : Forall no_delimiter t;
  normal_omitted : Forall not_omitted t;
  normal_spaces : no_space_run t = true;
  normal_saint : replace_saint_st t = t
}.

(** Entries of the [unidecode] tables used below: U+5317 and U+4EAC (the
    two characters of the package's own example, which it renders as
    "Bei Jing "), U+00E9 and U+00FC. *)
Definition unidecode_excerpt (c : N) : str :=
  if (c =? 21271)%N then lit "Bei "
  else if (c =? 20140)%N then lit "Jing "
  else if (c =? 233)%N then lit "e"
  else if (c =? 252)%N then lit "u"
  else [].

(** [str.lower] on the strings used below, none of which has a cased
    character outside ASCII. *)
Definition lower_caseless (s : str) : str := List.map ascii_lower s.

End NameNormalizer.

(** ** The records of structures/station.py and structures/route.py

    Neither file is among the sources; the records are those the embedded
    functions construct and read, field by field. *)

Module Stations.
Import Py.

(** [geo.Location]: equality by value. *)
Record Location : Type := {
  latitude : Q;
  longitude : Q
}.

Definition Location_eqb (a b : Location) : bool :=
  Qeq_bool (latitude a) (latitude b) && Qeq_bool (longitude a) (longitude b).

(** An entry of [Station.locations_path]: a kilometre position on a route. *)
Record PathLocation : Type := {
  route_number : Z;
  lfd_km : Q
}.

Record Station : Type := {
  name : str;
  number : Z;
  codes : list str;
  location : option Location;
  kind : option str;
  _group : option Z;
  locations_path : option (list PathLocation)
}.

End Stations.

Module Routes.
Import Py.

Record CodeWaypoint : Type := {
  distance_from_start : Q;
  code : str;
  is_stop : bool;
  next_route_number : option Z
}.

(** [kind] holds a member of the enumeration [TrackKind], represented by
    its integer code and ordered as the integers are, or the integer that
    [track_from_path] stores when it has nothing to go by.
    [route_number] is what the caller passes, which may be [None]. *)
Record Track : Type := {
  route_number : option Z;
  electrified : bool;
  kind : Z;
  length : Q;
  from_km : option Q;
  to_km : option Q
}.

(** The attribute is spelled [route_numer] in the source. *)
Record Path : Type := {
  route_numer : Z;
  tracks : list Track
}.

(** [Route(waypoints, tracks_used)] *)
Record Route : Type := {
  waypoints : list CodeWaypoint;
  tracks_used : list (list Track)
}.

End Routes.

(** ** [statistics.median_high] *)

Module Statistics.
Import Py.

Section Sorted.
Variable A : Type.
Variable leb : A -> A -> bool.

Fixpoint insert (x : A) (l : list A) : list A :=
  match l with
  | [] => [x]
  | y :: l' => if leb x y then x :: l else y :: insert x l'
  end.

(** [sorted(data)] *)
Definition sorted (data : list A) : list A := fold_right insert [] data.

(** [median_high(data)]: the item at index [n // 2] of the sorted data;
    [StatisticsError] when there is none. *)
Definition median_high (data : list A) : result A :=
  let data := sorted data in
  let n := List.length data in
  match data with
  | [] => Raise StatisticsError
  | x :: _ => Ok (nth (n / 2) data x)
  end.
End Sorted.

End Statistics.

(** ** TrackSegmentResolver and RouteAssembler (db_trassenfinder.py) *)

Module Trassenfinder.
Import Py Stations Routes Statistics.

(** [min(a, b)] and [max(a, b)]: the first argument unless the second is
    strictly smaller, respectively larger. *)
Definition min (a b : Q) : Q := if Qlt_bool b a then b else a.
Definition max (a b : Q) : Q := if Qlt_bool a b then b else a.

(** Truth value of an optional list: [None] and [[]] are false. *)
Definition truthy {A} (l : option (list A)) : bool :=
  match l with
  | Some (_ :: _) => true
  | _ => false
  end.

Section Catalog.

(** [TrackKind.UNKNOWN], by its integer code. *)
Variable UNKNOWN : Z.

(** [structures.station.iter_stations_by_codes_reverse]: the pairs of a
    code and its station that the code-to-station mapping is built from. *)
Variable iter_stations_by_codes_reverse : list Station -> list (str * Station).

Definition invalid_track (route_number : option Z) : Track :=
  {| route_number := route_number;
     electrified := false;
     kind := UNKNOWN;
     length := 0;
     from_km := None;
     to_km := None |}.

Definition track_from_path (route_number : Z)
    (last_known_segment : option Track) (to_km : option Q)
    (path_data : dict Z Path) (code_start code_end : option str)
  : result Track :=
  last_known_segment <-
    match last_known_segment, get Z.eqb path_data route_number with
    | None, Some path =>
        e <- median_high implb (List.map electrified (tracks path)) ;;
        k <- median_high Z.leb (List.map kind (tracks path)) ;;
        Ok (Some {| route_number := Some route_number;
                    electrified := e;
                    length := 0;
                    kind := k;
                    from_km := None;
                    to_km := None |})
    | _, _ => Ok last_known_segment
    end ;;
  Ok {| route_number := Some route_number;
        electrified := match last_known_segment with
                       | Some s => electrified s
                       | None => false
                       end;
        length := 0;
        kind := match last_known_segment with
                | Some s => kind s
                | None => (-1)%Z
                end;
        from_km := match last_known_segment with
                   | Some s => Routes.to_km s
                   | None => None
                   end;
        to_km := to_km |}.

(** [km_start <= km <= km_end]; comparing a number with [None] raises. *)
Definition between (km_start km_end : Q) (km : option Q) : result bool :=
  match km with
  | None => Raise TypeError
  | Some km => Ok (Qle_bool km_start km && Qle_bool km km_end)
  end.

(** The test of line 99: the second comparison chain is evaluated only
    when the first one is false. *)
Definition track_in_range (km_start km_end : Q) (track : Track) : result bool :=
  b <- between km_start km_end (from_km track) ;;
  if b then Ok true else between km_start km_end (Routes.to_km track).

(** The loop of lines 98-100, appending to [tracks_between_waypoints]. *)
Fixpoint append_tracks_in_range (km_start km_end : Q) (tracks : list Track)
    (tracks_between_waypoints : list Track) : result (list Track) :=
  match tracks with
  | [] => Ok tracks_between_waypoints
  | track :: rest =>
      b <- track_in_range km_start km_end track ;;
      append_tracks_in_range km_start km_end rest
        (if b then tracks_between_waypoints ++ [track]
         else tracks_between_waypoints)
  end.

(** [[location.lfd_km for location in locations_path
      if location.route_number == route_number]] *)
Definition km_on_route (locations_path : option (list PathLocation))
    (route_number : Z) : list Q :=
  match locations_path with
  | Some l =>
      List.map lfd_km
        (filter (fun location => Z.eqb (Stations.route_number location) route_number) l)
  | None => []
  end.

(** [l[-1] if l else None] *)
Definition last_or_none {A} (l : list A) : option A :=
  match rev l with
  | x :: _ => Some x
  | [] => None
  end.

(** One pass through the body of the loop of lines 81-125: the tuple
    appended to [tracks_used] for the pair [(waypoint, next_waypoint)]. *)
Definition tracks_between (codes_to_station : dict str Station)
    (route_number_to_path : dict Z Path)
    (waypoint next_waypoint : CodeWaypoint) : result (list Track) :=
  let tracks_between_waypoints : list Track := [] in
  station <- getitem str_eqb codes_to_station (code waypoint) ;;
  next_station <- getitem str_eqb codes_to_station (code next_waypoint) ;;
  match next_route_number waypoint with
  | None => Ok (tracks_between_waypoints ++ [invalid_track None])
  | Some n =>
      match (if Z.eqb n 0 then None else get Z.eqb route_number_to_path n) with
      | None => Ok (tracks_between_waypoints ++ [invalid_track (Some n)])
      | Some path_used =>
          if truthy (locations_path station)
             && truthy (locations_path next_station)
          then
            let station_km := km_on_route (locations_path station) n in
            let next_station_km := km_on_route (locations_path next_station) n in
            match station_km, next_station_km with
            | station_km :: _, next_station_km :: _ =>
                let km_start := min station_km next_station_km in
                let km_end := max station_km next_station_km in
                append_tracks_in_range km_start km_end (tracks path_used)
                  tracks_between_waypoints
            | _, _ =>
                let next_station_km := hd_error next_station_km in
                let last_known_segment := last_or_none tracks_between_waypoints in
                track <- track_from_path n last_known_segment next_station_km
                           route_number_to_path
                           (Some (code waypoint)) (Some (code next_waypoint)) ;;
                Ok (tracks_between_waypoints ++ [track])
            end
          else
            let last_known_segment := last_or_none tracks_between_waypoints in
            track <- track_from_path n last_known_segment None
                       route_number_to_path
                       (Some (code waypoint)) (Some (code next_waypoint)) ;;
            Ok (tracks_between_waypoints ++ [track])
      end
  end.

(** The loop over [zip(waypoints, waypoints[1:])], appending to
    [tracks_used]. *)
Fixpoint for_each_pair (codes_to_station : dict str Station)
    (route_number_to_path : dict Z Path)
    (pairs : list (CodeWaypoint * CodeWaypoint))
    (tracks_used : list (list Track)) : result (list (list Track)) :=
  match pairs with
  | [] => Ok tracks_used
  | (waypoint, next_waypoint) :: rest =>
      tracks_between_waypoints <-
        tracks_between codes_to_station route_number_to_path
          waypoint next_waypoint ;;
      for_each_pair codes_to_station route_number_to_path rest
        (tracks_used ++ [tracks_between_waypoints])
  end.

Definition codes_to_station_of (station_data : list Station) : dict str Station :=
  of_items str_eqb (iter_stations_by_codes_reverse station_data).

Definition route_number_to_path_of (path_data : list Path) : dict Z Path :=
  of_items Z.eqb (List.map (fun path => (route_numer path, path)) path_data).

Definition convert_waypoints_to_route (waypoints : list CodeWaypoint)
    (station_data : list Station) (path_data : list Path) : result Route :=
  let codes_to_station := codes_to_station_of station_data in
  let route_number_to_path := route_number_to_path_of path_data in
  tracks_used <-
    for_each_pair codes_to_station route_number_to_path
      (combine waypoints (tl waypoints)) [] ;;
  Ok {| waypoints := waypoints; tracks_used := tracks_used |}.

End Catalog.

(** Predicates used to state the properties of the assembler. *)

(** The waypoint's code has an entry in the code-to-station mapping. *)
Definition resolves (codes_to_station : dict str Station) (w : CodeWaypoint)
  : Prop :=
  get str_eqb codes_to_station (code w) <> None.

Definition has_bounds (t : Track) : Prop :=
  from_km t <> None /\ Routes.to_km t <> None.


(** What line 99 tests on a Track with both bounds: one of the two bounds
    lies within [[km_start, km_end]]. *)
Definition bound_in_range (km_start km_end : Q) (t : Track) : bool :=
  match from_km t, Routes.to_km t with
  | Some a, Some b =>
      (Qle_bool km_start a && Qle_bool a km_end)
      || (Qle_bool km_start b && Qle_bool b km_end)
  | _, _ => false
  end.

(** The intervals [[from_km, to_km]] and [[km_start, km_end]] overlap. *)
Definition overlaps (km_start km_end : Q) (t : Track) : Prop :=
  exists a b, from_km t = Some a /\ Routes.to_km t = Some b /\
              a <= km_end /\ km_start <= b.

End Trassenfinder.

(** ** StationResolver and TraceSegmenter:
       [BrouterImporterNew.import_data] (brouter_new.py, lines 41-199) *)

Module Brouter.
Import Py Stations Routes.

(** [structures.country.Country], of which only the flag is read. *)
Record Country : Type := {
  flag : str
}.

(** A place returned by the geocoder: its coordinates and the entries of
    the dict [raw['properties']] that are read.  Each of the four keys may
    be missing from the dict, [None] here; ['osm_id'] holds an integer. *)
Record Place : Type := {
  place_latitude : Q;
  place_longitude : Q;
  place_name : option str;
  osm_value : option str;
  countrycode : option str;
  osm_id : option Z
}.

(** [properties[key]], where [value] is the entry of the key if any. *)
Definition property {A} (value : option A) : result A :=
  match value with
  | Some v => Ok v
  | None => Raise KeyError
  end.

(** The two values of [query_string_filter]. *)
Inductive query_string_filter : Type :=
| stop_station_halt
| city_town_village.

Definition group_from_photon_response (response : Place)
  : result (option Z) :=
  value <- property (osm_value response) ;;
  Ok (if str_eqb value (lit "station") then Some 2%Z
      else if str_eqb value (lit "stop") then Some 5%Z
      else if str_eqb value (lit "halt") then Some 5%Z
      else if str_eqb value (lit "junction") then Some 4%Z
      else None).

(** [g in groups] *)
Definition group_in (g : Z) (groups : list (option Z)) : bool :=
  existsb (fun x => match x with
                    | Some y => Z.eqb y g
                    | None => false
                    end) groups.

Definition largest_group (groups : list (option Z)) : option Z :=
  if group_in 0 groups then Some 0%Z
  else if group_in 1 groups then Some 1%Z
  else if group_in 2 groups then Some 2%Z
  else if group_in 5 groups then Some 5%Z
  else if group_in 3 groups then Some 3%Z
  else if group_in 6 groups then Some 6%Z
  else if group_in 4 groups then Some 4%Z
  else None.

(** [str(n)] of an integer: its decimal digits, after a minus sign when
    it is negative. *)
Definition decimal (n : Z) : string := NilZero.string_of_int (Z.to_int n).

(** [int(s)] of a string made of characters of [str(n)]: a string of
    digits is a number, one with a minus sign past its start is refused. *)
Definition int (s : string) : result Z :=
  match NilZero.uint_of_string s with
  | Some u => Ok (Z.of_N (N.of_uint u))
  | None => Raise ValueError
  end.

(** [len(bytes(s, "utf-8"))] *)
Definition utf8_length (s : str) : N :=
  fold_right
    (fun c n => ((if c <? 128 then 1 else if c <? 2048 then 2
                  else if c <? 65536 then 3 else 4) + n)%N)
    0%N s.

(** [points[start:stop]] *)
Definition slice {A} (points : list A) (start stop : nat) : list A :=
  firstn (stop - start) (skipn start points).

(** The object: [self.stations] and [self.name_to_station]. *)
Record Importer : Type := {
  stations : list Station;
  name_to_station : dict str Station
}.

(** The state of the second loop of [import_data]. *)
Record Walk : Type := {
  distance_total : Q;
  code_waypoints : list CodeWaypoint;
  track_paths : list (list Location * Station);
  last_location : option Location;
  last_stop_index : nat;
  waypoint_location_to_station_location : dict Location Station
}.

(** Lines 122-130: a [Station] built from the attributes of [station]
    other than ['location'], and the given location.  Popping the entry
    from [station.__dict__] leaves the old record reading the default of
    the field, [None], as it did before. *)
Definition with_location (station : Station) (location : Location) : Station :=
  {| name := name station;
     number := number station;
     codes := codes station;
     Stations.location := Some location;
     Stations.kind := Stations.kind station;
     _group := _group station;
     locations_path := locations_path station |}.

Section Importer.

(** Libraries and modules outside the sources: the two Unicode tables of
    [normalize_name], [structures.country.countries], the geocoder behind
    [RateLimiter(geolocator.reverse)] and [geo.Location.distance_float]. *)
Variable unicode_lower : str -> str.
Variable unidecode_table : N -> str.
Variable countries : dict str Country.
Variable reverse : Location -> query_string_filter -> option (list Place).
Variable distance_float : Location -> Location -> Q.

(** [self.fallback_town] *)
Variable fallback_town : bool.

Definition normalize_name : str -> str :=
  NameNormalizer.normalize_name unicode_lower unidecode_table.

(** [__init__] *)
Definition init (station_data : list Station) : Importer :=
  {| stations := station_data;
     name_to_station :=
       of_items str_eqb
         (List.map (fun station => (normalize_name (name station), station))
                   station_data) |}.

(** Lines 54-105: the places near the waypoint, [None] when the waypoint
    is to be ignored. *)
Definition possible_stations_of (waypoint : Location) : option (list Place) :=
  match reverse waypoint stop_station_halt with
  | Some possible_stations => Some possible_stations
  | None => if fallback_town then reverse waypoint city_town_village else None
  end.

(** Lines 111-112 *)
Definition possible_station_names (possible_stations : list Place) : list str :=
  flat_map (fun station => match place_name station with
                           | Some name => [normalize_name name]
                           | None => []
                           end) possible_stations.

(** The [for name in possible_station_names] of line 116: the first name
    that is in the lookup table, [None] when the loop ends without
    [break]. *)
Fixpoint first_name_in (names : list str) (table : dict str Station)
  : option (str * Station) :=
  match names with
  | [] => None
  | name :: rest =>
      match get str_eqb table name with
      | Some station => Some (name, station)
      | None => first_name_in rest table
      end
  end.

(** Lines 139-159: the new station made of the first place, in the order
    in which the entries of its properties are read. *)
Definition new_station_of (possible_stations : list Place)
    (possible_station_groups : list (option Z)) : result Station :=
  match possible_stations with
  | [] => Raise IndexError
  | new_station :: _ =>
      countrycode <- property (countrycode new_station) ;;
      country <- getitem str_eqb countries countrycode ;;
      osm_id <- property (osm_id new_station) ;;
      let code := (flag country ++ lit "O" ++ lit (decimal osm_id))%list in
      if (utf8_length code <=? 20)%N then
        name <- property (place_name new_station) ;;
        number <- int ("69" ++ decimal osm_id) ;;
        Ok {| name := name;
              codes := [code];
              number := number;
              Stations.location :=
                Some {| latitude := place_latitude new_station;
                        longitude := place_longitude new_station |};
              Stations.kind := None;
              _group := largest_group possible_station_groups;
              locations_path := None |}
      else Raise AssertionError
  end.

(** One pass through the body of the loop of lines 52-167.  The groups
    of all places are computed (lines 113-114) before any name is looked
    up; the names are a generator, read by the loop of line 116. *)
Definition resolve_waypoint (self : Importer)
    (waypoint_location_to_station_location : dict Location Station)
    (waypoint : Location) : result (Importer * dict Location Station) :=
  match possible_stations_of waypoint with
  | None => Ok (self, waypoint_location_to_station_location)
  | Some possible_stations =>
      possible_station_groups <-
        comprehension group_from_photon_response possible_stations ;;
      match first_name_in (possible_station_names possible_stations)
                          (name_to_station self) with
      | Some (name, station) =>
          let table := pop str_eqb (name_to_station self) name in
          match location station with
          | None =>
              let station := with_location station waypoint in
              Ok ({| stations := stations self ++ [station];
                     name_to_station := table |},
                  set Location_eqb waypoint_location_to_station_location
                      waypoint station)
          | Some _ =>
              Ok ({| stations := stations self; name_to_station := table |},
                  set Location_eqb waypoint_location_to_station_location
                      waypoint station)
          end
      | None =>
          station <- new_station_of possible_stations possible_station_groups ;;
          Ok ({| stations := stations self ++ [station];
                 name_to_station := name_to_station self |},
              set Location_eqb waypoint_location_to_station_location
                  waypoint station)
      end
  end.

(** The loop of lines 52-167 over [gpx.waypoints]. *)
Fixpoint resolve_waypoints (self : Importer)
    (waypoint_location_to_station_location : dict Location Station)
    (waypoints : list Location) : result (Importer * dict Location Station) :=
  match waypoints with
  | [] => Ok (self, waypoint_location_to_station_location)
  | waypoint :: rest =>
      r <- resolve_waypoint self waypoint_location_to_station_location waypoint ;;
      resolve_waypoints (fst r) (snd r) rest
  end.

(** The [for waypoint_location, stop in ....items()] of line 184: the
    first entry within 0.08 of the location. *)
Fixpoint first_near (items : dict Location Station) (location : Location)
  : option (Location * Station) :=
  match items with
  | [] => None
  | (waypoint_location, stop) :: rest =>
      if Qlt_bool (distance_float waypoint_location location) (8 # 100)
      then Some (waypoint_location, stop)
      else first_near rest location
  end.

(** One pass through the body of the loop of lines 176-198. *)
Definition visit (points : list Location) (w : Walk) (index : nat)
    (trackpoint : Location) : result Walk :=
  let location := {| latitude := latitude trackpoint;
                     longitude := longitude trackpoint |} in
  let distance_total :=
    match last_location w with
    | Some last_location =>
        distance_total w + distance_float location last_location
    | None => distance_total w
    end in
  match first_near (waypoint_location_to_station_location w) location with
  | Some (waypoint_location, stop) =>
      match codes stop with
      | [] => Raise IndexError
      | code :: _ =>
          Ok {| distance_total := distance_total;
                code_waypoints :=
                  code_waypoints w ++
                  [{| code := code;
                      distance_from_start := distance_total;
                      is_stop := true;
                      next_route_number := Some 0%Z |}];
                track_paths :=
                  track_paths w ++ [(slice points (last_stop_index w) index, stop)];
                last_location := Some location;
                last_stop_index := index;
                waypoint_location_to_station_location :=
                  pop Location_eqb (waypoint_location_to_station_location w)
                      waypoint_location |}
      end
  | None =>
      Ok {| distance_total := distance_total;
            code_waypoints := code_waypoints w;
            track_paths := track_paths w;
            last_location := Some location;
            last_stop_index := last_stop_index w;
            waypoint_location_to_station_location :=
              waypoint_location_to_station_location w |}
  end.

(** The loop over [enumerate(points)], from [index] on. *)
Fixpoint walk_from (points : list Location) (index : nat)
    (rest : list Location) (w : Walk) : result Walk :=
  match rest with
  | [] => Ok w
  | trackpoint :: rest =>
      w <- visit points w index trackpoint ;;
      walk_from points (S index) rest w
  end.

(** Lines 169-198: the walk along the trace, with its final state. *)
Definition walk (hints : dict Location Station) (points : list Location)
  : result Walk :=
  walk_from points 0 points
    {| distance_total := 0;
       code_waypoints := [];
       track_paths := [];
       last_location := None;
       last_stop_index := 0;
       waypoint_location_to_station_location := hints |}.

(** [import_data]: [waypoints] are [gpx.waypoints], [points] are
    [gpx.tracks[0].segments[0].points].  Besides the list it returns, the
    result shows what the call leaves in the object. *)
Definition import_data (self : Importer) (waypoints points : list Location)
  : result (Importer * list CodeWaypoint) :=
  r <- resolve_waypoints self [] waypoints ;;
  w <- walk (snd r) points ;;
  Ok (fst r, code_waypoints w).

End Importer.

(** Invariants of the walk along the trace. *)

(** Every hinted station has a code, so that [stop.codes[0]] exists. *)
Definition hints_have_codes (hints : dict Location Station) : Prop :=
  Forall (fun kv => codes (snd kv) <> []) hints.

(** The recorded segments at [index], [n] hints having been given: one
    segment per emitted waypoint and per consumed hint; together the
    segments are the trace before the last stop. *)
Record segments_inv (n : nat) (points : list Location) (index : nat)
    (w : Walk) : Prop := {
  seg_count : List.length (track_paths w) = List.length (code_waypoints w);
  seg_hints :
    (List.length (track_paths w)
     + List.length (waypoint_location_to_station_location w) = n)%nat;
  seg_stop : (last_stop_index w <= index)%nat;
  seg_concat :
    List.concat (List.map fst (track_paths w)) = firstn (last_stop_index w) points;
  seg_codes : hints_have_codes (waypoint_location_to_station_location w)
}.

(** A hint is near a point of the trace: its location is within 0.08 of
    the point. *)
Definition near (distance_float : Location -> Location -> Q)
    (hints : dict Location Station) (trackpoint : Location) : bool :=
  existsb (fun hint => Qlt_bool (distance_float (fst hint) trackpoint) (8 # 100))
          hints.

(** Where segment [k] starts, [cuts] being the indices at which the
    segments end: at the start of the trace, or where the segment before
    it ends. *)
Definition cut_before (cuts : list nat) (k : nat) : nat :=
  match k with
  | O => O
  | S k' => nth k' cuts O
  end.

(** The recorded segments at [index] against the matches: [cuts] are the
    indices of the points that matched a hint so far. *)
Record matches_inv (distance_float : Location -> Location -> Q)
    (hints : dict Location Station) (points : list Location) (index : nat)
    (cuts : list nat) (w : Walk) : Prop := {
  cut_count : List.length cuts = List.length (track_paths w);
  cut_sorted : StronglySorted lt cuts;
  cut_bound : Forall (fun i => (i < index)%nat) cuts;
  cut_last : last_stop_index w = last cuts O;
  cut_hints : incl (waypoint_location_to_station_location w) hints;
  cut_none : cuts = [] -> waypoint_location_to_station_location w = hints;
  cut_match :
    forall k i, nth_error cuts k = Some i ->
      exists trackpoint location station,
        nth_error points i = Some trackpoint /\
        In (location, station) hints /\
        Qlt_bool (distance_float location trackpoint) (8 # 100) = true /\
        nth_error (track_paths w) k
        = Some (slice points (cut_before cuts k) i, station);
  cut_first :
    forall j trackpoint, nth_error points j = Some trackpoint ->
      (j < hd index cuts)%nat -> near distance_float hints trackpoint = false;
  cut_others :
    forall j trackpoint, nth_error points j = Some trackpoint ->
      (j < index)%nat -> ~ In j cuts ->
      near distance_float (waypoint_location_to_station_location w) trackpoint
      = false
}.

(** The emitted distances: in order, and none beyond the running total. *)
Record distance_inv (w : Walk) : Prop := {
  dist_sorted :
    StronglySorted Qle (List.map distance_from_start (code_waypoints w));
  dist_bound :
    Forall (fun d => d <= distance_total w)
           (List.map distance_from_start (code_waypoints w));
  dist_codes : hints_have_codes (waypoint_location_to_station_location w)
}.

(** The stations of the lookup table and of the hints are stations of
    the list. *)
Definition within_catalog (self : Importer) (hints : dict Location Station)
  : Prop :=
  (forall name station, In (name, station) (name_to_station self) ->
                        In station (stations self)) /\
  (forall location station, In (location, station) hints ->
                            In station (stations self)).

(** The place has an ['osm_value'], and it is [value]. *)
Definition has_osm_value (value : string) (p : Place) : bool :=
  match osm_value p with
  | Some v => str_eqb v (lit value)
  | None => false
  end.

End Brouter.

(** ** Catalogs and waypoint lists used in the examples *)

Module Scenario.
Import Py Stations Routes.

(** Modelled from the spec: [iter_stations_by_codes_reverse] of
    structures/station.py, which is not among the sources.  The spec has the
    assembler work on a "mapping code -> Station"; after the function's name
    the pairs are produced for the last code position first, so that in the
    mapping built from them a station's earlier code wins.  Every station
    below has a single code that no other station has. *)
Definition iter_stations_by_codes_reverse (stations : list Station)
  : list (str * Station) :=
  let max_codes := list_max (List.map (fun s => List.length (codes s)) stations) in
  flat_map
    (fun index =>
       flat_map (fun s => match nth_error (codes s) index with
                          | Some c => [(c, s)]
                          | None => []
                          end) stations)
    (rev (seq 0 max_codes)).

(** Modelled from the spec: [TrackKind.UNKNOWN] of structures/route.py,
    which is not among the sources; the spec names "an UNKNOWN kind" and
    no code for it.  The examples take -1, the integer [track_from_path]
    stores when it has no kind to go by. *)
Definition UNKNOWN : Z := (-1)%Z.

Definition convert_waypoints_to_route :=
  Trassenfinder.convert_waypoints_to_route UNKNOWN iter_stations_by_codes_reverse.

(** A station with one code and, when [km] is given, a position on
    route 100; without it the station is located on route 200 only. *)
Definition station_at (code : string) (km : option Q) : Station :=
  {| name := lit code;
     number := 0;
     codes := [lit code];
     location := None;
     Stations.kind := None;
     _group := None;
     locations_path :=
       Some [match km with
             | Some km => {| Stations.route_number := 100; lfd_km := km |}
             | None => {| Stations.route_number := 200; lfd_km := 3 |}
             end] |}.

Definition waypoint_on (route : option Z) (code : string) : CodeWaypoint :=
  {| distance_from_start := 0;
     code := lit code;
     is_stop := true;
     next_route_number := route |}.

(** Route 100: the Tracks [0-6), [6-10), [10-15) of the spec's scenario;
    the first is electrified. *)
Definition track_100 (electrified : bool) (kind : Z) (from_km to_km : Q) : Track :=
  {| Routes.route_number := Some 100%Z;
     electrified := electrified;
     kind := kind;
     length := to_km - from_km;
     from_km := Some from_km;
     to_km := Some to_km |}.

(** A waypoint whose next hop is on route 100. *)
Definition on_100 : string -> CodeWaypoint := waypoint_on (Some 100%Z).

Definition track_0_6 : Track := track_100 true 0 0 6.
Definition track_6_10 : Track := track_100 false 1 6 10.
Definition track_10_15 : Track := track_100 false 1 10 15.

Definition path_100 : Path :=
  {| route_numer := 100; tracks := [track_0_6; track_6_10; track_10_15] |}.

Definition station_data : list Station :=
  [ station_at "KM0" (Some 0); station_at "KM1" (Some 1);
    station_at "KM4" (Some 4); station_at "KM5" (Some 5);
    station_at "KM7" (Some 7); station_at "KM9" (Some 9);
    station_at "KM12" (Some 12); station_at "ELSEWHERE" None ].

(** *** Waypoints, places and traces for the importer *)

(** Modelled from the spec: [countries] of structures/country.py, which is
    not among the sources; "the country is resolved from the candidate's
    country code" and gives the flag that starts the code.  The examples
    need the entry of Germany, whose flag is the pair of regional
    indicators U+1F1E9 U+1F1EA. *)
Definition countries : dict str Brouter.Country :=
  [(lit "DE", {| Brouter.flag := [127465%N; 127466%N] |})].

(** A distance for the examples: the sum of the differences of the two
    coordinates. *)
Definition flat_distance (a b : Location) : Q :=
  Qabs (latitude a - latitude b) + Qabs (longitude a - longitude b).

Definition at_ (latitude longitude : Q) : Location :=
  {| latitude := latitude; longitude := longitude |}.

(** A railway station of the geocoder, in Germany. *)
Definition place (name : string) (osm_id : Z) (latitude longitude : Q)
  : Brouter.Place :=
  {| Brouter.place_latitude := latitude;
     Brouter.place_longitude := longitude;
     Brouter.place_name := Some (lit name);
     Brouter.osm_value := Some (lit "station");
     Brouter.countrycode := Some (lit "DE");
     Brouter.osm_id := Some osm_id |}.

(** A geocoder that knows one station, "Neustadt", and returns it for
    every point. *)
Definition reverse_neustadt (point : Location) (f : Brouter.query_string_filter)
  : option (list Brouter.Place) :=
  match f with
  | Brouter.stop_station_halt => Some [place "Neustadt" 42 50 8]
  | Brouter.city_town_village => None
  end.

(** A catalog station without a location. *)
Definition neustadt : Station :=
  {| name := lit "Neustadt";
     number := 8000001;
     codes := [lit "NEU"];
     location := None;
     Stations.kind := None;
     _group := Some 2%Z;
     locations_path := None |}.

(** The station made of the geocoder's place "Neustadt". *)
Definition neustadt_osm : Station :=
  {| name := lit "Neustadt";
     number := 6942;
     codes := [[127465; 127466; 79; 52; 50]%N];
     location := Some (at_ 50 8);
     Stations.kind := None;
     _group := Some 2%Z;
     locations_path := None |}.

Definition resolve_waypoints :=
  Brouter.resolve_waypoints NameNormalizer.lower_caseless
    NameNormalizer.unidecode_excerpt countries reverse_neustadt false.

Definition init :=
  Brouter.init NameNormalizer.lower_caseless NameNormalizer.unidecode_excerpt.

Definition walk := Brouter.walk flat_distance.

(** A station with a code, to hint at. *)
Definition stop (code : string) : Station :=
  {| name := lit code;
     number := 0;
     codes := [lit code];
     location := None;
     Stations.kind := None;
     _group := None;
     locations_path := None |}.

End Scenario.

(** ** [DbTrassenfinderImporter.deserialize] (db_trassenfinder.py,
       lines 21-28) *)

Module TrassenfinderCsv.
Import Py Routes.

(** [s.replace(',', '.')] *)
Definition replace_comma (s : str) : str :=
  List.map (fun c => if (c =? 44)%N then 46%N else c) s.

(** [s.replace('  ', ' ')]: pairs of spaces from left to right, not
    overlapping. *)
Fixpoint replace_double_space (s : str) : str :=
  match s with
  | [] => []
  | a :: r1 =>
      match r1 with
      | b :: r2 =>
          if ((a =? 32) && (b =? 32))%N
          then 32%N :: replace_double_space r2
          else a :: replace_double_space r1
      | [] => [a]
      end
  end.

Fixpoint starts_with (prefix s : str) : bool :=
  match prefix, s with
  | [], _ => true
  | p :: prefix', c :: s' => (p =? c)%N && starts_with prefix' s'
  | _ :: _, [] => false
  end.

(** [needle in haystack] *)
Fixpoint contains (needle haystack : str) : bool :=
  starts_with needle haystack
  || match haystack with
     | [] => false
     | _ :: rest => contains needle rest
     end.

(** [entry[i]] *)
Definition item (entry : list str) (i : nat) : result str :=
  match nth_error entry i with
  | Some x => Ok x
  | None => Raise IndexError
  end.

Section Builtins.

(** The built-in [float] and [int] on a [str]; each returns a number or
    raises [ValueError]. *)
Variable float : str -> result Q.
Variable int : str -> result Z.

(** The arguments of [CodeWaypoint] are evaluated in the order they are
    written. *)
Definition deserialize (entry : list str) : result CodeWaypoint :=
  e0 <- item entry 0 ;;
  distance_from_start <- float (replace_comma e0) ;;
  e2 <- item entry 2 ;;
  let code := replace_double_space e2 in
  e17 <- item entry 17 ;;
  let is_stop := contains (lit "Kundenhalt") e17 in
  e3 <- item entry 3 ;;
  next_route_number <-
    match e3 with
    | [] => Ok None
    | _ :: _ => e3 <- item entry 3 ;; n <- int e3 ;; Ok (Some n)
    end ;;
  Ok {| distance_from_start := distance_from_start;
        code := code;
        is_stop := is_stop;
        next_route_number := next_route_number |}.

End Builtins.

(** Parsers for the examples, which read digits only: a string of digits
    is accepted, with one ['.'] for [float_digits]; anything else is
    refused. *)
Definition digit (c : N) : option Z :=
  if ((48 <=? c) && (c <=? 57))%N then Some (Z.of_N c - 48)%Z else None.

Fixpoint digits (acc : Z) (s : str) : option Z :=
  match s with
  | [] => Some acc
  | c :: rest =>
      match digit c with
      | Some d => digits (10 * acc + d) rest
      | None => None
      end
  end.

Definition int_digits (s : str) : result Z :=
  match s with
  | [] => Raise ValueError
  | _ => match digits 0 s with
         | Some n => Ok n
         | None => Raise ValueError
         end
  end.

Fixpoint split_point (s : str) : str * option str :=
  match s with
  | [] => ([], None)
  | c :: rest =>
      if (c =? 46)%N then ([], Some rest)
      else let (a, b) := split_point rest in (c :: a, b)
  end.

Definition float_digits (s : str) : result Q :=
  match split_point s with
  | (whole, None) => match int_digits whole with
                     | Ok n => Ok (inject_Z n)
                     | Raise e => Raise e
                     end
  | (whole, Some fraction) =>
      match int_digits whole, int_digits fraction with
      | Ok n, Ok f =>
          Ok (inject_Z n
              + inject_Z f / inject_Z (10 ^ Z.of_nat (List.length fraction)))
      | _, _ => Raise ValueError
      end
  end.

End TrassenfinderCsv.

(** ** PolylineSimplifier: [douglas_peucker] and [simplify_path_with_stops]
       (brouter_new.py, lines 202-215) *)

Module Simplifier.
Import Py Stations.

(** [itertools.compress(data, selectors)]: the items whose selector is
    true, up to the end of the shorter of the two. *)
Fixpoint compress {A} (data : list A) (selectors : list bool) : list A :=
  match data, selectors with
  | x :: data', b :: selectors' =>
      if b then x :: compress data' selectors' else compress data' selectors'
  | _, _ => []
  end.

Section Rdp.

(** [gpxpy.gpx.GPXTrackPoint], of which the two coordinates are read. *)
Variable GPXTrackPoint : Type.
Variable latitude longitude : GPXTrackPoint -> Q.

(** [rdp.rdp(points_array, dist=approximate_distance_to_line,
    epsilon=max_radius, return_mask=True)], of the [rdp] package: the mask
    of the rows to keep. *)
Variable rdp : list (Q * Q) -> Q -> result (list bool).

Definition douglas_peucker (points : list GPXTrackPoint) (max_radius : Q)
  : result (list GPXTrackPoint) :=
  let points_array :=
    List.map (fun point => (latitude point, longitude point)) points in
  selected_points <- rdp points_array max_radius ;;
  Ok (compress points selected_points).

(** The loop assigns to [path[index]]; the result is the list after the
    loop. *)
Fixpoint simplify_path_with_stops
    (path : list (list GPXTrackPoint * Station)) (max_radius : Q)
  : result (list (list GPXTrackPoint * Station)) :=
  match path with
  | [] => Ok []
  | (segment, station) :: rest =>
      simplified <- douglas_peucker segment max_radius ;;
      rest <- simplify_path_with_stops rest max_radius ;;
      Ok ((simplified, station) :: rest)
  end.

End Rdp.

(** [s] is [l] with some items left out. *)
Inductive subsequence {A : Type} : list A -> list A -> Prop :=
| subsequence_nil : subsequence [] []
| subsequence_keep x s l : subsequence s l -> subsequence (x :: s) (x :: l)
| subsequence_skip x s l : subsequence s l -> subsequence s (x :: l).

(** A mask for the examples: the first row and every row whose first
    coordinate is a whole number. *)
Definition mask_whole (points_array : list (Q * Q)) (max_radius : Q)
  : result (list bool) :=
  match points_array with
  | [] => Raise IndexError
  | _ :: rows =>
      Ok (true :: List.map (fun row => Z.eqb (Z.pos (Qden (Qred (fst row)))) 1) rows)
  end.

End Simplifier.

(** ** [approximate_distance_to_line] (brouter_new.py, lines 218-223)

    The function computes with binary64 numbers: Python's [float] and
    numpy's [float64], which are the kernel's primitive floats. *)

Module LineDistance.
Import Py Floats.
Local Open Scope float_scope.

(** A row of [points_array]: an [np.ndarray] of two numbers. *)
Definition ndarray : Type := (float * float)%type.

(** [a - b] on arrays: element by element. *)
Definition subtract (a b : ndarray) : ndarray :=
  (fst a - fst b, snd a - snd b).

(** [np.linalg.norm(x)] of a one-dimensional real array: the square root
    of the dot product of [x] with itself.  numpy is not among the
    sources; for an array of two numbers the dot product is the sum of
    the two squares. *)
Definition norm (x : ndarray) : float :=
  sqrt (fst x * fst x + snd x * snd x).

(** [a == b] holding for every element, as numbers compare: the two
    zeros are equal, and nan is not equal to itself. *)
Definition array_equal (a b : ndarray) : bool :=
  (fst a =? fst b) && (snd a =? snd b).

Section Libraries.

(** [geopy.distance.geodesic(start, end).km], which raises [ValueError]
    for a latitude outside [-90, 90], and [rdp.pldist]; neither library is
    among the sources. *)
Variable geodesic_km : ndarray -> ndarray -> result float.
Variable pldist : ndarray -> ndarray -> ndarray -> float.

(** The divisor is numpy's [float64], so that the quotient is numpy's: a
    division by zero gives an infinity or nan and a warning, not an
    exception. *)
Definition approximate_distance_to_line (point start end_ : ndarray)
  : result float :=
  km <- geodesic_km start end_ ;;
  let km_per_lon_lat := km / norm (subtract start end_) in
  let distance_lon_lat := pldist point start end_ in
  Ok (distance_lon_lat * km_per_lon_lat).

End Libraries.

(** The call returns a distance, and the distance is finite. *)
Definition returns_finite (r : result float) : Prop :=
  exists d, r = Ok d /\ is_finite d = true.

(** Classes of binary64 numbers, read on their specification. *)
Definition finite (x : spec_float) : bool :=
  match x with
  | S754_zero _ | S754_finite _ _ _ => true
  | S754_infinity _ | S754_nan => false
  end.

Definition zero_or_nan (x : spec_float) : bool :=
  match x with
  | S754_zero _ | S754_nan => true
  | S754_infinity _ | S754_finite _ _ _ => false
  end.

Definition positive_zero_or_nan (x : spec_float) : bool :=
  match x with
  | S754_zero false | S754_nan => true
  | _ => false
  end.

(** The libraries of the examples: a geodesic distance of 0 km between
    equal points and of 111 km between others, and a planar distance of 1
    to every line. *)
Definition geodesic_111 (start end_ : ndarray) : result float :=
  Ok (if array_equal start end_ then 0 else 111).
Definition pldist_1 (point start end_ : ndarray) : float := 1.

End LineDistance.

(** ** Measures of a trace and of a lookup table, used to state what the
       importer keeps *)

Module Measures.
Import Py Stations Routes.

Section Distance.
Variable distance_float : Location -> Location -> Q.

(** The trace walked so far: the last location and the sum of the
    distances between consecutive points, added up in the order of the
    trace. *)
Definition advance (state : option Location * Q) (trackpoint : Location)
  : option Location * Q :=
  let location := {| latitude := latitude trackpoint;
                     longitude := longitude trackpoint |} in
  (Some location,
   match fst state with
   | Some last => snd state + distance_float location last
   | None => snd state
   end).

Definition trace_length (points : list Location) : Q :=
  snd (fold_left advance points (None, 0)).
End Distance.

(** The index of the trace point at which the waypoint number [k]
    (counted from 0) was emitted, read off the recorded segments: the
    number of points in the segments up to that waypoint's. *)
Definition stop_index (track_paths : list (list Location * Station)) (k : nat)
  : nat :=
  List.length (List.concat (List.map fst (firstn (S k) track_paths))).

(** No key twice. *)
Definition keys_unique {K V} (d : dict K V) : Prop := NoDup (List.map fst d).

End Measures.

(* ================================================================== *)
(** * Part II: properties                                              *)
(* ================================================================== *)


(** ** Python values *)

Section DictProps.
Import Py.
Variables (K V : Type) (eqb : K -> K -> bool).




(** Popping a key removes entries and adds none. *)
Lemma pop_incl (d : dict K V) k : incl (pop eqb d k) d.
Proof.
  induction d as [|[k1 v1] d IH]; simpl; [apply incl_refl|].
  destruct (eqb k1 k).
  - apply incl_tl, incl_refl.
  - intros x [<- | H]; [now left | right; now apply IH].
Qed.
End DictProps.

Section ListProps.
Import Py.
Variables (K V A : Type) (eqb : K -> K -> bool).
Hypothesis eqb_refl : forall k, eqb k k = true.

Lemma get_set_same (d : dict K V) k v : get eqb (set eqb d k v) k = Some v.
Proof.
  induction d as [|[k1 v1] d IH]; simpl.
  - now rewrite eqb_refl.
  - destruct (eqb k1 k) eqn:E; simpl; rewrite E; [reflexivity | exact IH].
Qed.

(** Popping a key that is present removes one entry. *)
Lemma pop_length (d : dict K V) k v :
  In (k, v) d -> S (List.length (pop eqb d k)) = List.length d.
Proof.
  induction d as [|[k1 v1] d IH]; simpl; [contradiction|].
  intros [H | H].
  - injection H as -> ->. now rewrite eqb_refl.
  - destruct (eqb k1 k); [reflexivity|]. simpl. now rewrite IH.
Qed.

Lemma pop_Forall (P : K * V -> Prop) (d : dict K V) k :
  Forall P d -> Forall P (pop eqb d k).
Proof.
  induction 1 as [|[k1 v1] d H1 Hd IH]; simpl; [constructor|].
  destruct (eqb k1 k); [exact Hd | now constructor].
Qed.

Lemma firstn_slice (l : list A) start stop :
  (start <= stop)%nat ->
  firstn start l ++ Brouter.slice l start stop = firstn stop l.
Proof.
  unfold Brouter.slice. revert l stop.
  induction start as [|a IH]; intros l stop H; simpl.
  - now rewrite Nat.sub_0_r.
  - destruct stop as [|b]; [lia|].
    destruct l as [|x l]; simpl.
    + now rewrite firstn_nil.
    + f_equal. apply IH. lia.
Qed.

Lemma StronglySorted_snoc (R : A -> A -> Prop) l y :
  StronglySorted R l -> Forall (fun x => R x y) l ->
  StronglySorted R (l ++ [y]).
Proof.
  induction 1 as [|x l Hs IH Hx]; intros Hy; simpl.
  - repeat constructor.
  - inversion Hy as [|? ? Hxy Hly]; subst.
    constructor; [now apply IH|].
    apply Forall_app. split; [assumption | now constructor].
Qed.
End ListProps.

(** ** NameNormalizer *)

Section NameNormalizerProps.
Import Py NameNormalizer.

Variable unicode_lower : str -> str.
Variable unidecode_table : N -> str.

Local Abbreviation lower := (lower unicode_lower).
Local Abbreviation unidecode := (unidecode unidecode_table).
Local Abbreviation normalize_name :=
  (normalize_name unicode_lower unidecode_table).

(** *** What each stage does to the set of characters *)

Section Chars.
Variable P : N -> Prop.

Lemma sub_delimiters_chars s :
  P 32%N -> Forall P s -> Forall P (sub_delimiters s).
Proof.
  intros Hsp H. induction H as [|c r Hc _ IH]; simpl; constructor; auto.
  destruct (is_delimiter c); assumption.
Qed.

Lemma sub_omitted_tokens_chars s :
  Forall P s -> Forall P (sub_omitted_tokens s).
Proof.
  intros H. induction H as [|c r Hc _ IH]; simpl; [constructor|].
  destruct (is_omitted c); simpl; auto.
Qed.

Lemma sub_spaces_from_chars b s :
  P 32%N -> Forall P s -> Forall P (sub_spaces_from b s).
Proof.
  intros Hsp H. revert b.
  induction H as [|c r Hc _ IH]; intros b; simpl; [constructor|].
  destruct (is_space c); [destruct b; [|destruct (starts_space r)]|];
    auto.
Qed.

Lemma replace_saint_st_chars s :
  P 115%N -> P 116%N -> Forall P s -> Forall P (replace_saint_st s).
Proof.
  intros Hs Ht.
  assert (G : forall n s, (List.length s <= n)%nat -> Forall P s ->
                          Forall P (replace_saint_st s)).
  { clear s. induction n as [|n IH]; intros s Hlen H.
    - destruct s; [constructor | simpl in Hlen; lia].
    - destruct s as [|a r1]; [constructor|].
      assert (Hr1 : Forall P (replace_saint_st r1)).
      { apply IH; [simpl in Hlen; lia | inversion H; assumption]. }
      inversion H as [|? ? Ha Hr]; subst.
      destruct r1 as [|b [|c [|d [|e r5]]]];
        try (constructor; assumption).
      cbn [replace_saint_st]. fold (replace_saint_st (b :: c :: d :: e :: r5)).
      destruct (is_saint a b c d e).
      + constructor; [assumption|]. constructor; [assumption|].
        apply IH; [simpl in Hlen |- *; lia|].
        repeat match goal with
               | X : Forall P (_ :: _) |- _ => inversion X; clear X; subst
               end.
        assumption.
      + constructor; assumption. }
  intros H. apply (G (List.length s) s); auto.
Qed.
End Chars.

(** *** Collapsing white space *)

Lemma sub_spaces_from_head b s :
  b = true \/ starts_space s = false ->
  starts_space (sub_spaces_from b s) = false.
Proof.
  revert b. induction s as [|c r IH]; intros b Hb; [reflexivity|].
  simpl. destruct (is_space c) eqn:Ec.
  - destruct Hb as [-> | Hb]; [apply IH; now left|].
    simpl in Hb. congruence.
  - simpl. exact Ec.
Qed.

Lemma sub_spaces_from_no_run b s :
  no_space_run (sub_spaces_from b s) = true.
Proof.
  revert b. induction s as [|c r IH]; intros b; [reflexivity|].
  simpl. destruct (is_space c) eqn:Ec.
  - destruct b; [apply IH|].
    destruct (starts_space r) eqn:Er; cbn [no_space_run].
    + rewrite sub_spaces_from_head by now left.
      rewrite andb_false_r. apply IH.
    + rewrite sub_spaces_from_head by now right.
      rewrite andb_false_r. apply IH.
  - cbn [no_space_run]. rewrite Ec. apply IH.
Qed.

Lemma sub_spaces_from_fixed s :
  no_space_run s = true -> sub_spaces_from false s = s.
Proof.
  induction s as [|c r IH]; [reflexivity|]. simpl.
  intros H. apply andb_true_iff in H. destruct H as [H1 H2].
  destruct (is_space c); simpl in H1.
  - apply negb_true_iff in H1. rewrite H1. now rewrite IH.
  - now rewrite IH.
Qed.

(** *** Replacing "saint" *)

Lemma is_saint_true a b c d e :
  is_saint a b c d e = true <->
  (a = 115 /\ b = 97 /\ c = 105 /\ d = 110 /\ e = 116)%N.
Proof.
  unfold is_saint. rewrite !andb_true_iff, !N.eqb_eq. tauto.
Qed.

Lemma replace_saint_st_hit r :
  replace_saint_st (115 :: 97 :: 105 :: 110 :: 116 :: r)%N =
  (115 :: 116 :: replace_saint_st r)%N.
Proof. reflexivity. Qed.

Lemma replace_saint_st_miss a r :
  ~ saint_prefix (a :: r) ->
  replace_saint_st (a :: r) = a :: replace_saint_st r.
Proof.
  intros H. destruct r as [|b [|c [|d [|e r5]]]]; try reflexivity.
  cbn [replace_saint_st].
  destruct (is_saint a b c d e) eqn:E; [|reflexivity].
  apply is_saint_true in E. destruct E as (-> & -> & -> & -> & ->).
  exfalso. apply H. now exists r5.
Qed.

(** The recursion scheme of [replace_saint_st]. *)
Lemma replace_saint_st_scheme (Q : str -> str -> Prop) :
  Q [] [] ->
  (forall r, Q r (replace_saint_st r) ->
             Q (115 :: 97 :: 105 :: 110 :: 116 :: r)%N
               (115 :: 116 :: replace_saint_st r)%N) ->
  (forall a r, ~ saint_prefix (a :: r) ->
               Q r (replace_saint_st r) ->
               Q (a :: r) (a :: replace_saint_st r)) ->
  forall s, Q s (replace_saint_st s).
Proof.
  intros Hnil Hhit Hmiss.
  assert (G : forall n s, (List.length s <= n)%nat -> Q s (replace_saint_st s)).
  { induction n as [|n IH]; intros s Hlen.
    - destruct s; [exact Hnil | simpl in Hlen; lia].
    - destruct s as [|a r]; [exact Hnil|].
      destruct r as [|b [|c [|d [|e r5]]]];
        try (rewrite replace_saint_st_miss;
             [apply Hmiss; [|apply IH; simpl in Hlen |- *; lia] |];
             intros [x Hx]; discriminate Hx).
      destruct (is_saint a b c d e) eqn:E.
      + apply is_saint_true in E. destruct E as (-> & -> & -> & -> & ->).
        rewrite replace_saint_st_hit. apply Hhit.
        apply IH. simpl in Hlen |- *. lia.
      + assert (Hn : ~ saint_prefix (a :: b :: c :: d :: e :: r5)).
        { intros [x Hx]. injection Hx as -> -> -> -> -> ->.
          discriminate E. }
        rewrite replace_saint_st_miss by exact Hn.
        apply Hmiss; [exact Hn|]. apply IH. simpl in Hlen |- *. lia. }
  intros s. apply (G (List.length s)). lia.
Qed.

Lemma replace_saint_st_no_run s :
  no_space_run s = true ->
  no_space_run (replace_saint_st s) = true /\
  starts_space (replace_saint_st s) = starts_space s.
Proof.
  apply (replace_saint_st_scheme
           (fun s t => no_space_run s = true ->
                       no_space_run t = true /\ starts_space t = starts_space s)).
  - auto.
  - intros r IH H. cbn in H. destruct (IH H) as [H1 _].
    split; [|reflexivity]. cbn. exact H1.
  - intros a r _ IH H. simpl in H.
    apply andb_true_iff in H. destruct H as [Ha Hr].
    destruct (IH Hr) as [H1 H2]. split; [|reflexivity].
    simpl. rewrite H2, Ha. exact H1.
Qed.

Lemma replace_saint_st_cons x t s :
  replace_saint_st s = x :: t -> x <> 115%N ->
  exists r, s = x :: r /\ t = replace_saint_st r.
Proof.
  intros H Hx. destruct s as [|a r]; [discriminate H|].
  destruct r as [|b [|c [|d [|e r5]]]];
    try (injection H as <- <-; eexists; split; reflexivity).
  cbn [replace_saint_st] in H.
  destruct (is_saint a b c d e).
  - injection H as <- _. now elim Hx.
  - injection H as <- <-. eexists; split; reflexivity.
Qed.

Lemma replace_saint_st_idempotent s :
  replace_saint_st (replace_saint_st s) = replace_saint_st s.
Proof.
  apply (replace_saint_st_scheme (fun _ t => replace_saint_st t = t)).
  - reflexivity.
  - intros r IH.
    rewrite replace_saint_st_miss by (intros [x Hx]; discriminate Hx).
    rewrite replace_saint_st_miss by (intros [x Hx]; discriminate Hx).
    now rewrite IH.
  - intros a r Hn IH.
    rewrite replace_saint_st_miss; [now rewrite IH|].
    intros [x Hx]. apply Hn.
    injection Hx as -> Hx.
    apply replace_saint_st_cons in Hx; [|discriminate].
    destruct Hx as (r1 & -> & Hx). symmetry in Hx.
    apply replace_saint_st_cons in Hx; [|discriminate].
    destruct Hx as (r2 & -> & Hx). symmetry in Hx.
    apply replace_saint_st_cons in Hx; [|discriminate].
    destruct Hx as (r3 & -> & Hx). symmetry in Hx.
    apply replace_saint_st_cons in Hx; [|discriminate].
    destruct Hx as (r4 & -> & Hx).
    now exists r4.
Qed.

(** *** The stages on a name that is already normal *)

Lemma lower_plain t : Forall is_plain t -> lower t = t.
Proof.
  intros H. unfold NameNormalizer.lower.
  assert (Ha : forallb is_ascii t = true).
  { apply forallb_forall. intros c Hc.
    rewrite Forall_forall in H. specialize (H c Hc).
    unfold is_plain, plain in H. now apply andb_true_iff in H. }
  rewrite Ha. induction H as [|c r Hc _ IH]; [reflexivity|].
  simpl in Ha |- *. apply andb_true_iff in Ha.
  rewrite IH by tauto. f_equal.
  unfold is_plain, plain in Hc. apply andb_true_iff in Hc.
  destruct Hc as [_ Hc]. apply negb_true_iff in Hc.
  unfold ascii_lower. now rewrite Hc.
Qed.

Lemma unidecode_plain t : Forall is_plain t -> unidecode t = t.
Proof.
  unfold NameNormalizer.unidecode.
  induction 1 as [|c r Hc _ IH]; [reflexivity|].
  simpl. rewrite IH.
  unfold is_plain, plain in Hc. apply andb_true_iff in Hc.
  destruct Hc as [Hc _]. now rewrite Hc.
Qed.

Lemma sub_delimiters_out s : Forall no_delimiter (sub_delimiters s).
Proof.
  induction s as [|c r IH]; simpl; constructor; [|exact IH].
  unfold no_delimiter. destruct (is_delimiter c) eqn:E; congruence.
Qed.

Lemma sub_delimiters_fixed t : Forall no_delimiter t -> sub_delimiters t = t.
Proof.
  induction 1 as [|c r Hc _ IH]; [reflexivity|].
  simpl. rewrite IH. f_equal.
  destruct (is_delimiter c) eqn:E; [symmetry; now apply Hc | reflexivity].
Qed.

Lemma sub_omitted_tokens_out s : Forall not_omitted (sub_omitted_tokens s).
Proof.
  induction s as [|c r IH]; simpl; [constructor|].
  destruct (is_omitted c) eqn:E; simpl; [exact IH|].
  constructor; assumption.
Qed.

Lemma sub_omitted_tokens_fixed t :
  Forall not_omitted t -> sub_omitted_tokens t = t.
Proof.
  induction 1 as [|c r Hc _ IH]; [reflexivity|].
  simpl. rewrite Hc. simpl. now rewrite IH.
Qed.

Lemma normalize_name_fixed t : normal t -> normalize_name t = t.
Proof.
  intros [H1 H2 H3 H4 H5]. unfold NameNormalizer.normalize_name.
  rewrite (lower_plain H1), (unidecode_plain H1).
  rewrite (sub_delimiters_fixed H2), (sub_omitted_tokens_fixed H3).
  unfold sub_more_than_one_space.
  rewrite (sub_spaces_from_fixed _ H4). exact H5.
Qed.

Lemma normalize_name_normal s :
  Forall is_plain (unidecode (lower s)) -> normal (normalize_name s).
Proof.
  intros H. unfold NameNormalizer.normalize_name, sub_more_than_one_space.
  split.
  - apply replace_saint_st_chars; try reflexivity.
    apply sub_spaces_from_chars; try reflexivity.
    apply sub_omitted_tokens_chars.
    apply sub_delimiters_chars; [reflexivity | exact H].
  - apply replace_saint_st_chars; try (intro; discriminate).
    apply sub_spaces_from_chars; try (intro; reflexivity).
    apply sub_omitted_tokens_chars. apply sub_delimiters_out.
  - apply replace_saint_st_chars; try reflexivity.
    apply sub_spaces_from_chars; try reflexivity.
    apply sub_omitted_tokens_out.
  - apply replace_saint_st_no_run. apply sub_spaces_from_no_run.
  - apply replace_saint_st_idempotent.
Qed.

(** Every ASCII string is transliterated to plain characters. *)
Lemma lower_unidecode_ascii s :
  forallb is_ascii s = true -> Forall is_plain (unidecode (lower s)).
Proof.
  intros H. unfold NameNormalizer.lower. rewrite H.
  unfold NameNormalizer.unidecode.
  induction s as [|c r IH]; [constructor|].
  simpl in H. apply andb_true_iff in H. destruct H as [Hc Hr].
  assert (Hp : is_plain (ascii_lower c)).
  { unfold is_plain, plain, ascii_lower, is_upper, is_ascii in *.
    apply N.ltb_lt in Hc.
    destruct ((65 <=? c)%N && (c <=? 90)%N) eqn:E.
    - apply andb_true_iff in E. destruct E as [E1 E2].
      apply N.leb_le in E1, E2.
      apply andb_true_iff. split; [apply N.ltb_lt; lia|].
      apply negb_true_iff. apply andb_false_iff. right.
      apply N.leb_gt. lia.
    - rewrite E. apply andb_true_iff. split; [now apply N.ltb_lt|reflexivity]. }
  simpl.
  assert (Ha : is_ascii (ascii_lower c) = true).
  { unfold is_plain, plain in Hp. now apply andb_true_iff in Hp. }
  rewrite Ha. simpl. constructor; [exact Hp | now apply IH].
Qed.

(** On ASCII input the normalization is idempotent, whatever the
    libraries do outside ASCII. *)
Lemma normalize_name_idempotent_ascii s :
  forallb is_ascii s = true ->
  normalize_name (normalize_name s) = normalize_name s.
Proof.
  intros H. apply normalize_name_fixed, normalize_name_normal.
  now apply lower_unidecode_ascii.
Qed.

(** C9 (as amended).  [normalize_name] is idempotent on every string whose
    transliteration, [unidecode(name.lower())], consists of ASCII
    characters none of which is an upper-case letter: normalizing the
    normalized name gives the normalized name again. *)
Theorem normalize_name_idempotent_plain s :
  forallb plain (unidecode (lower s)) = true ->
  normalize_name (normalize_name s) = normalize_name s.
Proof.
  intros H. apply normalize_name_fixed, normalize_name_normal.
  apply Forall_forall. intros c Hc.
  rewrite forallb_forall in H. exact (H c Hc).
Qed.

End NameNormalizerProps.

(** "Saint-étienne  d'Or" is such a string. *)
Lemma normalize_name_idempotent_plain_witness :
  let name := (Py.lit "Saint-" ++ [233%N] ++ Py.lit "tienne  d'Or")%list in
  let normalize_name :=
    NameNormalizer.normalize_name NameNormalizer.lower_caseless
                                  NameNormalizer.unidecode_excerpt in
  forallb NameNormalizer.plain
    (NameNormalizer.unidecode NameNormalizer.unidecode_excerpt
       (NameNormalizer.lower NameNormalizer.lower_caseless name)) = true /\
  normalize_name (normalize_name name) = normalize_name name.
Proof.
  split; [reflexivity|].
  apply normalize_name_idempotent_plain. reflexivity.
Defined.

(** C9 (as stated) fails: the two characters U+5317 U+4EAC are
    transliterated after lowering, to "Bei Jing "; normalizing that
    result lowers its capitals. *)
Lemma normalize_name_not_idempotent :
  let normalize_name :=
    NameNormalizer.normalize_name NameNormalizer.lower_caseless
                                  NameNormalizer.unidecode_excerpt in
  normalize_name [21271%N; 20140%N] = Py.lit "Bei Jing " /\
  normalize_name (normalize_name [21271%N; 20140%N]) = Py.lit "bei jing " /\
  normalize_name (normalize_name [21271%N; 20140%N])
    <> normalize_name [21271%N; 20140%N].
Proof.
  repeat split. vm_compute. discriminate.
Qed.

(** ** [median_high] *)

Section SortedProps.
Import Py Statistics.
Variables (A : Type) (leb : A -> A -> bool).

Lemma insert_length (x : A) l :
  List.length (insert leb x l) = S (List.length l).
Proof.
  induction l as [|y l IH]; simpl; [reflexivity|].
  destruct (leb x y); simpl; [reflexivity | now rewrite IH].
Qed.

Lemma sorted_length (data : list A) :
  List.length (sorted leb data) = List.length data.
Proof.
  induction data as [|x l IH]; simpl; [reflexivity|].
  now rewrite insert_length, IH.
Qed.

(** [median_high] returns on data that is not empty, and only then. *)
Lemma median_high_ok (data : list A) :
  data <> [] -> exists x, median_high leb data = Ok x.
Proof.
  intros H. unfold median_high.
  destruct (sorted leb data) as [|x l] eqn:E.
  - exfalso. apply H. apply length_zero_iff_nil.
    now rewrite <- sorted_length, E.
  - eexists; reflexivity.
Qed.

Lemma median_high_nil : median_high leb [] = Raise StatisticsError.
Proof. reflexivity. Qed.
End SortedProps.

(** ** TrackSegmentResolver and RouteAssembler *)

Section TrassenfinderProps.
Import Py Stations Routes Statistics Trassenfinder.

Variable UNKNOWN : Z.
Variable iter_stations_by_codes_reverse : list Station -> list (str * Station).

Local Abbreviation tracks_between := (tracks_between UNKNOWN).
Local Abbreviation for_each_pair := (for_each_pair UNKNOWN).
Local Abbreviation codes_to_station_of :=
  (codes_to_station_of iter_stations_by_codes_reverse).
Local Abbreviation convert_waypoints_to_route :=
  (convert_waypoints_to_route UNKNOWN iter_stations_by_codes_reverse).

(** *** The fallback Track *)

(** Without a last known segment the fallback Track is built from the
    medians over the route's Path; its [from_km] is [None]. *)
Lemma track_from_path_median n to_km path_data path c1 c2 e k :
  get Z.eqb path_data n = Some path ->
  median_high implb (List.map electrified (tracks path)) = Ok e ->
  median_high Z.leb (List.map kind (tracks path)) = Ok k ->
  track_from_path n None to_km path_data c1 c2 =
  Ok {| route_number := Some n; electrified := e; kind := k; length := 0;
        from_km := None; to_km := to_km |}.
Proof.
  intros Hp He Hk. unfold track_from_path. rewrite Hp, He, Hk. reflexivity.
Qed.

(** With a last known segment its flags and its [to_km] are carried over. *)
Lemma track_from_path_last_known n last to_km path_data c1 c2 :
  track_from_path n (Some last) to_km path_data c1 c2 =
  Ok {| route_number := Some n; electrified := electrified last;
        kind := kind last; length := 0;
        from_km := Routes.to_km last; to_km := to_km |}.
Proof. reflexivity. Qed.

Lemma track_from_path_ok n to_km path_data c1 c2 :
  (forall path, get Z.eqb path_data n = Some path -> tracks path <> []) ->
  exists track, track_from_path n None to_km path_data c1 c2 = Ok track.
Proof.
  intros H. unfold track_from_path.
  destruct (get Z.eqb path_data n) as [path|] eqn:Hp.
  - specialize (H path eq_refl).
    destruct (median_high_ok implb (data := List.map electrified (tracks path)))
      as [e He].
    { destruct (tracks path); [now elim H | discriminate]. }
    destruct (median_high_ok Z.leb (data := List.map kind (tracks path)))
      as [k Hk].
    { destruct (tracks path); [now elim H | discriminate]. }
    rewrite He, Hk. eexists; reflexivity.
  - eexists; reflexivity.
Qed.

(** *** Tracks by kilometre position *)

Lemma track_in_range_bounds km_start km_end t :
  has_bounds t ->
  track_in_range km_start km_end t = Ok (bound_in_range km_start km_end t).
Proof.
  intros [Ha Hb]. unfold track_in_range, bound_in_range, between.
  destruct (from_km t) as [a|]; [|now elim Ha].
  destruct (Routes.to_km t) as [b|]; [|now elim Hb].
  simpl. destruct (Qle_bool km_start a && Qle_bool a km_end); reflexivity.
Qed.

(** Over Tracks with both bounds the loop is a filter. *)
Lemma append_tracks_in_range_filter km_start km_end tracks acc :
  Forall has_bounds tracks ->
  append_tracks_in_range km_start km_end tracks acc =
  Ok (acc ++ filter (bound_in_range km_start km_end) tracks).
Proof.
  intros H. revert acc.
  induction H as [|t r Ht _ IH]; intros acc; simpl.
  - now rewrite app_nil_r.
  - rewrite (track_in_range_bounds _ _ Ht). simpl. rewrite IH.
    destruct (bound_in_range km_start km_end t); [|reflexivity].
    now rewrite <- app_assoc.
Qed.

(** A Track that line 99 selects does overlap the range between the two
    stations. *)
Lemma bound_in_range_overlaps km_start km_end t a b :
  from_km t = Some a -> Routes.to_km t = Some b -> a <= b ->
  bound_in_range km_start km_end t = true ->
  overlaps km_start km_end t.
Proof.
  intros Ha Hb Hab H. unfold bound_in_range in H. rewrite Ha, Hb in H.
  exists a, b. split; [exact Ha|]. split; [exact Hb|].
  apply orb_true_iff in H.
  destruct H as [H | H]; apply andb_true_iff in H; destruct H as [H1 H2];
    apply Qle_bool_iff in H1, H2; split;
    eauto using Qle_trans.
Qed.

(** *** One hop *)

Lemma km_on_route_truthy locations n km r :
  km_on_route locations n = km :: r -> truthy locations = true.
Proof.
  destruct locations as [[|l ls]|]; simpl; try discriminate. reflexivity.
Qed.

(** Route number absent, zero, or not in the catalog: the placeholder of
    [invalid_track]. *)
Lemma tracks_between_invalid cts rtp w w' s s' :
  get str_eqb cts (code w) = Some s ->
  get str_eqb cts (code w') = Some s' ->
  match next_route_number w with
  | None => True
  | Some n => n = 0%Z \/ get Z.eqb rtp n = None
  end ->
  tracks_between cts rtp w w' = Ok [invalid_track UNKNOWN (next_route_number w)].
Proof.
  intros Hs Hs' Hn. unfold Trassenfinder.tracks_between, getitem.
  rewrite Hs, Hs'. simpl.
  destruct (next_route_number w) as [n|]; [|reflexivity].
  destruct Hn as [-> | Hn]; [reflexivity|].
  rewrite Hn. destruct (Z.eqb n 0); reflexivity.
Qed.

(** Route number in the catalog and a kilometre position of both stations
    on it: the Tracks of the Path one of whose bounds lies within
    [[km_start, km_end]], in the order of the Path. *)
Lemma tracks_between_by_km cts rtp w w' s s' n path km r km' r' :
  get str_eqb cts (code w) = Some s ->
  get str_eqb cts (code w') = Some s' ->
  next_route_number w = Some n -> n <> 0%Z ->
  get Z.eqb rtp n = Some path ->
  km_on_route (locations_path s) n = km :: r ->
  km_on_route (locations_path s') n = km' :: r' ->
  Forall has_bounds (tracks path) ->
  tracks_between cts rtp w w' =
  Ok (filter (bound_in_range (min km km') (max km km')) (tracks path)).
Proof.
  intros Hs Hs' Hn Hn0 Hp Hkm Hkm' Hb.
  unfold Trassenfinder.tracks_between, getitem.
  rewrite Hs, Hs', Hn. simpl.
  apply Z.eqb_neq in Hn0. rewrite Hn0, Hp.
  rewrite (km_on_route_truthy _ _ Hkm), (km_on_route_truthy _ _ Hkm').
  simpl. rewrite Hkm, Hkm'.
  now rewrite append_tracks_in_range_filter.
Qed.

(** Route number in the catalog, a kilometre position missing: one Track
    from [track_from_path], which is handed [None] as last known segment
    whatever the hops before have resolved. *)
Lemma tracks_between_fallback cts rtp w w' s s' n path :
  get str_eqb cts (code w) = Some s ->
  get str_eqb cts (code w') = Some s' ->
  next_route_number w = Some n -> n <> 0%Z ->
  get Z.eqb rtp n = Some path ->
  km_on_route (locations_path s) n = [] \/
  km_on_route (locations_path s') n = [] ->
  tracks_between cts rtp w w' =
  (track <- track_from_path n None
              (if truthy (locations_path s) && truthy (locations_path s')
               then hd_error (km_on_route (locations_path s') n) else None)
              rtp (Some (code w)) (Some (code w')) ;;
   Ok [track]).
Proof.
  intros Hs Hs' Hn Hn0 Hp Hkm.
  unfold Trassenfinder.tracks_between, getitem.
  rewrite Hs, Hs', Hn. simpl bind.
  apply Z.eqb_neq in Hn0. rewrite Hn0, Hp.
  destruct (truthy (locations_path s) && truthy (locations_path s'));
    [|reflexivity].
  destruct Hkm as [Hkm | Hkm]; rewrite Hkm.
  - reflexivity.
  - destruct (km_on_route (locations_path s) n); reflexivity.
Qed.


(** *** The loop over the pairs *)

(** Each pair appends one tuple. *)
Lemma for_each_pair_length cts rtp pairs acc r :
  for_each_pair cts rtp pairs acc = Ok r ->
  List.length r = (List.length acc + List.length pairs)%nat.
Proof.
  revert acc. induction pairs as [|[w w'] rest IH]; intros acc H; simpl in H.
  - injection H as <-. simpl. lia.
  - destruct (Trassenfinder.tracks_between UNKNOWN cts rtp w w') as [ts|e];
      [|discriminate H].
    simpl in H. apply IH in H. rewrite H, length_app. simpl. lia.
Qed.

(** Each tuple is what the body of the loop makes of its pair. *)
Lemma for_each_pair_tuples cts rtp pairs acc r :
  for_each_pair cts rtp pairs acc = Ok r ->
  exists l,
    r = acc ++ l /\
    Forall2 (fun p ts => tracks_between cts rtp (fst p) (snd p) = Ok ts)
            pairs l.
Proof.
  revert acc. induction pairs as [|[w w'] rest IH]; intros acc H; simpl in H.
  - injection H as <-. exists []. now rewrite app_nil_r.
  - destruct (Trassenfinder.tracks_between UNKNOWN cts rtp w w') as [ts|e] eqn:E;
      [|discriminate H].
    simpl in H. apply IH in H. destruct H as (l & -> & Hl).
    exists (ts :: l). rewrite <- app_assoc. split; [reflexivity|].
    constructor; assumption.
Qed.

(** An exception in the body of the loop ends the loop. *)
Lemma for_each_pair_raise cts rtp pairs acc w w' e :
  In (w, w') pairs ->
  tracks_between cts rtp w w' = Raise e ->
  exists e', for_each_pair cts rtp pairs acc = Raise e'.
Proof.
  revert acc. induction pairs as [|[w1 w1'] rest IH]; intros acc Hin He;
    [contradiction|].
  simpl.
  destruct (Trassenfinder.tracks_between UNKNOWN cts rtp w1 w1') as [ts|e1] eqn:E.
  - simpl. destruct Hin as [Hin | Hin].
    + injection Hin as -> ->.
      change (Trassenfinder.tracks_between UNKNOWN) with tracks_between in E.
      congruence.
    + now apply IH.
  - eexists; reflexivity.
Qed.


(** The number of hops: whenever the assembler returns, the Route holds
    the waypoints it was given and one tuple per consecutive pair. *)
Lemma convert_waypoints_to_route_hops waypoints station_data path_data route :
  convert_waypoints_to_route waypoints station_data path_data = Ok route ->
  Routes.waypoints route = waypoints /\
  Forall2 (fun p ts =>
             tracks_between (codes_to_station_of station_data)
                            (route_number_to_path_of path_data)
                            (fst p) (snd p) = Ok ts)
          (combine waypoints (tl waypoints)) (tracks_used route) /\
  List.length (tracks_used route) = (List.length waypoints - 1)%nat.
Proof.
  unfold Trassenfinder.convert_waypoints_to_route. intros H.
  destruct (Trassenfinder.for_each_pair _ _ _ _ _) as [r|e] eqn:E;
    [|discriminate H].
  simpl in H. injection H as <-. split; [reflexivity|].
  cbn [tracks_used]. split.
  - apply for_each_pair_tuples in E. destruct E as (l & -> & Hl). exact Hl.
  - apply for_each_pair_length in E. rewrite E, length_combine.
    destruct waypoints as [|w ws]; [reflexivity|].
    cbn [tl List.length]. lia.
Qed.

(** A hop with a code that has no entry in the station catalog raises
    [KeyError]. *)
Lemma tracks_between_unresolved cts rtp w w' :
  ~ resolves cts w \/ ~ resolves cts w' ->
  tracks_between cts rtp w w' = Raise KeyError.
Proof.
  unfold resolves, Trassenfinder.tracks_between, getitem. intros H.
  destruct (get str_eqb cts (code w)) as [s|]; [|reflexivity].
  destruct (get str_eqb cts (code w')) as [s'|]; [|reflexivity].
  destruct H as [H | H]; elim H; discriminate.
Qed.

(** In a list of two or more, every waypoint is in a pair. *)
Lemma in_consecutive_pair (w : CodeWaypoint) waypoints :
  In w waypoints -> (2 <= List.length waypoints)%nat ->
  exists w1 w2, In (w1, w2) (combine waypoints (tl waypoints)) /\
                (w = w1 \/ w = w2).
Proof.
  induction waypoints as [|a ws IH]; [contradiction|].
  intros Hin Hlen. destruct ws as [|b ws]; [simpl in Hlen; lia|].
  destruct Hin as [-> | Hin].
  - exists w, b. split; [now left | now left].
  - destruct ws as [|c ws].
    + destruct Hin as [-> | []]. exists a, w. split; [now left | now right].
    + destruct IH as (w1 & w2 & Hp & Hw); [exact Hin | simpl; lia |].
      exists w1, w2. split; [now right | exact Hw].
Qed.

(** A waypoint whose code has no entry in the station catalog makes the
    assembler raise, as soon as the list has a hop. *)
Lemma convert_waypoints_to_route_unresolved waypoints station_data path_data w :
  In w waypoints -> (2 <= List.length waypoints)%nat ->
  ~ resolves (codes_to_station_of station_data) w ->
  exists e,
    convert_waypoints_to_route waypoints station_data path_data = Raise e.
Proof.
  intros Hin Hlen Hw.
  destruct (in_consecutive_pair _ _ Hin Hlen) as (w1 & w2 & Hp & Hw12).
  destruct (for_each_pair_raise
              (codes_to_station_of station_data)
              (route_number_to_path_of path_data)
              (combine waypoints (tl waypoints)) [] w1 w2 (e := KeyError) Hp)
    as [e He].
  { apply tracks_between_unresolved. destruct Hw12 as [<- | <-]; auto. }
  exists e. unfold Trassenfinder.convert_waypoints_to_route.
  change (Trassenfinder.for_each_pair UNKNOWN) with for_each_pair.
  now rewrite He.
Qed.

(** A list of one waypoint, or of none, gives a Route without hops; the
    catalogs are not consulted. *)
Lemma convert_waypoints_to_route_single w station_data path_data :
  convert_waypoints_to_route [w] station_data path_data =
  Ok {| waypoints := [w]; tracks_used := [] |}.
Proof. reflexivity. Qed.


End TrassenfinderProps.

(** *** The assembler on the catalog of route 100 *)

Section Route100.
Import Py Stations Routes Trassenfinder Scenario.

(** The scenario of the spec: stations at km 5 and km 12, Tracks [0-6),
    [6-10) and [10-15): all three are returned. *)
Example convert_waypoints_to_route_km5_km12 :
  convert_waypoints_to_route [on_100 "KM5"; on_100 "KM12"]
                             station_data [path_100] =
  Ok {| waypoints := [on_100 "KM5"; on_100 "KM12"];
        tracks_used := [[track_0_6; track_6_10; track_10_15]] |}.
Proof. reflexivity. Qed.

(** An unknown route number: the placeholder of [invalid_track]. *)
Example convert_waypoints_to_route_unknown_route :
  convert_waypoints_to_route [waypoint_on (Some 999%Z) "KM5"; on_100 "KM12"]
                             station_data [path_100] =
  Ok {| waypoints := [waypoint_on (Some 999%Z) "KM5"; on_100 "KM12"];
        tracks_used := [[Trassenfinder.invalid_track UNKNOWN (Some 999%Z)]] |}.
Proof. reflexivity. Qed.

(** C1.  Stations at km 1 and km 4, both on the Track [0-6): both codes
    resolve and the route number is in the catalog, yet the tuple of the
    only hop is empty.  Neither bound of the Track lies between the two
    stations, and this branch appends no placeholder. *)
Theorem convert_waypoints_to_route_empty_tuple :
  let waypoints := [on_100 "KM1"; on_100 "KM4"] in
  Forall (resolves (codes_to_station_of iter_stations_by_codes_reverse
                                        station_data)) waypoints /\
  convert_waypoints_to_route waypoints station_data [path_100] =
  Ok {| waypoints := waypoints; tracks_used := [[]] |}.
Proof.
  split; [|reflexivity].
  repeat constructor; vm_compute; discriminate.
Qed.

(** C2.  Three waypoints on route 100: the hop from km 0 to km 5 resolves
    the electrified Track [0-6) of kind 0; the next hop ends at a station
    without a position on the route.  Its fallback Track does not take
    after that last resolved Track: it is not electrified, of kind 1 (the
    high medians over the whole Path) and has no [from_km]. *)
Theorem convert_waypoints_to_route_fallback_after_resolved :
  let waypoints := [on_100 "KM0"; on_100 "KM5"; on_100 "ELSEWHERE"] in
  convert_waypoints_to_route waypoints station_data [path_100] =
  Ok {| waypoints := waypoints;
        tracks_used :=
          [ [track_0_6];
            [{| Routes.route_number := Some 100%Z;
                electrified := false;
                kind := 1;
                length := 0;
                from_km := None;
                to_km := None |}] ] |}
  /\ electrified track_0_6 = true
  /\ kind track_0_6 = 0%Z
  /\ Routes.to_km track_0_6 = Some 6.
Proof. repeat split. Qed.

(** C3.  Stations at km 7 and km 9: the Track [6-10) overlaps [7, 9], it
    encloses it, and is not in the tuple of the hop, which is empty. *)
Theorem convert_waypoints_to_route_misses_enclosing_track :
  let waypoints := [on_100 "KM7"; on_100 "KM9"] in
  convert_waypoints_to_route waypoints station_data [path_100] =
  Ok {| waypoints := waypoints; tracks_used := [[]] |}
  /\ In track_6_10 (tracks path_100)
  /\ overlaps 7 9 track_6_10.
Proof.
  split; [reflexivity|]. split; [simpl; tauto|].
  exists 6, 10. repeat split; discriminate.
Qed.


End Route100.

(** ** StationResolver and TraceSegmenter *)

Section BrouterProps.
Import Py Stations Routes Brouter.

Variable unicode_lower : str -> str.
Variable unidecode_table : N -> str.
Variable countries : dict str Country.
Variable reverse : Location -> query_string_filter -> option (list Place).
Variable distance_float : Location -> Location -> Q.
Variable fallback_town : bool.

Local Abbreviation possible_stations_of :=
  (possible_stations_of reverse fallback_town).
Local Abbreviation possible_station_names :=
  (possible_station_names unicode_lower unidecode_table).
Local Abbreviation resolve_waypoint :=
  (resolve_waypoint unicode_lower unidecode_table countries reverse
                    fallback_town).
Local Abbreviation first_near := (first_near distance_float).
Local Abbreviation visit := (visit distance_float).
Local Abbreviation walk_from := (walk_from distance_float).
Local Abbreviation walk := (walk distance_float).

Lemma Location_eqb_refl l : Location_eqb l l = true.
Proof.
  unfold Location_eqb. apply andb_true_iff.
  split; apply Qeq_bool_iff; reflexivity.
Qed.

(** *** The walk along the trace *)

Lemma first_near_In items location k stop :
  first_near items location = Some (k, stop) -> In (k, stop) items.
Proof.
  induction items as [|[k1 v1] items IH]; simpl; [discriminate|].
  destruct (Qlt_bool _ _).
  - intros [= -> ->]. now left.
  - intros H. right. now apply IH.
Qed.

(** What one trackpoint does to the state. *)
Lemma visit_cases points w index trackpoint :
  hints_have_codes (waypoint_location_to_station_location w) ->
  let location := {| latitude := latitude trackpoint;
                     longitude := longitude trackpoint |} in
  let total :=
    match last_location w with
    | Some last => distance_total w + distance_float location last
    | None => distance_total w
    end in
  (visit points w index trackpoint =
   Ok {| distance_total := total;
         code_waypoints := code_waypoints w;
         track_paths := track_paths w;
         last_location := Some location;
         last_stop_index := last_stop_index w;
         waypoint_location_to_station_location :=
           waypoint_location_to_station_location w |})
  \/
  (exists k stop code r,
      In (k, stop) (waypoint_location_to_station_location w) /\
      codes stop = code :: r /\
      visit points w index trackpoint =
      Ok {| distance_total := total;
            code_waypoints :=
              code_waypoints w ++
              [{| code := code; distance_from_start := total;
                  is_stop := true; next_route_number := Some 0%Z |}];
            track_paths :=
              track_paths w ++ [(slice points (last_stop_index w) index, stop)];
            last_location := Some location;
            last_stop_index := index;
            waypoint_location_to_station_location :=
              pop Location_eqb (waypoint_location_to_station_location w) k |}).
Proof.
  intros Hc location total. unfold Brouter.visit.
  fold location. fold total.
  destruct (Brouter.first_near distance_float
              (waypoint_location_to_station_location w) location)
    as [[k stop]|] eqn:E; [|now left].
  apply first_near_In in E.
  destruct (codes stop) as [|code r] eqn:Ecodes.
  - exfalso. unfold hints_have_codes in Hc. rewrite Forall_forall in Hc.
    now apply (Hc _ E).
  - right. exists k, stop, code, r. auto.
Qed.

(** An invariant that every trackpoint keeps, and under which every
    trackpoint is processed without an exception, holds at the end of
    the walk, which then returns. *)
Lemma walk_from_invariant (I : nat -> Walk -> Prop) points :
  (forall index w trackpoint,
      I index w ->
      exists w', visit points w index trackpoint = Ok w' /\ I (S index) w') ->
  forall rest index w,
    I index w ->
    exists w', walk_from points index rest w = Ok w' /\
               I (index + List.length rest)%nat w'.
Proof.
  intros Hstep rest.
  induction rest as [|trackpoint rest IH]; intros index w Hw; simpl.
  - exists w. now rewrite Nat.add_0_r.
  - destruct (Hstep index w trackpoint Hw) as (w1 & E & H1).
    change (Brouter.visit distance_float) with visit.
    rewrite E. simpl.
    destruct (IH (S index) w1 H1) as (w2 & E2 & H2).
    exists w2. split; [exact E2|].
    now rewrite Nat.add_succ_r.
Qed.

Lemma visit_segments n points w index trackpoint :
  segments_inv n points index w ->
  exists w', visit points w index trackpoint = Ok w' /\
             segments_inv n points (S index) w'.
Proof.
  intros [H1 H2 H3 H4 H5].
  destruct (visit_cases points w index trackpoint H5)
    as [E | (k & stop & code & r & Hin & Hcodes & E)];
    rewrite E; eexists; (split; [reflexivity|]); constructor; simpl; auto.
  - rewrite !length_app, H1. reflexivity.
  - rewrite length_app. simpl.
    pose proof (pop_length Location_eqb Location_eqb_refl _ _ _ Hin). lia.
  - rewrite map_app, concat_app. simpl. rewrite app_nil_r, H4.
    now apply firstn_slice.
  - now apply pop_Forall.
Qed.

Lemma visit_distances points w index trackpoint :
  (forall a b, 0 <= distance_float a b) ->
  distance_inv w ->
  exists w', visit points w index trackpoint = Ok w' /\ distance_inv w'.
Proof.
  intros Hd [H1 H2 H3].
  set (location := {| latitude := latitude trackpoint;
                      longitude := longitude trackpoint |}).
  set (total := match last_location w with
                | Some last => distance_total w + distance_float location last
                | None => distance_total w
                end).
  assert (Ht : distance_total w <= total).
  { unfold total. destruct (last_location w) as [last|]; [|apply Qle_refl].
    specialize (Hd location last). lra. }
  assert (Hb : Forall (fun d => d <= total)
                      (List.map distance_from_start (code_waypoints w))).
  { eapply Forall_impl; [|exact H2]. simpl. intros d Hle.
    eapply Qle_trans; eassumption. }
  destruct (visit_cases points w index trackpoint H3)
    as [E | (k & stop & code & r & Hin & Hcodes & E)];
    fold location in E; fold total in E;
    rewrite E; eexists; (split; [reflexivity|]); constructor; simpl; auto.
  - rewrite map_app. simpl. now apply StronglySorted_snoc.
  - rewrite map_app. simpl. apply Forall_app. split; [exact Hb|].
    constructor; [apply Qle_refl | constructor].
  - now apply pop_Forall.
Qed.

Lemma walk_segments_inv hints points :
  hints_have_codes hints ->
  exists w, walk hints points = Ok w /\
            segments_inv (List.length hints) points (List.length points) w.
Proof.
  intros H. unfold Brouter.walk.
  apply (walk_from_invariant (segments_inv (List.length hints) points)
                             points).
  - intros index w trackpoint. apply visit_segments.
  - constructor; simpl; auto.
Qed.

Lemma walk_distance_inv hints points :
  (forall a b, 0 <= distance_float a b) ->
  hints_have_codes hints ->
  exists w, walk hints points = Ok w /\ distance_inv w.
Proof.
  intros Hd H. unfold Brouter.walk.
  destruct (walk_from_invariant (fun _ => distance_inv) points)
    with (rest := points) (index := 0%nat)
         (w := {| distance_total := 0; code_waypoints := [];
                  track_paths := []; last_location := None;
                  last_stop_index := 0;
                  waypoint_location_to_station_location := hints |})
    as (w & E & Hw).
  - intros index w trackpoint. now apply visit_distances.
  - constructor; simpl; auto; constructor.
  - exists w. split; assumption.
Qed.

(** *** The segments and the matches *)

Lemma first_near_Some items location k stop :
  first_near items location = Some (k, stop) ->
  In (k, stop) items /\
  Qlt_bool (distance_float k location) (8 # 100) = true.
Proof.
  induction items as [|[k1 v1] items IH]; simpl; [discriminate|].
  destruct (Qlt_bool (distance_float k1 location) (8 # 100)) eqn:E.
  - intros [= <- <-]. split; [now left | exact E].
  - intros H. destruct (IH H) as [Hin Hd]. split; [now right | exact Hd].
Qed.

Lemma first_near_None items location :
  first_near items location = None -> near distance_float items location = false.
Proof.
  induction items as [|[k1 v1] items IH]; simpl; [reflexivity|].
  destruct (Qlt_bool (distance_float k1 location) (8 # 100)); [discriminate|].
  exact IH.
Qed.

Lemma near_incl items items' location :
  incl items' items ->
  near distance_float items location = false ->
  near distance_float items' location = false.
Proof.
  unfold near. intros Hincl H.
  destruct (existsb _ items') eqn:E; [|reflexivity].
  apply existsb_exists in E. destruct E as (x & Hx & Hd).
  rewrite <- H. symmetry. apply existsb_exists. exists x. auto.
Qed.

Lemma location_eta (t : Location) :
  {| latitude := latitude t; longitude := longitude t |} = t.
Proof. now destruct t. Qed.

Lemma nth_pred_last (A : Type) (l : list A) d :
  nth (Nat.pred (List.length l)) l d = last l d.
Proof.
  induction l as [|x l IH]; [reflexivity|].
  destruct l as [|y l]; [reflexivity|]. exact IH.
Qed.

Lemma skipn_cons_nth (A : Type) (l : list A) i x r :
  skipn i l = x :: r -> nth_error l i = Some x /\ skipn (S i) l = r.
Proof.
  revert l. induction i as [|i IH]; intros l H.
  - destruct l; [discriminate|]. simpl in H. injection H as -> ->. auto.
  - destruct l as [|y l]; [discriminate|]. simpl in H.
    apply IH in H. exact H.
Qed.

(** As [walk_from_invariant], for an invariant that speaks of the
    trackpoint at its index. *)
Lemma walk_from_invariant_at (I : nat -> Walk -> Prop) points :
  (forall index w trackpoint,
      nth_error points index = Some trackpoint ->
      I index w ->
      exists w', visit points w index trackpoint = Ok w' /\ I (S index) w') ->
  forall rest index w,
    skipn index points = rest ->
    I index w ->
    exists w', walk_from points index rest w = Ok w' /\
               I (index + List.length rest)%nat w'.
Proof.
  intros Hstep rest.
  induction rest as [|trackpoint rest IH]; intros index w Hskip Hw; simpl.
  - exists w. now rewrite Nat.add_0_r.
  - apply skipn_cons_nth in Hskip. destruct Hskip as [Hnth Hskip].
    destruct (Hstep index w trackpoint Hnth Hw) as (w1 & E & H1).
    change (Brouter.visit distance_float) with visit.
    rewrite E. simpl.
    destruct (IH (S index) w1 Hskip H1) as (w2 & E2 & H2).
    exists w2. split; [exact E2|].
    now rewrite Nat.add_succ_r.
Qed.

(** One trackpoint keeps the segments in step with the matches: a point
    that is near no hint still held leaves them as they are; a point near
    one ends a segment just before itself. *)
Lemma visit_matches hints points index w trackpoint :
  nth_error points index = Some trackpoint ->
  hints_have_codes (waypoint_location_to_station_location w) ->
  (exists cuts, matches_inv distance_float hints points index cuts w) ->
  exists w', visit points w index trackpoint = Ok w' /\
             hints_have_codes (waypoint_location_to_station_location w') /\
             exists cuts, matches_inv distance_float hints points (S index) cuts w'.
Proof.
  intros Hnth Hcodes (cuts & [Hcount Hsorted Hbound Hlast Hincl Hnone Hmatch
                                Hfirst Hothers]).
  unfold Brouter.visit. rewrite (location_eta trackpoint).
  destruct (Brouter.first_near distance_float
              (waypoint_location_to_station_location w) trackpoint)
    as [[k stop]|] eqn:E.
  - apply first_near_Some in E. destruct E as [Hin Hd].
    destruct (codes stop) as [|code r] eqn:Ecodes.
    { exfalso. unfold hints_have_codes in Hcodes.
      rewrite Forall_forall in Hcodes. now apply (Hcodes _ Hin). }
    eexists. split; [reflexivity|]. cbn [waypoint_location_to_station_location].
    split; [now apply pop_Forall|].
    exists (cuts ++ [index]).
    constructor; cbn [track_paths last_stop_index
                      waypoint_location_to_station_location].
    + rewrite !length_app, Hcount. reflexivity.
    + now apply StronglySorted_snoc.
    + apply Forall_app. split.
      * eapply Forall_impl; [|exact Hbound]. simpl. intros; lia.
      * repeat constructor.
    + now rewrite last_last.
    + eapply incl_tran; [apply pop_incl | exact Hincl].
    + intros H. now destruct cuts.
    + intros k0 i Hk0.
      destruct (Nat.lt_ge_cases k0 (List.length cuts)) as [Hold | Hnew].
      * rewrite nth_error_app1 in Hk0 by exact Hold.
        destruct (Hmatch k0 i Hk0) as (tp & loc & st & H1 & H2 & H3 & H4).
        exists tp, loc, st. repeat (split; [assumption|]).
        rewrite nth_error_app1 by (rewrite <- Hcount; exact Hold).
        rewrite H4. do 3 f_equal.
        destruct k0 as [|k']; [reflexivity|].
        cbn [cut_before]. symmetry. apply app_nth1. lia.
      * rewrite nth_error_app2 in Hk0 by exact Hnew.
        destruct (k0 - List.length cuts)%nat as [|d] eqn:Ed;
          [|destruct d; discriminate Hk0].
        injection Hk0 as <-.
        assert (Hk : k0 = List.length cuts) by lia. subst k0.
        exists trackpoint, k, stop.
        split; [exact Hnth|]. split; [now apply Hincl|]. split; [exact Hd|].
        rewrite nth_error_app2 by (rewrite Hcount; apply Nat.le_refl).
        rewrite Hcount, Nat.sub_diag. cbn [nth_error]. do 3 f_equal.
        rewrite Hlast, <- Hcount.
        destruct cuts as [|c cuts']; [reflexivity|].
        cbn [List.length cut_before].
        rewrite app_nth1 by (simpl; lia).
        symmetry. apply (nth_pred_last (c :: cuts') 0%nat).
    + intros j tp Hj Hlt. apply (Hfirst j tp Hj).
      destruct cuts; simpl in *; lia.
    + intros j tp Hj Hlt Hnotin.
      assert (Hji : j <> index).
      { intros ->. apply Hnotin. apply in_or_app. right. now left. }
      eapply near_incl; [apply pop_incl|].
      apply (Hothers j tp Hj); [lia|].
      intros Hc. apply Hnotin. apply in_or_app. now left.
  - apply first_near_None in E.
    eexists. split; [reflexivity|]. cbn [waypoint_location_to_station_location].
    split; [exact Hcodes|].
    exists cuts.
    constructor; cbn [track_paths last_stop_index
                      waypoint_location_to_station_location]; auto.
    + eapply Forall_impl; [|exact Hbound]. simpl. intros; lia.
    + intros j tp Hj Hlt.
      destruct cuts as [|c cuts'].
      * cbn [hd] in Hlt.
        destruct (Nat.eq_dec j index) as [-> | Hne].
        -- rewrite Hnth in Hj. injection Hj as <-.
           now rewrite <- (Hnone eq_refl).
        -- apply (Hfirst j tp Hj). cbn [hd]. lia.
      * apply (Hfirst j tp Hj). exact Hlt.
    + intros j tp Hj Hlt Hnotin.
      destruct (Nat.eq_dec j index) as [-> | Hne].
      * rewrite Hnth in Hj. injection Hj as <-. exact E.
      * apply (Hothers j tp Hj); [lia | exact Hnotin].
Qed.

(** C6 (as amended).  The walk records one sub-trace segment per matched
    station hint, that is one per emitted CodeWaypoint, and no more: the
    segments number as many as the hints consumed.  [cuts] are the indices
    of the points that matched, in increasing order: the point at a cut is
    within 0.08 of a given hint, whose Station the segment carries, and
    the segment runs from the cut before it (the start of the trace for
    the first segment) up to, not including, the point of its own cut.
    The first cut is the first point near any hint, so that the first
    segment is the leading portion of the trace before the first match,
    empty when the first point matches; a point that is no cut is near no
    hint left at the end.  Taken in order the segments make up the trace
    before the last cut: the point of the last match and those after it
    are in no segment. *)
Theorem walk_track_paths_count hints points :
  hints_have_codes hints ->
  exists w cuts,
    walk hints points = Ok w /\
    List.length (track_paths w) = List.length (code_waypoints w) /\
    (List.length (track_paths w)
     + List.length (waypoint_location_to_station_location w)
     = List.length hints)%nat /\
    List.length cuts = List.length (track_paths w) /\
    StronglySorted lt cuts /\
    last_stop_index w = last cuts 0%nat /\
    (forall k i, nth_error cuts k = Some i ->
       exists trackpoint location station,
         nth_error points i = Some trackpoint /\
         In (location, station) hints /\
         Qlt_bool (distance_float location trackpoint) (8 # 100) = true /\
         nth_error (track_paths w) k
         = Some (slice points (cut_before cuts k) i, station)) /\
    (forall j trackpoint,
       nth_error points j = Some trackpoint ->
       (j < hd (List.length points) cuts)%nat ->
       near distance_float hints trackpoint = false) /\
    (forall j trackpoint,
       nth_error points j = Some trackpoint -> ~ In j cuts ->
       near distance_float (waypoint_location_to_station_location w) trackpoint
       = false) /\
    List.concat (List.map fst (track_paths w))
    = firstn (last_stop_index w) points /\
    List.concat (List.map fst (track_paths w)) ++ skipn (last cuts 0%nat) points
    = points.
Proof.
  intros H. unfold Brouter.walk.
  destruct (walk_from_invariant_at
              (fun index w =>
                 segments_inv (List.length hints) points index w /\
                 exists cuts, matches_inv distance_float hints points index cuts w)
              points)
    with (rest := points) (index := 0%nat)
         (w := {| distance_total := 0; code_waypoints := [];
                  track_paths := []; last_location := None;
                  last_stop_index := 0;
                  waypoint_location_to_station_location := hints |})
    as (w & E & Hseg & cuts & Hm).
  - intros index w trackpoint Hnth (Hseg & Hm).
    destruct (@visit_segments (List.length hints) points w index trackpoint
                              Hseg) as (w1 & E1 & Hseg1).
    destruct (@visit_matches hints points index w trackpoint Hnth
                             (seg_codes Hseg) Hm) as (w2 & E2 & _ & Hm2).
    rewrite E1 in E2. injection E2 as <-.
    exists w1. auto.
  - reflexivity.
  - split; [constructor; simpl; auto|].
    exists []. constructor; simpl; auto.
    + constructor.
    + apply incl_refl.
    + intros k i Hk. destruct k; discriminate Hk.
    + intros j tp Hj Hlt. lia.
    + intros j tp Hj Hlt. lia.
  - simpl in Hseg, Hm.
    destruct Hseg as [H1 H2 H3 H4 _].
    destruct Hm as [Hcount Hsorted Hbound Hlast Hincl Hnone Hmatch Hfirst
                      Hothers].
    exists w, cuts. repeat (split; [assumption|]).
    split.
    { intros j tp Hj. apply (Hothers j tp Hj).
      apply nth_error_Some. congruence. }
    split; [exact H4|].
    rewrite H4, Hlast. apply firstn_skipn.
Qed.

(** C7 (as amended).  With distances that are not negative, the emitted
    CodeWaypoints are in non-decreasing order of [distance_from_start]:
    each later one has an accumulated distance at least that of every
    earlier one. *)
Theorem walk_distances_non_decreasing hints points :
  (forall a b, 0 <= distance_float a b) ->
  hints_have_codes hints ->
  exists w,
    walk hints points = Ok w /\
    StronglySorted Qle (List.map distance_from_start (code_waypoints w)).
Proof.
  intros Hd H. destruct (walk_distance_inv points Hd H) as (w & E & [H1 _ _]).
  exists w. auto.
Qed.

(** What [import_data] returns is what the walk has emitted. *)
Lemma import_data_code_waypoints self waypoints points self' emitted :
  import_data unicode_lower unidecode_table countries reverse distance_float
              fallback_town self waypoints points = Ok (self', emitted) ->
  exists hints w,
    Brouter.resolve_waypoints unicode_lower unidecode_table countries reverse
                              fallback_town self [] waypoints
    = Ok (self', hints) /\
    walk hints points = Ok w /\ emitted = code_waypoints w.
Proof.
  unfold import_data. intros H.
  destruct (Brouter.resolve_waypoints _ _ _ _ _ _ _ _) as [[s h]|e];
    [|discriminate H].
  simpl in H.
  destruct (Brouter.walk distance_float h points) as [w|e] eqn:E;
    [|discriminate H].
  simpl in H. injection H as <- <-. exists h, w. auto.
Qed.

(** *** Binding a waypoint to a station of the catalog *)

(** A waypoint bound to a catalog Station that lacks a Location: a copy
    of the record with the waypoint's Location attached is appended to
    the stations list, after the record it copies, and is what the
    waypoint is mapped to; the name leaves the lookup table.  Nothing is
    taken from the stations list. *)
Lemma resolve_waypoint_enriches self hints waypoint possible_stations groups
    name station :
  possible_stations_of waypoint = Some possible_stations ->
  comprehension group_from_photon_response possible_stations = Ok groups ->
  first_name_in (possible_station_names possible_stations)
                (name_to_station self) = Some (name, station) ->
  location station = None ->
  resolve_waypoint self hints waypoint =
  Ok ({| stations := stations self ++ [with_location station waypoint];
         name_to_station := pop str_eqb (name_to_station self) name |},
      set Location_eqb hints waypoint (with_location station waypoint)).
Proof.
  intros Hp Hg Hn Hl. unfold Brouter.resolve_waypoint.
  change (Brouter.possible_stations_of reverse fallback_town)
    with possible_stations_of.
  change (Brouter.possible_station_names unicode_lower unidecode_table)
    with possible_station_names.
  rewrite Hp, Hg. cbn [bind]. rewrite Hn, Hl. reflexivity.
Qed.

End BrouterProps.

(** *** The importer on a geocoder that knows one station *)

Section Neustadt.
Import Py Stations Routes Brouter Scenario.

Lemma flat_distance_nonneg a b : 0 <= flat_distance a b.
Proof.
  unfold flat_distance.
  pose proof (Qabs_nonneg (latitude a - latitude b)).
  pose proof (Qabs_nonneg (longitude a - longitude b)).
  lra.
Qed.

(** C5.  Two waypoints near the same place, which no name of the catalog
    matches: each pass makes a station of the place, and the stations
    list ends with two records of one code. *)
Theorem resolve_waypoints_same_place_twice :
  exists hints,
    resolve_waypoints (init []) [] [at_ 50 8; at_ (50001 # 1000) 8] =
    Ok ({| stations := [neustadt_osm; neustadt_osm]; name_to_station := [] |},
        hints)
    /\ ~ NoDup (List.map codes [neustadt_osm; neustadt_osm]).
Proof.
  eexists. split; [reflexivity|].
  intros H. inversion H as [|? ? Hn _]. apply Hn. now left.
Qed.

(** The same happens to a catalog station that is given a location: the
    two records share the code "NEU". *)
Example resolve_waypoints_enriched_twin :
  exists hints,
    resolve_waypoints (init [neustadt]) [] [at_ 50 8] =
    Ok ({| stations := [neustadt; Brouter.with_location neustadt (at_ 50 8)];
           name_to_station := [] |}, hints)
    /\ codes (Brouter.with_location neustadt (at_ 50 8)) = codes neustadt.
Proof. eexists. split; reflexivity. Qed.

(** C8.  The catalog holds "Neustadt" without a Location, and the
    waypoint is bound to it.  The replacement record, equal to the old one
    but for the waypoint's Location, is appended to the stations list; the
    old record is not removed from it, and the list ends with two records
    of the one code "NEU". *)
Theorem resolve_waypoint_keeps_old_record :
  let replacement :=
    {| name := lit "Neustadt";
       number := 8000001;
       codes := [lit "NEU"];
       location := Some (at_ 50 8);
       Stations.kind := None;
       _group := Some 2%Z;
       locations_path := None |} in
  location neustadt = None /\
  Brouter.resolve_waypoint NameNormalizer.lower_caseless
    NameNormalizer.unidecode_excerpt countries reverse_neustadt false
    (init [neustadt]) [] (at_ 50 8) =
  Ok ({| stations := [neustadt; replacement]; name_to_station := [] |},
      [(at_ 50 8, replacement)]) /\
  In neustadt [neustadt; replacement] /\
  neustadt <> replacement /\
  ~ NoDup (List.map codes [neustadt; replacement]).
Proof.
  split; [reflexivity|]. split; [reflexivity|]. split; [now left|].
  split; [discriminate|].
  intros H. inversion H as [|? ? Hn _]. apply Hn. now left.
Qed.

(** The scenario of the spec: three points and one hint exactly at the
    first, which gives a single CodeWaypoint at distance 0 that is a stop. *)
Example walk_hint_at_first_point :
  exists w,
    walk [(at_ 0 0, stop "A")] [at_ 0 0; at_ 0 1; at_ 0 2] = Ok w /\
    code_waypoints w =
    [{| distance_from_start := 0; code := lit "A"; is_stop := true;
        next_route_number := Some 0%Z |}].
Proof. eexists. split; reflexivity. Qed.

(** C6 (as stated) fails: one hint, matched at the second of three
    points, leaves one segment, not two; the segment is the leading
    point, and the two points from the match on are in no segment. *)
Lemma walk_one_match_one_segment :
  exists w,
    walk [(at_ 0 1, stop "A")] [at_ 0 0; at_ 0 1; at_ 0 2] = Ok w /\
    List.length (code_waypoints w) = 1%nat /\
    waypoint_location_to_station_location w = [] /\
    track_paths w = [([at_ 0 0], stop "A")] /\
    List.length (track_paths w) <> (1 + 1)%nat.
Proof.
  eexists. split; [reflexivity|]. simpl. repeat split. discriminate.
Qed.

(** The same trace and hint satisfy the condition of C6 as amended. *)
Lemma walk_track_paths_count_witness :
  let hints := [(at_ 0 1, stop "A")] in
  let points := [at_ 0 0; at_ 0 1; at_ 0 2] in
  hints_have_codes hints /\
  exists w cuts,
    walk hints points = Ok w /\
    List.length (track_paths w) = List.length (code_waypoints w) /\
    (List.length (track_paths w)
     + List.length (waypoint_location_to_station_location w)
     = List.length hints)%nat /\
    List.length cuts = List.length (track_paths w) /\
    StronglySorted lt cuts /\
    last_stop_index w = last cuts 0%nat /\
    (forall k i, nth_error cuts k = Some i ->
       exists trackpoint location station,
         nth_error points i = Some trackpoint /\
         In (location, station) hints /\
         Qlt_bool (flat_distance location trackpoint) (8 # 100) = true /\
         nth_error (track_paths w) k
         = Some (slice points (cut_before cuts k) i, station)) /\
    (forall j trackpoint,
       nth_error points j = Some trackpoint ->
       (j < hd (List.length points) cuts)%nat ->
       near flat_distance hints trackpoint = false) /\
    (forall j trackpoint,
       nth_error points j = Some trackpoint -> ~ In j cuts ->
       near flat_distance (waypoint_location_to_station_location w) trackpoint
       = false) /\
    List.concat (List.map fst (track_paths w))
    = firstn (last_stop_index w) points /\
    List.concat (List.map fst (track_paths w)) ++ skipn (last cuts 0%nat) points
    = points.
Proof.
  intros hints points.
  assert (H : hints_have_codes hints).
  { repeat constructor. simpl. discriminate. }
  split; [exact H|].
  exact (walk_track_paths_count flat_distance points H).
Defined.

(** On that trace the cut is at index 1: the segment is the leading
    point, and the matched point and the one after it are in none. *)
Example walk_cut_at_second_point :
  exists w,
    walk [(at_ 0 1, stop "A")] [at_ 0 0; at_ 0 1; at_ 0 2] = Ok w /\
    last_stop_index w = 1%nat /\
    track_paths w = [(slice [at_ 0 0; at_ 0 1; at_ 0 2] 0 1, stop "A")] /\
    slice [at_ 0 0; at_ 0 1; at_ 0 2] 0 1 = [at_ 0 0] /\
    skipn 1 [at_ 0 0; at_ 0 1; at_ 0 2] = [at_ 0 1; at_ 0 2].
Proof. eexists. repeat split. Qed.

(** C7 (as stated) fails: a trace that repeats its first point, with two
    hints near it, emits two CodeWaypoints at distance 0. *)
Lemma walk_distances_not_strict :
  exists w,
    walk [(at_ 0 0, stop "A"); (at_ 0 (1 # 10000), stop "B")]
         [at_ 0 0; at_ 0 0; at_ 0 1] = Ok w /\
    List.map distance_from_start (code_waypoints w) = [0; 0] /\
    ~ StronglySorted Qlt (List.map distance_from_start (code_waypoints w)).
Proof.
  eexists. split; [reflexivity|]. split; [reflexivity|].
  simpl. intros H. inversion H as [|? ? _ Hlt]; subst.
  inversion Hlt as [|? ? H0 _]; subst. discriminate H0.
Qed.

(** The same trace and hints, with the distance of the examples, satisfy
    the conditions of C7 as amended. *)
Lemma walk_distances_non_decreasing_witness :
  let hints := [(at_ 0 0, stop "A"); (at_ 0 (1 # 10000), stop "B")] in
  let points := [at_ 0 0; at_ 0 0; at_ 0 1] in
  (forall a b, 0 <= flat_distance a b) /\
  hints_have_codes hints /\
  exists w,
    walk hints points = Ok w /\
    StronglySorted Qle (List.map distance_from_start (code_waypoints w)).
Proof.
  intros hints points.
  assert (H : hints_have_codes hints).
  { repeat constructor; simpl; discriminate. }
  split; [exact flat_distance_nonneg|]. split; [exact H|].
  exact (walk_distances_non_decreasing flat_distance points
                                        flat_distance_nonneg H).
Defined.

End Neustadt.

(** ** More on the assembler: what a caller can rely on *)

Section AssemblerProps.
Import Py Stations Routes Statistics Trassenfinder.

Variable UNKNOWN : Z.
Variable iter_stations_by_codes_reverse : list Station -> list (str * Station).

Local Abbreviation tracks_between := (tracks_between UNKNOWN).
Local Abbreviation for_each_pair := (for_each_pair UNKNOWN).
Local Abbreviation codes_to_station_of :=
  (codes_to_station_of iter_stations_by_codes_reverse).
Local Abbreviation convert_waypoints_to_route :=
  (convert_waypoints_to_route UNKNOWN iter_stations_by_codes_reverse).

(** *** The mapping from route number to Path *)

Lemma get_set_Z (V : Type) (d : dict Z V) k v k' :
  get Z.eqb (set Z.eqb d k v) k' = if Z.eqb k k' then Some v else get Z.eqb d k'.
Proof.
  induction d as [|[k1 v1] d IH]; simpl; [reflexivity|].
  destruct (Z.eqb k1 k) eqn:E; simpl.
  - apply Z.eqb_eq in E. subst k1. destruct (Z.eqb k k'); reflexivity.
  - rewrite IH. destruct (Z.eqb k1 k') eqn:E1; [|reflexivity].
    apply Z.eqb_eq in E1. subst k1. rewrite Z.eqb_sym, E. reflexivity.
Qed.

Lemma find_append (A : Type) (f : A -> bool) l1 l2 :
  find f (l1 ++ l2) =
  match find f l1 with
  | Some x => Some x
  | None => find f l2
  end.
Proof.
  induction l1 as [|x l1 IH]; simpl; [reflexivity|].
  destruct (f x); [reflexivity | exact IH].
Qed.

Lemma get_fold_set_Z (paths : list Path) (d : dict Z Path) n :
  get Z.eqb
      (fold_left (fun d kv => set Z.eqb d (fst kv) (snd kv))
                 (List.map (fun path => (route_numer path, path)) paths) d) n =
  match find (fun path => Z.eqb (route_numer path) n) (rev paths) with
  | Some path => Some path
  | None => get Z.eqb d n
  end.
Proof.
  revert d. induction paths as [|p paths IH]; intros d; simpl; [reflexivity|].
  rewrite IH, find_append.
  destruct (find _ (rev paths)); [reflexivity|].
  simpl. rewrite get_set_Z. destruct (Z.eqb (route_numer p) n); reflexivity.
Qed.

(** X1.  The Path used for a route number is the last Path of the catalog
    with that number; a number that no Path has is not in the mapping. *)
Theorem route_number_to_path_last path_data n :
  get Z.eqb (route_number_to_path_of path_data) n =
  find (fun path => Z.eqb (route_numer path) n) (rev path_data).
Proof.
  unfold route_number_to_path_of, of_items. rewrite get_fold_set_Z.
  destruct (find _ (rev path_data)); reflexivity.
Qed.

(** *** [median_high] *)

Lemma insert_In (A : Type) (leb : A -> A -> bool) x y l :
  In y (insert leb x l) <-> y = x \/ In y l.
Proof.
  induction l as [|z l IH]; simpl; [intuition congruence|].
  destruct (leb x z); simpl; [intuition congruence|].
  rewrite IH. intuition congruence.
Qed.

Lemma sorted_In (A : Type) (leb : A -> A -> bool) y data :
  In y (sorted leb data) <-> In y data.
Proof.
  induction data as [|x l IH]; simpl; [tauto|].
  unfold sorted in IH. rewrite insert_In, IH. intuition congruence.
Qed.

Lemma median_high_In (A : Type) (leb : A -> A -> bool) data x :
  median_high leb data = Ok x -> In x data.
Proof.
  unfold median_high.
  destruct (sorted leb data) as [|y l] eqn:E; [discriminate|].
  intros H.
  assert (Hx : nth (List.length (y :: l) / 2) (y :: l) y = x)
    by (injection H; trivial).
  rewrite <- Hx. apply (sorted_In leb). rewrite E. apply nth_In.
  apply Nat.div_lt; simpl; lia.
Qed.

Lemma median_high_raise (A : Type) (leb : A -> A -> bool) data e :
  median_high leb data = Raise e -> e = StatisticsError /\ data = [].
Proof.
  unfold median_high.
  destruct (sorted leb data) as [|y l] eqn:E; [|discriminate].
  intros [= <-]. split; [reflexivity|]. apply length_zero_iff_nil.
  now rewrite <- (sorted_length leb), E.
Qed.

(** X2.  [median_high] returns one of the items it is given; it raises,
    [StatisticsError], exactly on empty data. *)
Theorem median_high_member (A : Type) (leb : A -> A -> bool) data :
  match median_high leb data with
  | Ok x => In x data
  | Raise e => e = StatisticsError /\ data = []
  end.
Proof.
  destruct (median_high leb data) as [x|e] eqn:E.
  - now apply median_high_In in E.
  - now apply median_high_raise in E.
Qed.

Lemma insert_bool x a b :
  insert implb x (repeat false a ++ repeat true b) =
  if x then repeat false a ++ repeat true (S b)
  else repeat false (S a) ++ repeat true b.
Proof.
  destruct x.
  - induction a as [|a IH]; simpl.
    + destruct b; reflexivity.
    + now rewrite IH.
  - destruct a; simpl; [destruct b|]; reflexivity.
Qed.

Lemma sorted_bool data :
  sorted implb data =
  repeat false (List.length (filter negb data))
  ++ repeat true (List.length (filter (fun b => b) data)).
Proof.
  induction data as [|x l IH]; [reflexivity|].
  change (sorted implb (x :: l)) with (insert implb x (sorted implb l)).
  rewrite IH, insert_bool. destruct x; reflexivity.
Qed.

Lemma nth_falses_trues a b i d :
  (i < a + b)%nat ->
  nth i (repeat false a ++ repeat true b) d = (a <=? i)%nat.
Proof.
  intros H. destruct (Nat.leb_spec a i) as [Hle | Hlt].
  - rewrite app_nth2; rewrite repeat_length; [|lia].
    apply nth_repeat_lt. lia.
  - rewrite app_nth1 by (rewrite repeat_length; lia).
    apply nth_repeat_lt. lia.
Qed.

(** The high median of truth values is a vote: true when there are at
    least as many true as false. *)
Lemma median_high_bool data :
  data <> [] ->
  median_high implb data =
  Ok (List.length (filter negb data)
      <=? List.length (filter (fun b => b) data))%nat.
Proof.
  intros H. unfold median_high.
  rewrite (sorted_length implb), sorted_bool.
  assert (Hn : List.length data =
               (List.length (filter negb data)
                + List.length (filter (fun b => b) data))%nat).
  { clear H. induction data as [|[|] l IH]; simpl; lia. }
  assert (Hpos : (0 < List.length data)%nat).
  { destruct data; [now elim H | simpl; lia]. }
  revert Hn Hpos.
  generalize (List.length (filter negb data)).
  generalize (List.length (filter (fun b => b) data)).
  generalize (List.length data).
  intros n b a -> Hpos.
  destruct (repeat false a ++ repeat true b) as [|x l] eqn:E.
  { apply (f_equal (@List.length bool)) in E.
    rewrite length_app, !repeat_length in E. simpl in E. lia. }
  rewrite <- E. f_equal. rewrite nth_falses_trues.
  - destruct (Nat.leb_spec a ((a + b) / 2)) as [H1 | H1];
      destruct (Nat.leb_spec a b) as [H2 | H2]; try reflexivity; exfalso.
    + pose proof (Nat.Div0.mul_div_le (a + b) 2). lia.
    + pose proof (Nat.mul_succ_div_gt (a + b) 2). lia.
  - apply Nat.div_lt; lia.
Qed.

(** *** The fallback Track *)

(** X3.  [track_from_path] raises in one case only: no last known segment
    and a route number whose Path has no Track; the exception is that of
    [median_high]. *)
Theorem track_from_path_raises n last to_km path_data c1 c2 e :
  track_from_path n last to_km path_data c1 c2 = Raise e <->
  e = StatisticsError /\ last = None /\
  exists path, get Z.eqb path_data n = Some path /\ tracks path = [].
Proof.
  unfold track_from_path. split.
  - destruct last as [last|]; [discriminate|].
    destruct (get Z.eqb path_data n) as [path|]; [|discriminate].
    destruct (median_high implb _) as [b|e1] eqn:He.
    + destruct (median_high Z.leb _) as [k|e2] eqn:Hk; [discriminate|].
      simpl. intros [= <-]. apply median_high_raise in Hk.
      destruct Hk as [-> Hk]. apply map_eq_nil in Hk. eauto.
    + simpl. intros [= <-]. apply median_high_raise in He.
      destruct He as [-> He]. apply map_eq_nil in He. eauto.
  - intros (-> & -> & path & Hp & Ht). rewrite Hp, Ht. reflexivity.
Qed.

Lemma track_from_path_vote n to_km path_data path c1 c2 track :
  get Z.eqb path_data n = Some path ->
  track_from_path n None to_km path_data c1 c2 = Ok track ->
  electrified track =
    (List.length (filter (fun t => negb (electrified t)) (tracks path))
     <=? List.length (filter electrified (tracks path)))%nat /\
  In (kind track) (List.map kind (tracks path)) /\
  Routes.route_number track = Some n /\
  length track = 0 /\ from_km track = None /\ Routes.to_km track = to_km.
Proof.
  intros Hp. unfold track_from_path. rewrite Hp.
  destruct (tracks path) as [|t ts] eqn:Ht; [discriminate|].
  rewrite <- Ht.
  assert (Hne : List.map electrified (tracks path) <> [])
    by (rewrite Ht; discriminate).
  rewrite (median_high_bool Hne).
  destruct (median_high Z.leb _) as [k|e] eqn:Hk; [|discriminate].
  apply median_high_In in Hk.
  simpl. intros [= <-]. simpl. repeat split; [|exact Hk].
  f_equal.
  - clear. induction (tracks path) as [|x l IH]; simpl; [reflexivity|].
    destruct (electrified x); simpl; now rewrite IH.
  - clear. induction (tracks path) as [|x l IH]; simpl; [reflexivity|].
    destruct (electrified x); simpl; now rewrite IH.
Qed.

(** X4.  Without a last known segment, [track_from_path] on a route whose
    Path has a Track returns a Track that is electrified when at least as
    many Tracks of the Path are electrified as are not, and whose kind is
    the kind of one of them; it has length 0, no [from_km], and the
    [to_km] it is given. *)
Theorem track_from_path_majority n to_km path_data path c1 c2 :
  get Z.eqb path_data n = Some path ->
  tracks path <> [] ->
  exists track,
    track_from_path n None to_km path_data c1 c2 = Ok track /\
    electrified track =
      (List.length (filter (fun t => negb (electrified t)) (tracks path))
       <=? List.length (filter electrified (tracks path)))%nat /\
    In (kind track) (List.map kind (tracks path)) /\
    Routes.route_number track = Some n /\
    length track = 0 /\ from_km track = None /\ Routes.to_km track = to_km.
Proof.
  intros Hp Hne.
  edestruct track_from_path_ok as [track Ht].
  { intros path' Hp'. rewrite Hp in Hp'. injection Hp' as <-. exact Hne. }
  exists track. split; [exact Ht|].
  eapply track_from_path_vote; eassumption.
Qed.

(** *** Hops *)

(** X5.  Whenever the assembler returns, the Route holds the waypoints it
    was given, unchanged, and one tuple less than there are waypoints
    (none for an empty list). *)
Theorem convert_waypoints_to_route_hop_count waypoints station_data path_data
    route :
  convert_waypoints_to_route waypoints station_data path_data = Ok route ->
  Routes.waypoints route = waypoints /\
  List.length (tracks_used route) = Nat.pred (List.length waypoints).
Proof.
  intros H. unfold Trassenfinder.convert_waypoints_to_route in H.
  destruct (Trassenfinder.for_each_pair _ _ _ _ _) as [r|e] eqn:E;
    [|discriminate H].
  simpl in H. injection H as <-. split; [reflexivity|].
  apply for_each_pair_length in E. cbn [tracks_used].
  rewrite E, length_combine.
  destruct waypoints as [|w ws]; [reflexivity|].
  cbn [tl List.length]. lia.
Qed.

(** When every pair is given its tuple by [g], the loop returns the
    tuples in the order of the pairs. *)
Lemma for_each_pair_map cts rtp (g : CodeWaypoint * CodeWaypoint -> list Track)
    pairs acc :
  Forall (fun p => tracks_between cts rtp (fst p) (snd p) = Ok (g p)) pairs ->
  for_each_pair cts rtp pairs acc = Ok (acc ++ List.map g pairs).
Proof.
  intros H. revert acc.
  induction H as [|[w w'] rest Hp _ IH]; intros acc; simpl.
  - now rewrite app_nil_r.
  - simpl in Hp.
    change (Trassenfinder.tracks_between UNKNOWN) with tracks_between.
    rewrite Hp. simpl. rewrite IH, <- app_assoc. reflexivity.
Qed.

(** A hop from a waypoint without a route number, between resolved
    codes. *)
Lemma tracks_between_no_route cts rtp w w' :
  resolves cts w -> resolves cts w' ->
  next_route_number w = None \/ next_route_number w = Some 0%Z ->
  tracks_between cts rtp w w' = Ok [invalid_track UNKNOWN (next_route_number w)].
Proof.
  unfold resolves. intros R R' Hn.
  destruct (get str_eqb cts (code w)) as [s|] eqn:Es; [|now elim R].
  destruct (get str_eqb cts (code w')) as [s'|] eqn:Es'; [|now elim R'].
  eapply tracks_between_invalid; eauto.
  destruct Hn as [-> | ->]; [exact I | now left].
Qed.

(** X6.  Waypoints without a route number for the next hop, [None] or 0
    as [BrouterImporterNew] writes it: if their codes resolve, the
    assembler returns, whatever the path catalog holds, and every hop is
    the one placeholder of [invalid_track] carrying the waypoint's route
    number. *)
Theorem convert_waypoints_to_route_placeholders waypoints station_data
    path_data :
  Forall (resolves (codes_to_station_of station_data)) waypoints ->
  Forall (fun w => next_route_number w = None \/
                   next_route_number w = Some 0%Z) waypoints ->
  convert_waypoints_to_route waypoints station_data path_data =
  Ok {| waypoints := waypoints;
        tracks_used :=
          List.map (fun p => [invalid_track UNKNOWN (next_route_number (fst p))])
                   (combine waypoints (tl waypoints)) |}.
Proof.
  intros Hr Hn. unfold Trassenfinder.convert_waypoints_to_route.
  change (Trassenfinder.for_each_pair UNKNOWN) with for_each_pair.
  rewrite for_each_pair_map
    with (g := fun p => [invalid_track UNKNOWN (next_route_number (fst p))]);
    [reflexivity|].
  apply Forall_forall. intros [w w'] Hin. simpl.
  rewrite Forall_forall in Hr, Hn.
  assert (Hw : In w waypoints) by (eapply in_combine_l; eassumption).
  assert (Hw' : In w' waypoints).
  { apply in_combine_r in Hin. destruct waypoints; [contradiction | now right]. }
  apply tracks_between_no_route; auto.
Qed.

(** X21.  A Route for two or more waypoints is returned only if every
    waypoint's code has an entry in the station catalog: one unknown code
    anywhere in the list and the assembler raises. *)
Theorem convert_waypoints_to_route_needs_codes waypoints station_data
    path_data route :
  (2 <= List.length waypoints)%nat ->
  convert_waypoints_to_route waypoints station_data path_data = Ok route ->
  Forall (resolves (codes_to_station_of station_data)) waypoints.
Proof.
  intros Hlen Hok. apply Forall_forall. intros w Hin.
  destruct (get str_eqb (codes_to_station_of station_data) (code w))
    as [s|] eqn:E.
  - unfold resolves. rewrite E. discriminate.
  - assert (Hw : ~ resolves (codes_to_station_of station_data) w).
    { unfold resolves. rewrite E. intros H. now apply H. }
    destruct (@convert_waypoints_to_route_unresolved
                UNKNOWN iter_stations_by_codes_reverse waypoints station_data
                path_data w Hin Hlen Hw) as [e He].
    change (Trassenfinder.convert_waypoints_to_route UNKNOWN
              iter_stations_by_codes_reverse) with convert_waypoints_to_route
      in He.
    congruence.
Qed.

Lemma min_swap a b : Trassenfinder.min a b == Trassenfinder.min b a.
Proof.
  unfold Trassenfinder.min, Qlt_bool.
  destruct (Qle_bool a b) eqn:E1; destruct (Qle_bool b a) eqn:E2; simpl;
    try reflexivity.
  - apply Qle_bool_iff in E1, E2. now apply Qle_antisym.
  - assert (H : ~ a <= b) by (rewrite <- Qle_bool_iff; congruence).
    assert (H' : ~ b <= a) by (rewrite <- Qle_bool_iff; congruence).
    apply Qnot_le_lt in H. elim H'. now apply Qlt_le_weak.
Qed.

Lemma max_swap a b : Trassenfinder.max a b == Trassenfinder.max b a.
Proof.
  unfold Trassenfinder.max, Qlt_bool.
  destruct (Qle_bool a b) eqn:E1; destruct (Qle_bool b a) eqn:E2; simpl;
    try reflexivity.
  - apply Qle_bool_iff in E1, E2. now apply Qle_antisym.
  - assert (H : ~ a <= b) by (rewrite <- Qle_bool_iff; congruence).
    assert (H' : ~ b <= a) by (rewrite <- Qle_bool_iff; congruence).
    apply Qnot_le_lt in H. elim H'. now apply Qlt_le_weak.
Qed.

Lemma bound_in_range_equal s e s' e' t :
  s == s' -> e == e' -> bound_in_range s e t = bound_in_range s' e' t.
Proof.
  intros Hs He. unfold bound_in_range.
  destruct (from_km t) as [a|]; [|reflexivity].
  destruct (Routes.to_km t) as [b|]; [|reflexivity].
  now rewrite Hs, He.
Qed.

(** X7.  Where both stations have a kilometre position on the route, the
    direction of travel does not matter: the hop from one station to the
    other and the hop back get the same Tracks. *)
Theorem tracks_between_by_km_symmetric cts rtp w w' s s' n path km r km' r' :
  get str_eqb cts (code w) = Some s ->
  get str_eqb cts (code w') = Some s' ->
  next_route_number w = Some n -> next_route_number w' = Some n ->
  n <> 0%Z ->
  get Z.eqb rtp n = Some path ->
  km_on_route (locations_path s) n = km :: r ->
  km_on_route (locations_path s') n = km' :: r' ->
  Forall has_bounds (tracks path) ->
  tracks_between cts rtp w w' = tracks_between cts rtp w' w.
Proof.
  intros Hs Hs' Hn Hn' Hn0 Hp Hkm Hkm' Hb.
  rewrite (@tracks_between_by_km UNKNOWN cts rtp w w' s s' n path km r km' r')
    by assumption.
  rewrite (@tracks_between_by_km UNKNOWN cts rtp w' w s' s n path km' r' km r)
    by assumption.
  f_equal. apply filter_ext. intros t.
  apply bound_in_range_equal; [apply min_swap | apply max_swap].
Qed.

Lemma min_le_max a b : Trassenfinder.min a b <= Trassenfinder.max a b.
Proof.
  unfold Trassenfinder.min, Trassenfinder.max, Qlt_bool.
  destruct (Qle_bool a b) eqn:E1; destruct (Qle_bool b a) eqn:E2; simpl;
    try apply Qle_refl.
  - now apply Qle_bool_iff.
  - now apply Qle_bool_iff.
Qed.

(** X8.  Where both stations have a kilometre position on the route, the
    tuple of the hop is a selection from the Tracks of the route's Path,
    in the order of the Path; with bounds in order on every Track, each
    selected Track overlaps the range between the two stations. *)
Theorem tracks_between_by_km_sound cts rtp w w' s s' n path km r km' r' :
  get str_eqb cts (code w) = Some s ->
  get str_eqb cts (code w') = Some s' ->
  next_route_number w = Some n -> n <> 0%Z ->
  get Z.eqb rtp n = Some path ->
  km_on_route (locations_path s) n = km :: r ->
  km_on_route (locations_path s') n = km' :: r' ->
  Forall has_bounds (tracks path) ->
  (forall t a b, In t (tracks path) ->
                 from_km t = Some a -> Routes.to_km t = Some b -> a <= b) ->
  exists keep ts,
    tracks_between cts rtp w w' = Ok ts /\
    ts = filter keep (tracks path) /\
    Forall (fun t => In t (tracks path) /\
                     overlaps (Trassenfinder.min km km')
                              (Trassenfinder.max km km') t) ts.
Proof.
  intros Hs Hs' Hn Hn0 Hp Hkm Hkm' Hb Hord.
  exists (bound_in_range (Trassenfinder.min km km') (Trassenfinder.max km km')).
  eexists. split; [eapply tracks_between_by_km; eauto|].
  split; [reflexivity|].
  apply Forall_forall. intros t Ht. apply filter_In in Ht.
  destruct Ht as [Hin Hsel]. split; [exact Hin|].
  rewrite Forall_forall in Hb. destruct (Hb t Hin) as [Ha Hb'].
  destruct (from_km t) as [a|] eqn:Ea; [|now elim Ha].
  destruct (Routes.to_km t) as [b|] eqn:Eb; [|now elim Hb'].
  eapply bound_in_range_overlaps; eauto.
Qed.

(** X9.  A hop on a route of the catalog for which a kilometre position
    is missing gets exactly one Track, whatever the hops before it have
    resolved: of length 0 and without [from_km], electrified by the vote
    over the route's Path, ending at the next station's position when
    both stations have path locations and the next one is on the route. *)
Theorem tracks_between_fallback_track cts rtp w w' s s' n path :
  get str_eqb cts (code w) = Some s ->
  get str_eqb cts (code w') = Some s' ->
  next_route_number w = Some n -> n <> 0%Z ->
  get Z.eqb rtp n = Some path ->
  tracks path <> [] ->
  km_on_route (locations_path s) n = [] \/
  km_on_route (locations_path s') n = [] ->
  exists track,
    tracks_between cts rtp w w' = Ok [track] /\
    Routes.route_number track = Some n /\
    length track = 0 /\
    from_km track = None /\
    Routes.to_km track =
      (if truthy (locations_path s) && truthy (locations_path s')
       then hd_error (km_on_route (locations_path s') n) else None) /\
    electrified track =
      (List.length (filter (fun t => negb (electrified t)) (tracks path))
       <=? List.length (filter electrified (tracks path)))%nat.
Proof.
  intros Hs Hs' Hn Hn0 Hp Hne Hkm.
  erewrite tracks_between_fallback by eauto.
  edestruct track_from_path_ok as [track Ht].
  { intros path' Hp'. rewrite Hp in Hp'. injection Hp' as <-. exact Hne. }
  rewrite Ht. exists track. split; [reflexivity|].
  destruct (track_from_path_vote _ _ _ _ _ Hp Ht)
    as (He & _ & Hr & Hl & Hf & Hto).
  auto.
Qed.

(** *** Which lists give a Route *)






End AssemblerProps.

(** ** More on the importer: what a caller can rely on *)

Section DictMore.
Import Py Measures.
Variables (K V : Type) (eqb : K -> K -> bool).

Lemma set_In (d : dict K V) k v k' v' :
  In (k', v') (set eqb d k v) -> v' = v \/ In (k', v') d.
Proof.
  induction d as [|[k1 v1] d IH]; simpl.
  - intros [[= _ <-] | []]. now left.
  - destruct (eqb k1 k); simpl.
    + intros [[= _ <-] | H]; [now left | right; now right].
    + intros [H | H]; [right; now left|].
      destruct (IH H); [now left | right; now right].
Qed.

Lemma get_In (d : dict K V) k v :
  get eqb d k = Some v -> exists k', In (k', v) d.
Proof.
  induction d as [|[k1 v1] d IH]; simpl; [discriminate|].
  destruct (eqb k1 k).
  - intros [= <-]. exists k1. now left.
  - intros H. destruct (IH H) as [k' Hk]. exists k'. now right.
Qed.

Lemma get_pop_none (d : dict K V) k k' :
  get eqb d k' = None -> get eqb (pop eqb d k) k' = None.
Proof.
  induction d as [|[k1 v1] d IH]; simpl; [reflexivity|].
  destruct (eqb k1 k') eqn:E; [discriminate|].
  intros H. destruct (eqb k1 k); simpl; [exact H|].
  rewrite E. now apply IH.
Qed.

Hypothesis eqb_eq : forall a b, eqb a b = true <-> a = b.

Lemma get_none_keys (d : dict K V) k :
  ~ In k (List.map fst d) -> get eqb d k = None.
Proof.
  induction d as [|[k1 v1] d IH]; simpl; [reflexivity|].
  intros H. destruct (eqb k1 k) eqn:E.
  - apply eqb_eq in E. elim H. now left.
  - apply IH. intros Hin. apply H. now right.
Qed.

Lemma pop_keys_incl (d : dict K V) k : incl (List.map fst (pop eqb d k)) (List.map fst d).
Proof.
  intros x H. apply in_map_iff in H. destruct H as ([k1 v1] & <- & H).
  apply in_map_iff. exists (k1, v1). split; [reflexivity|].
  now apply (pop_incl eqb d k).
Qed.

Lemma pop_keys_unique (d : dict K V) k :
  keys_unique d -> keys_unique (pop eqb d k).
Proof.
  unfold keys_unique. induction d as [|[k1 v1] d IH]; simpl; [auto|].
  intros H. inversion H as [|? ? Hn Hd]; subst.
  destruct (eqb k1 k); [exact Hd|]. simpl. constructor; [|now apply IH].
  intros Hin. apply Hn. now apply (pop_keys_incl d k).
Qed.

(** On a table without a repeated key, a popped key is gone. *)
Lemma get_pop_same (d : dict K V) k :
  keys_unique d -> get eqb (pop eqb d k) k = None.
Proof.
  unfold keys_unique. induction d as [|[k1 v1] d IH]; simpl; [reflexivity|].
  intros H. inversion H as [|? ? Hn Hd]; subst.
  destruct (eqb k1 k) eqn:E.
  - apply eqb_eq in E. subst k1. now apply get_none_keys.
  - simpl. rewrite E. now apply IH.
Qed.

Lemma set_keys (d : dict K V) k v :
  List.map fst (set eqb d k v) = List.map fst d \/
  (List.map fst (set eqb d k v) = List.map fst d ++ [k] /\
   ~ In k (List.map fst d)).
Proof.
  induction d as [|[k1 v1] d IH]; simpl.
  - right. split; [reflexivity | tauto].
  - destruct (eqb k1 k) eqn:E; simpl; [now left|].
    destruct IH as [-> | [-> Hn]]; [now left|].
    right. split; [reflexivity|].
    intros [H | H]; [|contradiction].
    subst k1. assert (eqb k k = true) by now apply eqb_eq. congruence.
Qed.

Lemma set_keys_unique (d : dict K V) k v :
  keys_unique d -> keys_unique (set eqb d k v).
Proof.
  unfold keys_unique. intros H.
  destruct (set_keys d k v) as [-> | [-> Hn]]; [exact H|].
  apply NoDup_app; [exact H | repeat constructor; tauto|].
  intros x Hx [<- | []]. contradiction.
Qed.

(** A mapping built from pairs has every key once. *)
Lemma of_items_keys_unique (l : list (K * V)) : keys_unique (of_items eqb l).
Proof.
  unfold of_items.
  assert (G : forall d, keys_unique d ->
                        keys_unique (fold_left
                                       (fun d kv => set eqb d (fst kv) (snd kv))
                                       l d)).
  { induction l as [|kv l IH]; intros d Hd; simpl; [exact Hd|].
    apply IH. now apply set_keys_unique. }
  apply G. constructor.
Qed.
End DictMore.

Lemma str_eqb_eq a b : Py.str_eqb a b = true <-> a = b.
Proof.
  revert b. induction a as [|x a IH]; intros [|y b]; simpl;
    try (split; [discriminate | discriminate]); [tauto|].
  rewrite andb_true_iff, N.eqb_eq, IH. split.
  - intros [-> ->]. reflexivity.
  - intros [= -> ->]. auto.
Qed.

Section ImporterProps.
Import Py Stations Routes Brouter Measures.

Variable unicode_lower : str -> str.
Variable unidecode_table : N -> str.
Variable countries : dict str Country.
Variable reverse : Location -> query_string_filter -> option (list Place).
Variable distance_float : Location -> Location -> Q.
Variable fallback_town : bool.

Local Abbreviation resolve_waypoint :=
  (resolve_waypoint unicode_lower unidecode_table countries reverse
                    fallback_town).
Local Abbreviation resolve_waypoints :=
  (resolve_waypoints unicode_lower unidecode_table countries reverse
                     fallback_town).
Local Abbreviation init := (init unicode_lower unidecode_table).
Local Abbreviation visit := (visit distance_float).
Local Abbreviation walk_from := (walk_from distance_float).
Local Abbreviation walk := (walk distance_float).
Local Abbreviation trace_length := (trace_length distance_float).

(** *** The group of a new station *)

Lemma group_in_In g groups : group_in g groups = true <-> In (Some g) groups.
Proof.
  unfold group_in. rewrite existsb_exists. split.
  - intros ([y|] & Hin & H); [|discriminate].
    apply Z.eqb_eq in H. now subst.
  - intros H. exists (Some g). split; [exact H | apply Z.eqb_refl].
Qed.

(** X10.  [largest_group] returns a group of the list, one of 0 to 6, and
    [None] exactly when the list holds none of these; it depends on which
    groups the list holds, not on their order or number. *)
Theorem largest_group_member groups :
  match largest_group groups with
  | Some g => In (Some g) groups /\ (0 <= g <= 6)%Z
  | None => forall g, (0 <= g <= 6)%Z -> ~ In (Some g) groups
  end
  /\ forall groups',
       (forall x, In x groups <-> In x groups') ->
       largest_group groups' = largest_group groups.
Proof.
  split.
  - unfold largest_group.
    repeat match goal with
           | |- context [group_in ?g groups] =>
               let E := fresh "E" in
               destruct (group_in g groups) eqn:E;
               [apply group_in_In in E; split; [exact E | lia] |]
           end.
    intros g Hg Hin. apply group_in_In in Hin.
    assert (g = 0 \/ g = 1 \/ g = 2 \/ g = 3 \/ g = 4 \/ g = 5 \/ g = 6)%Z
      as Hcases by lia.
    repeat (destruct Hcases as [-> | Hcases]; [congruence|]).
    subst g. congruence.
  - intros groups' H.
    assert (G : forall g, group_in g groups' = group_in g groups).
    { intros g. apply eq_true_iff_eq. rewrite !group_in_In. symmetry. apply H. }
    unfold largest_group. now rewrite !G.
Qed.

Lemma existsb_eq_in (A : Type) (f g : A -> bool) l :
  (forall x, In x l -> f x = g x) -> existsb f l = existsb g l.
Proof.
  induction l as [|x l IH]; simpl; [reflexivity|].
  intros H. rewrite (H x) by now left. f_equal. apply IH.
  intros y Hy. apply H. now right.
Qed.

Lemma existsb_never (A : Type) (f : A -> bool) l :
  (forall x, In x l -> f x = false) -> existsb f l = false.
Proof.
  intros H. rewrite (existsb_eq_in f (fun _ => false) l H). clear H.
  induction l as [|x l IH]; simpl; [reflexivity | exact IH].
Qed.

(** What a comprehension returns, and when it raises. *)
Lemma comprehension_Ok (A B : Type) (f : A -> result B) l ys :
  comprehension f l = Ok ys -> Forall2 (fun x y => f x = Ok y) l ys.
Proof.
  revert ys. induction l as [|x l IH]; intros ys; simpl.
  - intros [= <-]. constructor.
  - destruct (f x) as [y|e] eqn:E; [|discriminate].
    destruct (comprehension f l) as [ys'|e]; [|discriminate].
    intros [= <-]. constructor; [exact E | now apply IH].
Qed.

Lemma comprehension_Raise (A B : Type) (f : A -> result B) l e :
  comprehension f l = Raise e -> Exists (fun x => f x = Raise e) l.
Proof.
  induction l as [|x l IH]; simpl; [discriminate|].
  destruct (f x) as [y|e'] eqn:E.
  - destruct (comprehension f l) as [ys'|e'']; [discriminate|].
    intros [= <-]. right. now apply IH.
  - intros [= <-]. now left.
Qed.

Lemma group_from_photon_response_raises p e :
  group_from_photon_response p = Raise e <-> osm_value p = None /\ e = KeyError.
Proof.
  unfold group_from_photon_response, property.
  destruct (osm_value p) as [v|]; cbn [bind]; split.
  - discriminate.
  - intros [H _]. discriminate H.
  - intros [= <-]. auto.
  - intros [_ ->]. reflexivity.
Qed.

(** The groups of the places are computed exactly when every place has an
    ['osm_value']; otherwise the comprehension raises [KeyError]. *)
Lemma groups_raise places e :
  comprehension group_from_photon_response places = Raise e <->
  Exists (fun p => osm_value p = None) places /\ e = KeyError.
Proof.
  split.
  - intros H. apply comprehension_Raise in H.
    apply Exists_exists in H. destruct H as (p & Hin & Hp).
    apply group_from_photon_response_raises in Hp. destruct Hp as [Hv ->].
    split; [|reflexivity]. apply Exists_exists. eauto.
  - intros [H ->].
    destruct (comprehension group_from_photon_response places) as [gs|e] eqn:E.
    + exfalso. apply comprehension_Ok in E.
      apply Exists_exists in H. destruct H as (p & Hin & Hp).
      clear - E Hin Hp. induction E as [|x y l ys Hxy _ IH]; [contradiction|].
      destruct Hin as [-> | Hin]; [|now apply IH].
      unfold group_from_photon_response, property in Hxy.
      rewrite Hp in Hxy. discriminate Hxy.
    + apply comprehension_Raise in E.
      apply Exists_exists in E. destruct E as (p & _ & Hp).
      apply group_from_photon_response_raises in Hp. now destruct Hp as [_ ->].
Qed.

Lemma groups_Ok places groups :
  comprehension group_from_photon_response places = Ok groups ->
  Forall (fun p => osm_value p <> None) places.
Proof.
  intros H. apply comprehension_Ok in H.
  induction H as [|x y l ys Hxy _ IH]; constructor; [|exact IH].
  unfold group_from_photon_response, property in Hxy.
  destruct (osm_value x); [discriminate | discriminate Hxy].
Qed.

Lemma groups_total places :
  Forall (fun p => osm_value p <> None) places ->
  exists groups, comprehension group_from_photon_response places = Ok groups.
Proof.
  intros H.
  destruct (comprehension group_from_photon_response places) as [gs|e] eqn:E;
    [eauto|].
  apply groups_raise in E. destruct E as [E _].
  apply Exists_exists in E. destruct E as (p & Hin & Hp).
  rewrite Forall_forall in H. now elim (H p Hin).
Qed.

Lemma group_in_groups g places groups :
  comprehension group_from_photon_response places = Ok groups ->
  group_in g groups =
  existsb (fun p => match group_from_photon_response p with
                    | Ok (Some y) => Z.eqb y g
                    | _ => false
                    end) places.
Proof.
  intros H. apply comprehension_Ok in H. unfold group_in.
  induction H as [|x y l ys Hxy _ IH]; simpl; [reflexivity|].
  now rewrite Hxy, IH.
Qed.

Ltac group_chain :=
  repeat match goal with
         | |- context [if ?c then _ else _] => destruct c
         end;
  reflexivity.

Ltac group_of_place p :=
  unfold group_from_photon_response, has_osm_value, property;
  destruct (osm_value p); cbn [bind]; [group_chain | reflexivity].

(** X11.  The group of a station made of geocoder places: 2 when one of
    the places is a "station", else 5 when one is a "stop" or a "halt",
    else 4 when one is a "junction", else none.  The groups are computed
    when every place has an ['osm_value']; a place without one raises
    [KeyError]. *)
Theorem largest_group_of_places places :
  match comprehension group_from_photon_response places with
  | Ok groups =>
      Forall (fun p => osm_value p <> None) places /\
      largest_group groups =
      if existsb (has_osm_value "station") places
      then Some 2%Z
      else if existsb (fun p => has_osm_value "stop" p
                                || has_osm_value "halt" p) places
      then Some 5%Z
      else if existsb (has_osm_value "junction") places
      then Some 4%Z
      else None
  | Raise e => e = KeyError /\ Exists (fun p => osm_value p = None) places
  end.
Proof.
  destruct (comprehension group_from_photon_response places) as [groups|e] eqn:E.
  2:{ apply groups_raise in E. tauto. }
  split; [eapply groups_Ok; exact E|].
  unfold largest_group. rewrite !(group_in_groups _ _ E).
  rewrite (existsb_never _ places) by (intros p _; group_of_place p).
  rewrite (existsb_never _ places) by (intros p _; group_of_place p).
  rewrite (existsb_eq_in _ (has_osm_value "station") places)
    by (intros p _; group_of_place p).
  destruct (existsb (has_osm_value "station") places) eqn:Es; [reflexivity|].
  assert (Hs : forall p, In p places -> has_osm_value "station" p = false).
  { intros p Hp. destruct (has_osm_value "station" p) eqn:E1; [|reflexivity].
    rewrite <- Es. symmetry. apply existsb_exists. eauto. }
  rewrite (existsb_eq_in _ (fun p => has_osm_value "stop" p
                                     || has_osm_value "halt" p) places).
  2:{ intros p Hp. pose proof (Hs p Hp) as H1. revert H1.
      unfold group_from_photon_response, has_osm_value, property.
      destruct (osm_value p); cbn [bind]; [|reflexivity].
      intros ->. group_chain. }
  destruct (existsb (fun p => has_osm_value "stop" p
                              || has_osm_value "halt" p) places)
    eqn:Eh; [reflexivity|].
  assert (Hh : forall p, In p places ->
                         has_osm_value "stop" p || has_osm_value "halt" p
                         = false).
  { intros p Hp.
    destruct (has_osm_value "stop" p || has_osm_value "halt" p) eqn:E1;
      [|reflexivity].
    rewrite <- Eh. symmetry. apply existsb_exists. eauto. }
  rewrite (existsb_never _ places) by (intros p _; group_of_place p).
  rewrite (existsb_never _ places) by (intros p _; group_of_place p).
  rewrite (existsb_eq_in _ (has_osm_value "junction") places); [reflexivity|].
  intros p Hp. pose proof (Hs p Hp) as H1. pose proof (Hh p Hp) as H2.
  apply orb_false_iff in H2. destruct H2 as [H2 H3]. revert H1 H2 H3.
  unfold group_from_photon_response, has_osm_value, property.
  destruct (osm_value p); cbn [bind]; [|reflexivity].
  intros -> -> ->. group_chain.
Qed.

(** *** The loop over the waypoints *)

Lemma first_name_in_get names table name station :
  first_name_in names table = Some (name, station) ->
  get str_eqb table name = Some station.
Proof.
  induction names as [|x names IH]; simpl; [discriminate|].
  destruct (get str_eqb table x) as [st|] eqn:E.
  - intros [= <- <-]. exact E.
  - exact IH.
Qed.

Lemma set_length (K V : Type) (eqb : K -> K -> bool) (d : dict K V) k v :
  (List.length (set eqb d k v) <= S (List.length d))%nat.
Proof.
  induction d as [|[k1 v1] d IH]; simpl; [lia|].
  destruct (eqb k1 k); simpl; lia.
Qed.

(** What one waypoint does to the object and to the hints. *)
Lemma resolve_waypoint_step self hints waypoint self' hints' :
  resolve_waypoint self hints waypoint = Ok (self', hints') ->
  exists added,
    stations self' = stations self ++ added /\
    (List.length added <= 1)%nat /\
    (name_to_station self' = name_to_station self \/
     exists name, name_to_station self'
                  = pop str_eqb (name_to_station self) name) /\
    (hints' = hints \/
     exists station,
       hints' = set Location_eqb hints waypoint station /\
       (In station added \/
        exists name, In (name, station) (name_to_station self))).
Proof.
  unfold Brouter.resolve_waypoint.
  destruct (possible_stations_of reverse fallback_town waypoint) as [ps|].
  2:{ intros [= <- <-]. exists []. rewrite app_nil_r. simpl. auto. }
  destruct (comprehension group_from_photon_response ps) as [groups|e];
    [|discriminate].
  cbn [bind].
  destruct (first_name_in _ _) as [[name station]|] eqn:E.
  - apply first_name_in_get in E. apply get_In in E. destruct E as [k' E].
    destruct (location station).
    + intros [= <- <-]. exists []. rewrite app_nil_r. simpl.
      split; [reflexivity|]. split; [lia|]. split; [right; eauto|].
      right. exists station. split; [reflexivity|]. right. eauto.
    + intros [= <- <-]. eexists [_]. simpl.
      split; [reflexivity|]. split; [lia|]. split; [right; eauto|].
      right. eexists. split; [reflexivity|]. left. now left.
  - destruct (new_station_of countries ps groups) as [station|e];
      [|discriminate].
    simpl. intros [= <- <-]. exists [station]. simpl.
    split; [reflexivity|]. split; [lia|]. split; [now left|].
    right. exists station. split; [reflexivity|]. left. now left.
Qed.

(** X12.  The loop over the waypoints only appends to the stations list,
    at most one Station per waypoint, and only removes from the name
    lookup table; it maps at most one more location per waypoint. *)
Theorem resolve_waypoints_grows self hints waypoints self' hints' :
  resolve_waypoints self hints waypoints = Ok (self', hints') ->
  exists added,
    stations self' = stations self ++ added /\
    (List.length added <= List.length waypoints)%nat /\
    incl (name_to_station self') (name_to_station self) /\
    (List.length hints' <= List.length hints + List.length waypoints)%nat.
Proof.
  revert self hints.
  induction waypoints as [|wp wps IH]; intros self hints; simpl.
  - intros [= <- <-]. exists []. rewrite app_nil_r. simpl.
    repeat split; [lia | apply incl_refl | lia].
  - change (Brouter.resolve_waypoint unicode_lower unidecode_table countries
              reverse fallback_town) with resolve_waypoint.
    destruct (resolve_waypoint self hints wp) as [[s1 h1]|e] eqn:E;
      [|discriminate].
    simpl. intros H. apply IH in H.
    destruct H as (added2 & Hs2 & Hl2 & Ht2 & Hh2).
    apply resolve_waypoint_step in E.
    destruct E as (added1 & Hs1 & Hl1 & Ht1 & Hh1).
    exists (added1 ++ added2). rewrite Hs2, Hs1, <- app_assoc, length_app.
    repeat split; [lia | |].
    + eapply incl_tran; [exact Ht2|].
      destruct Ht1 as [-> | [name ->]]; [apply incl_refl | apply pop_incl].
    + destruct Hh1 as [-> | (st & -> & _)]; [lia|].
      pose proof (set_length Location_eqb hints wp st). lia.
Qed.

Lemma of_items_values (K V : Type) (eqb : K -> K -> bool) (l : list (K * V)) k v :
  In (k, v) (of_items eqb l) -> exists k', In (k', v) l.
Proof.
  unfold of_items.
  assert (G : forall d,
             In (k, v) (fold_left (fun d kv => set eqb d (fst kv) (snd kv)) l d) ->
             (exists k', In (k', v) l) \/ In (k, v) d).
  { induction l as [|[k1 v1] l IH]; intros d H; simpl in H; [now right|].
    destruct (IH _ H) as [[k' Hk] | Hd].
    - left. exists k'. now right.
    - apply set_In in Hd. destruct Hd as [-> | Hd]; [|now right].
      left. exists k1. now left. }
  intros H. destruct (G [] H) as [? | []]. assumption.
Qed.

Lemma resolve_waypoint_within self hints waypoint self' hints' :
  within_catalog self hints ->
  resolve_waypoint self hints waypoint = Ok (self', hints') ->
  within_catalog self' hints'.
Proof.
  intros [Ht Hh] E. apply resolve_waypoint_step in E.
  destruct E as (added & Hs & _ & Ht1 & Hh1). split.
  - intros name station Hin. rewrite Hs. apply in_or_app. left.
    destruct Ht1 as [E | [nm E]]; rewrite E in Hin.
    + eapply Ht; eassumption.
    + eapply Ht. eapply pop_incl. eassumption.
  - intros location station Hin. rewrite Hs. apply in_or_app.
    destruct Hh1 as [-> | (st & -> & Hst)].
    + left. eapply Hh; eassumption.
    + apply set_In in Hin. destruct Hin as [-> | Hin].
      * destruct Hst as [Hst | [nm Hst]]; [now right|].
        left. eapply Ht; eassumption.
      * left. eapply Hh; eassumption.
Qed.

(** X13.  Started on the object that [__init__] builds, the loop maps
    every waypoint it keeps to a Station that is in the stations list
    when the loop ends. *)
Theorem resolve_waypoints_hints_in_catalog station_data waypoints self' hints' :
  resolve_waypoints (init station_data) [] waypoints = Ok (self', hints') ->
  forall location station,
    In (location, station) hints' -> In station (stations self').
Proof.
  assert (G : forall wps self hints,
             within_catalog self hints ->
             resolve_waypoints self hints wps = Ok (self', hints') ->
             within_catalog self' hints').
  { induction wps as [|wp wps IH]; intros self hints Hw; simpl.
    - intros [= <- <-]. exact Hw.
    - change (Brouter.resolve_waypoint unicode_lower unidecode_table countries
                reverse fallback_town) with resolve_waypoint.
      destruct (resolve_waypoint self hints wp) as [[s1 h1]|e] eqn:E;
        [|discriminate].
      simpl. apply IH. eapply resolve_waypoint_within; eassumption. }
  intros H. apply (G waypoints (init station_data) []) in H; [apply H|].
  split; [|intros ? ? []].
  intros name station Hin. unfold Brouter.init in Hin. simpl in Hin |- *.
  apply of_items_values in Hin. destruct Hin as [k' Hin].
  apply in_map_iff in Hin. destruct Hin as (s & [= _ <-] & Hs). exact Hs.
Qed.

(** X14.  A name is bound once: on a lookup table without a repeated key,
    as [__init__] builds it, the name through which a waypoint is bound
    to a catalog Station is no longer in the table afterwards, so that no
    later waypoint is bound through it; the table still has no repeated
    key, and no name comes into it. *)
Theorem resolve_waypoint_binds_once self hints waypoint self' hints'
    possible_stations name station :
  Measures.keys_unique (name_to_station self) ->
  possible_stations_of reverse fallback_town waypoint = Some possible_stations ->
  first_name_in (possible_station_names unicode_lower unidecode_table
                                        possible_stations)
                (name_to_station self) = Some (name, station) ->
  resolve_waypoint self hints waypoint = Ok (self', hints') ->
  get str_eqb (name_to_station self') name = None /\
  (forall names, match first_name_in names (name_to_station self') with
                 | Some (name', _) => name' <> name
                 | None => True
                 end) /\
  Measures.keys_unique (name_to_station self') /\
  (forall name', get str_eqb (name_to_station self) name' = None ->
                 get str_eqb (name_to_station self') name' = None).
Proof.
  intros Hu Hp Hn. unfold Brouter.resolve_waypoint. rewrite Hp.
  destruct (comprehension group_from_photon_response possible_stations)
    as [groups|e]; [|discriminate].
  cbn [bind]. rewrite Hn.
  assert (Hgone : get str_eqb (pop str_eqb (name_to_station self) name) name
                  = None) by (apply get_pop_same; [apply str_eqb_eq | exact Hu]).
  assert (Hfirst : forall names,
             match first_name_in names (pop str_eqb (name_to_station self) name)
             with
             | Some (name', _) => name' <> name
             | None => True
             end).
  { intros names.
    destruct (first_name_in names _) as [[name' st]|] eqn:E; [|exact I].
    apply first_name_in_get in E. intros ->. congruence. }
  assert (Hkeys : Measures.keys_unique (pop str_eqb (name_to_station self) name))
    by (apply pop_keys_unique; exact Hu).
  destruct (location station); intros [= <- <-]; simpl;
    repeat split; auto using get_pop_none.
Qed.

(** The table that [__init__] builds has no repeated key. *)
Lemma init_keys_unique station_data :
  Measures.keys_unique (name_to_station (init station_data)).
Proof. apply of_items_keys_unique. apply str_eqb_eq. Qed.

(** *** What makes the loop over the waypoints raise *)

(** [int("69" + str(osm_id))] is a number when the id is not negative,
    and fails on the minus sign of a negative one. *)
Lemma int_69_ok n : (0 <= n)%Z -> exists z, int ("69" ++ decimal n) = Ok z.
Proof.
  intros Hn. unfold int, decimal.
  assert (H : exists d, NilEmpty.uint_of_string
                          (NilZero.string_of_int (Z.to_int n)) = Some d).
  { destruct n as [|p|p]; [eexists; reflexivity | | lia].
    cbn [Z.to_int NilZero.string_of_int].
    destruct (Pos.to_uint p) eqn:E; eexists;
      first [ apply NilEmpty.usu | reflexivity ]. }
  destruct H as [d Hd].
  change ("69" ++ NilZero.string_of_int (Z.to_int n))%string
    with (String "6" (String "9" (NilZero.string_of_int (Z.to_int n)))).
  cbn [NilZero.uint_of_string NilEmpty.uint_of_string].
  rewrite Hd. eexists. reflexivity.
Qed.

Lemma int_69_negative n : (n < 0)%Z -> int ("69" ++ decimal n) = Raise ValueError.
Proof.
  intros Hn. unfold int, decimal.
  destruct n as [|p|p]; try lia.
  cbn [Z.to_int NilZero.string_of_int].
  change ("69" ++ String "-" (NilZero.string_of_uint (Pos.to_uint p)))%string
    with (String "6" (String "9" (String "-"
            (NilZero.string_of_uint (Pos.to_uint p))))).
  cbn [NilZero.uint_of_string NilEmpty.uint_of_string].
  destruct (NilEmpty.uint_of_string _); reflexivity.
Qed.

(** The exception of [new_station_of], case by case in the order in which
    the code meets them. *)
Lemma new_station_of_raises possible_stations groups e :
  new_station_of countries possible_stations groups = Raise e <->
  match possible_stations with
  | [] => e = IndexError
  | place :: _ =>
      match countrycode place with
      | None => e = KeyError
      | Some code =>
          match get str_eqb countries code with
          | None => e = KeyError
          | Some country =>
              match osm_id place with
              | None => e = KeyError
              | Some id =>
                  if (utf8_length (flag country ++ lit "O" ++ lit (decimal id))
                      <=? 20)%N
                  then match place_name place with
                       | None => e = KeyError
                       | Some _ => (id < 0)%Z /\ e = ValueError
                       end
                  else e = AssertionError
              end
          end
      end
  end.
Proof.
  assert (R : forall e0 : exn, @Raise Station e0 = Raise e <-> e = e0).
  { intros e0. split; [intros [= <-]; reflexivity | intros ->; reflexivity]. }
  unfold new_station_of, getitem, property.
  destruct possible_stations as [|place rest]; [apply R|].
  destruct (countrycode place) as [code|]; cbn [bind]; [|apply R].
  destruct (get str_eqb countries code) as [country|]; cbn [bind]; [|apply R].
  destruct (osm_id place) as [id|]; cbn [bind]; [|apply R].
  destruct (utf8_length (flag country ++ lit "O" ++ lit (decimal id)) <=? 20)%N;
    [|apply R].
  destruct (place_name place) as [name|]; cbn [bind]; [|apply R].
  destruct (Z.lt_ge_cases id 0) as [Hneg | Hpos].
  - rewrite (int_69_negative Hneg). cbn [bind]. rewrite R. tauto.
  - destruct (int_69_ok Hpos) as [z Hz]. rewrite Hz. cbn [bind].
    split; [discriminate | lia].
Qed.

(** X22.  What makes a waypoint raise.  The geocoder has a list of
    places for it, and either a place of the list has no ['osm_value']
    ([KeyError], whether or not a name of the list is in the lookup
    table), or every place has one, none of the names is in the lookup
    table and the new station cannot be made: the list is empty
    ([IndexError]); the first place has no ['countrycode'] or one that is
    not in [countries], no ['osm_id'], or no ['name'] ([KeyError]); its
    code is longer than 20 bytes ([AssertionError]); its id is negative
    ([ValueError], from [int]).  Ignoring a waypoint never raises. *)
Theorem resolve_waypoint_raises self hints waypoint e :
  resolve_waypoint self hints waypoint = Raise e <->
  exists possible_stations,
    possible_stations_of reverse fallback_town waypoint
    = Some possible_stations /\
    ((Exists (fun p => osm_value p = None) possible_stations /\ e = KeyError)
     \/
     (Forall (fun p => osm_value p <> None) possible_stations /\
      first_name_in (possible_station_names unicode_lower unidecode_table
                                            possible_stations)
                    (name_to_station self) = None /\
      match possible_stations with
      | [] => e = IndexError
      | place :: _ =>
          match countrycode place with
          | None => e = KeyError
          | Some code =>
              match get str_eqb countries code with
              | None => e = KeyError
              | Some country =>
                  match osm_id place with
                  | None => e = KeyError
                  | Some id =>
                      if (utf8_length (flag country ++ lit "O"
                                       ++ lit (decimal id)) <=? 20)%N
                      then match place_name place with
                           | None => e = KeyError
                           | Some _ => (id < 0)%Z /\ e = ValueError
                           end
                      else e = AssertionError
                  end
              end
          end
      end)).
Proof.
  unfold Brouter.resolve_waypoint.
  destruct (possible_stations_of reverse fallback_town waypoint) as [ps|].
  2:{ split; [discriminate|]. intros (ps & H & _). discriminate H. }
  destruct (comprehension group_from_photon_response ps) as [groups|e'] eqn:Eg;
    cbn [bind].
  2:{ apply groups_raise in Eg. destruct Eg as [Hex ->]. split.
      - intros [= <-]. exists ps. auto.
      - intros (ps' & [= <-] & [[_ ->] | (Hall & _)]); [reflexivity|].
        exfalso. apply Exists_exists in Hex. destruct Hex as (p & Hin & Hp).
        rewrite Forall_forall in Hall. now elim (Hall p Hin). }
  pose proof (groups_Ok _ Eg) as Hall.
  assert (Hnot : ~ Exists (fun p => osm_value p = None) ps).
  { intros Hex. apply Exists_exists in Hex. destruct Hex as (p & Hin & Hp).
    rewrite Forall_forall in Hall. now elim (Hall p Hin). }
  destruct (first_name_in _ _) as [[name station]|] eqn:En.
  - split.
    + destruct (location station); discriminate.
    + intros (ps' & [= <-] & [[Hex _] | (_ & H & _)]); [now elim Hnot|].
      rewrite En in H. discriminate H.
  - split.
    + destruct (new_station_of countries ps groups) as [st|e'] eqn:E;
        [discriminate|].
      simpl. intros [= <-]. exists ps. split; [reflexivity|]. right.
      split; [exact Hall|]. split; [exact En|].
      now apply (new_station_of_raises ps groups).
    + intros (ps' & [= <-] & [[Hex _] | (_ & _ & H)]); [now elim Hnot|].
      apply (new_station_of_raises ps groups) in H. now rewrite H.
Qed.

(** Binding a waypoint to a catalog Station raises only for a place
    without ['osm_value']: when every place has one and a name of the
    list is in the lookup table, the waypoint is bound. *)
Lemma resolve_waypoint_binds self hints waypoint possible_stations name station :
  possible_stations_of reverse fallback_town waypoint = Some possible_stations ->
  Forall (fun p => osm_value p <> None) possible_stations ->
  first_name_in (possible_station_names unicode_lower unidecode_table
                                        possible_stations)
                (name_to_station self) = Some (name, station) ->
  exists self' hints', resolve_waypoint self hints waypoint = Ok (self', hints').
Proof.
  intros Hp Hall Hn. unfold Brouter.resolve_waypoint. rewrite Hp.
  destruct (groups_total Hall) as [groups Hg]. rewrite Hg. cbn [bind].
  rewrite Hn. destruct (location station); eexists; eexists; reflexivity.
Qed.

(** *** The walk along the trace *)

(** X15.  Every CodeWaypoint that the walk emits is a stop without a
    route number for the next hop (0), carries the first code of the
    Station of its segment, which is one of the hinted Stations; no more
    waypoints are emitted than the trace has points, and the hints left
    at the end are hints that were given. *)
Theorem walk_emits_hinted_stops hints points :
  hints_have_codes hints ->
  exists w,
    walk hints points = Ok w /\
    Forall2 (fun cw segment =>
               is_stop cw = true /\
               next_route_number cw = Some 0%Z /\
               hd_error (codes (snd segment)) = Some (code cw) /\
               exists location, In (location, snd segment) hints)
            (code_waypoints w) (track_paths w) /\
    (List.length (code_waypoints w) <= List.length points)%nat /\
    incl (waypoint_location_to_station_location w) hints.
Proof.
  intros H. unfold Brouter.walk.
  destruct (walk_from_invariant distance_float
              (fun index w =>
                 Forall2 (fun cw segment =>
                            is_stop cw = true /\
                            next_route_number cw = Some 0%Z /\
                            hd_error (codes (snd segment)) = Some (code cw) /\
                            exists location, In (location, snd segment) hints)
                         (code_waypoints w) (track_paths w) /\
                 (List.length (code_waypoints w) <= index)%nat /\
                 incl (waypoint_location_to_station_location w) hints /\
                 hints_have_codes (waypoint_location_to_station_location w))
              points)
    with (rest := points) (index := 0%nat)
         (w := {| distance_total := 0; code_waypoints := [];
                  track_paths := []; last_location := None;
                  last_stop_index := 0;
                  waypoint_location_to_station_location := hints |})
    as (w & E & H1 & H2 & H3 & _).
  - intros index w trackpoint (H1 & H2 & H3 & H4).
    destruct (visit_cases distance_float points w index trackpoint H4)
      as [E | (k & stop & code & r & Hin & Hcodes & E)];
      rewrite E; eexists; (split; [reflexivity|]); simpl.
    + repeat split; auto.
    + repeat split.
      * apply Forall2_app; [exact H1|]. constructor; [|constructor].
        simpl. rewrite Hcodes. repeat split. exists k. now apply H3.
      * rewrite length_app. simpl. lia.
      * eapply incl_tran; [apply pop_incl | exact H3].
      * now apply pop_Forall.
  - simpl. repeat split; [constructor | lia | apply incl_refl | exact H].
  - exists w. simpl in H2. auto.
Qed.

Lemma firstn_succ_nth (A : Type) (l : list A) i x :
  nth_error l i = Some x -> firstn (S i) l = firstn i l ++ [x].
Proof.
  revert l. induction i as [|i IH]; intros [|y l] H; try discriminate.
  - simpl in H. injection H as ->. reflexivity.
  - simpl in H.
    change (firstn (S (S i)) (y :: l)) with (y :: firstn (S i) l).
    change (firstn (S i) (y :: l)) with (y :: firstn i l).
    rewrite (IH l H). reflexivity.
Qed.

Lemma stop_index_old (track_paths : list (list Location * Station)) x k :
  (k < List.length track_paths)%nat ->
  stop_index (track_paths ++ [x]) k = stop_index track_paths k.
Proof.
  intros H. unfold stop_index. rewrite firstn_app.
  replace (S k - List.length track_paths)%nat with 0%nat by lia.
  simpl. now rewrite app_nil_r.
Qed.

(** X16.  The distance of an emitted CodeWaypoint is the length of the
    trace up to and including the point at which it was emitted, the
    point that follows its segment and the segments before; the total at
    the end of the walk is the length of the whole trace, whatever the
    hints. *)
Theorem walk_distance_is_trace_length hints points :
  hints_have_codes hints ->
  exists w,
    walk hints points = Ok w /\
    distance_total w = trace_length points /\
    forall k cw,
      nth_error (code_waypoints w) k = Some cw ->
      (stop_index (track_paths w) k < List.length points)%nat /\
      distance_from_start cw =
      trace_length (firstn (S (stop_index (track_paths w) k)) points).
Proof.
  intros H. unfold Brouter.walk.
  destruct (walk_from_invariant_at distance_float
              (fun index w =>
                 segments_inv (List.length hints) points index w /\
                 (last_location w, distance_total w)
                 = fold_left (advance distance_float) (firstn index points)
                             (None, 0) /\
                 forall k cw,
                   nth_error (code_waypoints w) k = Some cw ->
                   (stop_index (track_paths w) k < List.length points)%nat /\
                   distance_from_start cw =
                   trace_length (firstn (S (stop_index (track_paths w) k)) points))
              points)
    with (rest := points) (index := 0%nat)
         (w := {| distance_total := 0; code_waypoints := [];
                  track_paths := []; last_location := None;
                  last_stop_index := 0;
                  waypoint_location_to_station_location := hints |})
    as (w & E & _ & H2 & H3).
  - intros index w trackpoint Hnth (Hseg & Hpair & Hcw).
    assert (Hlt : (index < List.length points)%nat).
    { apply nth_error_Some. congruence. }
    destruct (@visit_segments distance_float (List.length hints) points w
                              index trackpoint Hseg) as (w' & E & Hseg').
    exists w'. split; [exact E|]. split; [exact Hseg'|].
    assert (Hnext : fold_left (advance distance_float)
                              (firstn (S index) points) (None, 0)
                    = advance distance_float
                              (last_location w, distance_total w) trackpoint).
    { rewrite (firstn_succ_nth _ _ Hnth), fold_left_app, <- Hpair.
      reflexivity. }
    destruct Hseg as [Hcount _ Hstop Hconcat Hcodes].
    destruct (visit_cases distance_float points w index trackpoint Hcodes)
      as [E' | (k0 & stop & code & r & Hin & Hc & E')];
      rewrite E' in E; injection E as <-;
      cbn [last_location distance_total code_waypoints track_paths].
    + split; [now rewrite Hnext|]. exact Hcw.
    + split; [now rewrite Hnext|].
      intros k cw Hk.
      destruct (Nat.lt_ge_cases k (List.length (code_waypoints w)))
        as [Hold | Hnew].
      * rewrite nth_error_app1 in Hk by exact Hold.
        rewrite stop_index_old by (rewrite Hcount; exact Hold).
        now apply Hcw.
      * rewrite nth_error_app2 in Hk by exact Hnew.
        destruct (k - List.length (code_waypoints w))%nat as [|j] eqn:Ej;
          [|destruct j; discriminate Hk].
        simpl in Hk. injection Hk as <-. cbn [distance_from_start].
        assert (Hidx : stop_index (track_paths w
                                   ++ [(slice points (last_stop_index w) index,
                                        stop)]) k = index).
        { unfold stop_index. rewrite firstn_all2
            by (rewrite length_app; simpl; lia).
          rewrite map_app, concat_app. simpl. rewrite app_nil_r, Hconcat.
          rewrite (firstn_slice points Hstop), length_firstn. lia. }
        rewrite Hidx. split; [exact Hlt|].
        unfold Measures.trace_length. rewrite Hnext. reflexivity.
  - reflexivity.
  - split; [constructor; simpl; auto|]. split; [reflexivity|].
    intros k cw Hk. destruct k; discriminate Hk.
  - exists w. split; [exact E|]. simpl in H2. split; [|exact H3].
    rewrite firstn_all in H2. unfold Measures.trace_length.
    now rewrite <- H2.
Qed.

End ImporterProps.

(** ** PolylineSimplifier *)

Section SimplifierProps.
Import Py Stations Simplifier.

Variable GPXTrackPoint : Type.
Variable latitude longitude : GPXTrackPoint -> Q.
Variable rdp : list (Q * Q) -> Q -> result (list bool).

Local Abbreviation douglas_peucker := (douglas_peucker latitude longitude rdp).
Local Abbreviation simplify_path_with_stops :=
  (simplify_path_with_stops latitude longitude rdp).

Lemma subsequence_empty (A : Type) (l : list A) : subsequence [] l.
Proof. induction l; constructor; assumption. Qed.

Lemma compress_subsequence (A : Type) (data : list A) selectors :
  subsequence (compress data selectors) data.
Proof.
  revert selectors. induction data as [|x data IH]; intros [|b selectors];
    simpl; try apply subsequence_empty.
  destruct b; constructor; apply IH.
Qed.

(** A subsequence is no longer, and holds no other items. *)
Lemma subsequence_length_incl (A : Type) (s l : list A) :
  subsequence s l -> (List.length s <= List.length l)%nat /\ incl s l.
Proof.
  induction 1 as [|x s l _ [IH1 IH2]|x s l _ [IH1 IH2]]; simpl.
  - split; [lia | apply incl_refl].
  - split; [lia|]. intros y [<- | H]; [now left | right; now apply IH2].
  - split; [lia|]. now apply incl_tl.
Qed.

(** X17.  Simplifying a path keeps its segments in number and order,
    each with its Station; the points of a simplified segment are points
    of the segment it comes from, in the order they had, none invented
    and none repeated that was not. *)
Theorem simplify_path_with_stops_keeps path max_radius simplified :
  simplify_path_with_stops path max_radius = Ok simplified ->
  Forall2 (fun old new =>
             snd new = snd old /\
             subsequence (fst new) (fst old) /\
             (List.length (fst new) <= List.length (fst old))%nat /\
             incl (fst new) (fst old))
          path simplified.
Proof.
  revert simplified.
  induction path as [|[segment station] rest IH]; intros simplified; simpl.
  - intros [= <-]. constructor.
  - unfold Simplifier.douglas_peucker.
    destruct (rdp _ max_radius) as [mask|e]; [|discriminate].
    simpl.
    destruct (Simplifier.simplify_path_with_stops latitude longitude rdp rest
                                                  max_radius)
      as [rest'|e]; [|discriminate].
    simpl. intros [= <-]. constructor; [|now apply IH].
    simpl. split; [reflexivity|].
    pose proof (compress_subsequence segment mask) as Hs.
    split; [exact Hs|]. now apply subsequence_length_incl.
Qed.

End SimplifierProps.

(** ** The rows of the Trassenfinder file *)

Section CsvProps.
Import Py Routes TrassenfinderCsv.

Variable float : str -> result Q.
Variable int : str -> result Z.

Local Abbreviation deserialize := (deserialize float int).

Lemma item_ok entry i x :
  item entry i = Ok x <-> nth_error entry i = Some x.
Proof.
  unfold item. destruct (nth_error entry i); split; congruence.
Qed.

(** X18.  A row is turned into a CodeWaypoint exactly when it has at
    least 18 columns, [float] accepts the first column with its commas
    turned into points, and the fourth column is empty or accepted by
    [int]; any other row raises.  The waypoint has no route number
    exactly when the fourth column is empty. *)
Theorem deserialize_returns entry :
  ((exists waypoint, deserialize entry = Ok waypoint) <->
   (18 <= List.length entry)%nat /\
   (exists d, float (replace_comma (nth 0 entry [])) = Ok d) /\
   (nth 3 entry [] = [] \/ exists n, int (nth 3 entry []) = Ok n))
  /\
  (forall waypoint,
      deserialize entry = Ok waypoint ->
      (next_route_number waypoint = None <-> nth 3 entry [] = []) /\
      code waypoint = replace_double_space (nth 2 entry []) /\
      is_stop waypoint = contains (lit "Kundenhalt") (nth 17 entry [])).
Proof.
  assert (Hitem : forall i, (i < List.length entry)%nat ->
                            item entry i = Ok (nth i entry [])).
  { intros i Hi. apply item_ok. now apply nth_error_nth'. }
  assert (Hshort : forall i, (List.length entry <= i)%nat ->
                             item entry i = Raise IndexError).
  { intros i Hi. unfold item. apply nth_error_None in Hi. now rewrite Hi. }
  unfold TrassenfinderCsv.deserialize.
  destruct (Nat.le_gt_cases 18 (List.length entry)) as [Hlen | Hlen].
  - rewrite !Hitem by lia. simpl.
    destruct (float (replace_comma (nth 0 entry []))) as [d|e] eqn:Ef; simpl.
    + destruct (nth 3 entry []) as [|c r] eqn:E3; simpl.
      * split.
        -- split; [intros _ | intros _; eexists; reflexivity].
           repeat split; eauto.
        -- intros w [= <-]. simpl. tauto.
      * rewrite <- E3.
        destruct (int (nth 3 entry [])) as [n|e] eqn:Ei; simpl.
        -- split.
           ++ split; [intros _ | intros _; eexists; reflexivity].
              repeat split; eauto.
           ++ intros w [= <-]. simpl. rewrite E3.
              split; [split; discriminate | tauto].
        -- split; [|discriminate]. split.
           ++ intros [w Hw]. discriminate Hw.
           ++ intros (_ & _ & [H | [n H]]); [rewrite E3 in H|]; discriminate.
    + split; [|discriminate]. split.
      * intros [w Hw]. discriminate Hw.
      * intros (_ & [d H] & _). discriminate.
  - split.
    + split; [|intros [H _]; lia].
      intros [w Hw]. exfalso.
      destruct (item entry 0) as [e0|]; [|discriminate Hw]. simpl in Hw.
      destruct (float _); [|discriminate Hw]. simpl in Hw.
      destruct (item entry 2) as [e2|]; [|discriminate Hw]. simpl in Hw.
      rewrite (Hshort 17%nat) in Hw by lia. discriminate Hw.
    + intros w Hw. exfalso.
      destruct (item entry 0) as [e0|]; [|discriminate Hw]. simpl in Hw.
      destruct (float _); [|discriminate Hw]. simpl in Hw.
      destruct (item entry 2) as [e2|]; [|discriminate Hw]. simpl in Hw.
      rewrite (Hshort 17%nat) in Hw by lia. discriminate Hw.
Qed.

End CsvProps.

(** ** The lookup table of [__init__], and the importer followed by the
       assembler *)

Section DictLast.
Import Py.
Variables (K V A : Type) (eqb : K -> K -> bool).
Hypothesis eqb_eq : forall a b, eqb a b = true <-> a = b.
Variables (key : A -> K) (value : A -> V).

Lemma get_set_eq (d : dict K V) k v k' :
  get eqb (set eqb d k v) k' = if eqb k k' then Some v else get eqb d k'.
Proof.
  induction d as [|[k1 v1] d IH]; simpl; [reflexivity|].
  destruct (eqb k1 k) eqn:E; simpl.
  - apply eqb_eq in E. subst k1. destruct (eqb k k'); reflexivity.
  - rewrite IH. destruct (eqb k1 k') eqn:E1; [|reflexivity].
    apply eqb_eq in E1. subst k1.
    destruct (eqb k k') eqn:E2; [|reflexivity].
    apply eqb_eq in E2. subst k'.
    rewrite (proj2 (eqb_eq k k) eq_refl) in E. discriminate E.
Qed.

(** In a mapping built by a comprehension, a key has the value of the
    last item with that key. *)
Lemma get_comprehension_last (items : list A) (d : dict K V) k :
  get eqb
      (fold_left (fun d kv => set eqb d (fst kv) (snd kv))
                 (List.map (fun x => (key x, value x)) items) d) k =
  match find (fun x => eqb (key x) k) (rev items) with
  | Some x => Some (value x)
  | None => get eqb d k
  end.
Proof.
  revert d. induction items as [|x items IH]; intros d; simpl; [reflexivity|].
  rewrite IH, find_append.
  destruct (find _ (rev items)); [reflexivity|].
  simpl. rewrite get_set_eq. destruct (eqb (key x) k); reflexivity.
Qed.
End DictLast.

Section InitProps.
Import Py Stations Routes Brouter.

Variable unicode_lower : str -> str.
Variable unidecode_table : N -> str.

Local Abbreviation normalize_name :=
  (normalize_name unicode_lower unidecode_table).
Local Abbreviation init := (init unicode_lower unidecode_table).

(** X19.  The lookup table of [__init__] has one entry per normalized
    name: a name leads to the last Station of the catalog with that
    normalized name, which hides the Stations before it, and to nothing
    when no Station has it. *)
Theorem init_name_to_station_last station_data name :
  get str_eqb (name_to_station (init station_data)) name =
  find (fun station => str_eqb (normalize_name (Stations.name station)) name)
       (rev station_data)
  /\ Measures.keys_unique (name_to_station (init station_data)).
Proof.
  split.
  - unfold Brouter.init, of_items. cbn [name_to_station].
    rewrite (get_comprehension_last str_eqb str_eqb_eq
               (fun station => normalize_name (Stations.name station))
               (fun station => station)).
    destruct (find _ (rev station_data)); reflexivity.
  - apply of_items_keys_unique. apply str_eqb_eq.
Qed.

End InitProps.

Section EndToEnd.
Import Py Stations Routes Brouter Trassenfinder.

Variable unicode_lower : str -> str.
Variable unidecode_table : N -> str.
Variable countries : dict str Country.
Variable reverse : Location -> query_string_filter -> option (list Place).
Variable distance_float : Location -> Location -> Q.
Variable fallback_town : bool.
Variable UNKNOWN : Z.
Variable iter_stations_by_codes_reverse : list Station -> list (str * Station).

Lemma visit_no_route points w index trackpoint w' :
  Forall (fun cw => next_route_number cw = Some 0%Z) (code_waypoints w) ->
  visit distance_float points w index trackpoint = Ok w' ->
  Forall (fun cw => next_route_number cw = Some 0%Z) (code_waypoints w').
Proof.
  intros H. unfold visit.
  destruct (first_near _ _ _) as [[k stop]|].
  - destruct (codes stop) as [|c r]; [discriminate|].
    intros [= <-]. simpl. apply Forall_app. split; [exact H|].
    repeat constructor.
  - intros [= <-]. exact H.
Qed.

Lemma walk_from_no_route points rest index w w' :
  Forall (fun cw => next_route_number cw = Some 0%Z) (code_waypoints w) ->
  walk_from distance_float points index rest w = Ok w' ->
  Forall (fun cw => next_route_number cw = Some 0%Z) (code_waypoints w').
Proof.
  revert index w. induction rest as [|tp rest IH]; intros index w H; simpl.
  - intros [= <-]. exact H.
  - destruct (visit distance_float points w index tp) as [w1|e] eqn:E;
      [|discriminate].
    simpl. apply IH. eapply visit_no_route; eassumption.
Qed.

(** X20.  The importer followed by the assembler: the CodeWaypoints that
    [import_data] returns all carry route number 0, so that, when their
    codes resolve in the station catalog, [convert_waypoints_to_route]
    returns a Route in which every hop is the one placeholder of
    [invalid_track], whatever the path catalog holds. *)
Theorem import_data_then_convert self waypoints points self' emitted
    station_data path_data :
  import_data unicode_lower unidecode_table countries reverse distance_float
              fallback_town self waypoints points = Ok (self', emitted) ->
  Forall (resolves (codes_to_station_of iter_stations_by_codes_reverse
                                        station_data)) emitted ->
  Forall (fun cw => next_route_number cw = Some 0%Z) emitted /\
  convert_waypoints_to_route UNKNOWN iter_stations_by_codes_reverse
                             emitted station_data path_data =
  Ok {| waypoints := emitted;
        tracks_used :=
          List.map (fun _ => [invalid_track UNKNOWN (Some 0%Z)])
                   (combine emitted (tl emitted)) |}.
Proof.
  intros Himp Hres.
  assert (Hzero : Forall (fun cw => next_route_number cw = Some 0%Z) emitted).
  { unfold import_data in Himp.
    destruct (resolve_waypoints _ _ _ _ _ _ _ _) as [[s h]|e];
      [|discriminate Himp].
    simpl in Himp.
    destruct (walk distance_float h points) as [w|e] eqn:E;
      [|discriminate Himp].
    simpl in Himp. injection Himp as _ <-.
    unfold walk in E. eapply walk_from_no_route; [|exact E]. constructor. }
  split; [exact Hzero|].
  unfold convert_waypoints_to_route.
  rewrite (for_each_pair_map UNKNOWN
             (codes_to_station_of iter_stations_by_codes_reverse station_data)
             (route_number_to_path_of path_data)
             (fun _ => [invalid_track UNKNOWN (Some 0%Z)]));
    [reflexivity|].
  apply Forall_forall. intros [w w'] Hin. simpl.
  rewrite Forall_forall in Hres, Hzero.
  assert (Hw : In w emitted) by (eapply in_combine_l; eassumption).
  assert (Hw' : In w' emitted).
  { apply in_combine_r in Hin. destruct emitted; [contradiction | now right]. }
  rewrite <- (Hzero w Hw).
  apply tracks_between_no_route; auto.
Qed.

End EndToEnd.

(** ** The properties above on the catalogs of the examples *)

Section Route100More.
Import Py Stations Routes Trassenfinder Scenario.

Let cts := codes_to_station_of iter_stations_by_codes_reverse station_data.
Let rtp := route_number_to_path_of [path_100].

(** Route 100 has three Tracks, one of them electrified: the vote of X4
    is against. *)
Lemma track_from_path_majority_witness :
  get Z.eqb rtp 100%Z = Some path_100 /\
  tracks path_100 <> [] /\
  exists track,
    track_from_path 100 None (Some 7) rtp None None = Ok track /\
    electrified track =
      (List.length (filter (fun t => negb (electrified t)) (tracks path_100))
       <=? List.length (filter electrified (tracks path_100)))%nat /\
    In (kind track) (List.map kind (tracks path_100)) /\
    Routes.route_number track = Some 100%Z /\
    length track = 0 /\ from_km track = None /\ Routes.to_km track = Some 7.
Proof.
  assert (H1 : get Z.eqb rtp 100%Z = Some path_100) by reflexivity.
  assert (H2 : tracks path_100 <> []) by discriminate.
  split; [exact H1|]. split; [exact H2|].
  eapply track_from_path_majority; eassumption.
Defined.

(** The hop of the spec's scenario, counted as in X5. *)
Lemma convert_waypoints_to_route_hop_count_witness :
  let waypoints := [on_100 "KM5"; on_100 "KM12"] in
  let route := {| waypoints := waypoints;
                  tracks_used := [[track_0_6; track_6_10; track_10_15]] |} in
  convert_waypoints_to_route waypoints station_data [path_100] = Ok route /\
  Routes.waypoints route = waypoints /\
  List.length (tracks_used route) = Nat.pred (List.length waypoints).
Proof.
  intros waypoints route.
  assert (H : convert_waypoints_to_route waypoints station_data [path_100]
              = Ok route) by reflexivity.
  split; [exact H|].
  eapply convert_waypoints_to_route_hop_count; eassumption.
Defined.

(** Three waypoints without a route number, as in X6. *)
Lemma convert_waypoints_to_route_placeholders_witness :
  let waypoints := [waypoint_on None "KM0"; waypoint_on (Some 0%Z) "KM5";
                    waypoint_on None "KM12"] in
  Forall (resolves cts) waypoints /\
  Forall (fun w => next_route_number w = None \/
                   next_route_number w = Some 0%Z) waypoints /\
  convert_waypoints_to_route waypoints station_data [path_100] =
  Ok {| waypoints := waypoints;
        tracks_used :=
          List.map (fun p => [invalid_track UNKNOWN (next_route_number (fst p))])
                   (combine waypoints (tl waypoints)) |}.
Proof.
  intros waypoints.
  assert (H1 : Forall (resolves cts) waypoints)
    by (repeat constructor; vm_compute; discriminate).
  assert (H2 : Forall (fun w => next_route_number w = None \/
                                next_route_number w = Some 0%Z) waypoints)
    by (repeat constructor; simpl; auto).
  split; [exact H1|]. split; [exact H2|].
  eapply convert_waypoints_to_route_placeholders; eassumption.
Defined.

(** The hop between km 5 and km 12 and the hop back, as in X7. *)
Lemma tracks_between_by_km_symmetric_witness :
  let w := on_100 "KM5" in
  let w' := on_100 "KM12" in
  let s := station_at "KM5" (Some 5) in
  let s' := station_at "KM12" (Some 12) in
  get str_eqb cts (code w) = Some s /\
  get str_eqb cts (code w') = Some s' /\
  next_route_number w = Some 100%Z /\ next_route_number w' = Some 100%Z /\
  100%Z <> 0%Z /\
  get Z.eqb rtp 100%Z = Some path_100 /\
  km_on_route (locations_path s) 100 = [5] /\
  km_on_route (locations_path s') 100 = [12] /\
  Forall has_bounds (tracks path_100) /\
  tracks_between UNKNOWN cts rtp w w' = tracks_between UNKNOWN cts rtp w' w.
Proof.
  intros w w' s s'.
  assert (H1 : get str_eqb cts (code w) = Some s) by reflexivity.
  assert (H2 : get str_eqb cts (code w') = Some s') by reflexivity.
  assert (H3 : next_route_number w = Some 100%Z) by reflexivity.
  assert (H4 : next_route_number w' = Some 100%Z) by reflexivity.
  assert (H5 : 100%Z <> 0%Z) by discriminate.
  assert (H6 : get Z.eqb rtp 100%Z = Some path_100) by reflexivity.
  assert (H7 : km_on_route (locations_path s) 100 = [5]) by reflexivity.
  assert (H8 : km_on_route (locations_path s') 100 = [12]) by reflexivity.
  assert (H9 : Forall has_bounds (tracks path_100))
    by (repeat constructor; discriminate).
  repeat (split; [assumption|]).
  eapply tracks_between_by_km_symmetric; eassumption.
Defined.

(** The same hop, as in X8. *)
Lemma tracks_between_by_km_sound_witness :
  let w := on_100 "KM5" in
  let w' := on_100 "KM12" in
  let s := station_at "KM5" (Some 5) in
  let s' := station_at "KM12" (Some 12) in
  get str_eqb cts (code w) = Some s /\
  get str_eqb cts (code w') = Some s' /\
  next_route_number w = Some 100%Z /\
  100%Z <> 0%Z /\
  get Z.eqb rtp 100%Z = Some path_100 /\
  km_on_route (locations_path s) 100 = [5] /\
  km_on_route (locations_path s') 100 = [12] /\
  Forall has_bounds (tracks path_100) /\
  (forall t a b, In t (tracks path_100) ->
                 from_km t = Some a -> Routes.to_km t = Some b -> a <= b) /\
  exists keep ts,
    tracks_between UNKNOWN cts rtp w w' = Ok ts /\
    ts = filter keep (tracks path_100) /\
    Forall (fun t => In t (tracks path_100) /\
                     overlaps (Trassenfinder.min 5 12)
                              (Trassenfinder.max 5 12) t) ts.
Proof.
  intros w w' s s'.
  assert (H1 : get str_eqb cts (code w) = Some s) by reflexivity.
  assert (H2 : get str_eqb cts (code w') = Some s') by reflexivity.
  assert (H3 : next_route_number w = Some 100%Z) by reflexivity.
  assert (H5 : 100%Z <> 0%Z) by discriminate.
  assert (H6 : get Z.eqb rtp 100%Z = Some path_100) by reflexivity.
  assert (H7 : km_on_route (locations_path s) 100 = [5]) by reflexivity.
  assert (H8 : km_on_route (locations_path s') 100 = [12]) by reflexivity.
  assert (H9 : Forall has_bounds (tracks path_100))
    by (repeat constructor; discriminate).
  assert (H10 : forall t a b, In t (tracks path_100) ->
                              from_km t = Some a -> Routes.to_km t = Some b ->
                              a <= b).
  { intros t a b [<- | [<- | [<- | []]]] [= <-] [= <-];
      unfold Qle; simpl; lia. }
  repeat (split; [assumption|]).
  eapply tracks_between_by_km_sound; eassumption.
Defined.

(** The hop from km 5 to a station that is not on route 100, as in X9. *)
Lemma tracks_between_fallback_track_witness :
  let w := on_100 "KM5" in
  let w' := on_100 "ELSEWHERE" in
  let s := station_at "KM5" (Some 5) in
  let s' := station_at "ELSEWHERE" None in
  get str_eqb cts (code w) = Some s /\
  get str_eqb cts (code w') = Some s' /\
  next_route_number w = Some 100%Z /\
  100%Z <> 0%Z /\
  get Z.eqb rtp 100%Z = Some path_100 /\
  tracks path_100 <> [] /\
  (km_on_route (locations_path s) 100 = [] \/
   km_on_route (locations_path s') 100 = []) /\
  exists track,
    tracks_between UNKNOWN cts rtp w w' = Ok [track] /\
    Routes.route_number track = Some 100%Z /\
    length track = 0 /\
    from_km track = None /\
    Routes.to_km track =
      (if truthy (locations_path s) && truthy (locations_path s')
       then hd_error (km_on_route (locations_path s') 100) else None) /\
    electrified track =
      (List.length (filter (fun t => negb (electrified t)) (tracks path_100))
       <=? List.length (filter electrified (tracks path_100)))%nat.
Proof.
  intros w w' s s'.
  assert (H1 : get str_eqb cts (code w) = Some s) by reflexivity.
  assert (H2 : get str_eqb cts (code w') = Some s') by reflexivity.
  assert (H3 : next_route_number w = Some 100%Z) by reflexivity.
  assert (H5 : 100%Z <> 0%Z) by discriminate.
  assert (H6 : get Z.eqb rtp 100%Z = Some path_100) by reflexivity.
  assert (H7 : tracks path_100 <> []) by discriminate.
  assert (H8 : km_on_route (locations_path s) 100 = [] \/
               km_on_route (locations_path s') 100 = [])
    by (right; reflexivity).
  repeat (split; [assumption|]).
  eapply tracks_between_fallback_track; eassumption.
Defined.

(** The list of the spec's scenario, as in X21. *)
Lemma convert_waypoints_to_route_needs_codes_witness :
  let waypoints := [on_100 "KM5"; on_100 "KM12"] in
  let route := {| waypoints := waypoints;
                  tracks_used := [[track_0_6; track_6_10; track_10_15]] |} in
  (2 <= List.length waypoints)%nat /\
  convert_waypoints_to_route waypoints station_data [path_100] = Ok route /\
  Forall (resolves cts) waypoints.
Proof.
  intros waypoints route.
  assert (H1 : (2 <= List.length waypoints)%nat) by (simpl; lia).
  assert (H2 : convert_waypoints_to_route waypoints station_data [path_100]
               = Ok route) by reflexivity.
  split; [exact H1|]. split; [exact H2|].
  eapply convert_waypoints_to_route_needs_codes; eassumption.
Defined.


(** What the Route of that list holds: the Track [0-6) for the hop from
    km 0 to km 5, and one synthesized Track for the hop to the station
    that is not on the route. *)
Example convert_waypoints_to_route_degraded_hop :
  convert_waypoints_to_route
    [on_100 "KM0"; on_100 "KM5"; on_100 "ELSEWHERE"] station_data [path_100] =
  Ok {| waypoints := [on_100 "KM0"; on_100 "KM5"; on_100 "ELSEWHERE"];
        tracks_used :=
          [ [track_0_6];
            [{| Routes.route_number := Some 100%Z;
                electrified := false;
                kind := 1;
                length := 0;
                from_km := None;
                to_km := None |}] ] |}.
Proof. reflexivity. Qed.

End Route100More.

Section NeustadtMore.
Import Py Stations Routes Brouter Scenario.

Let lower := NameNormalizer.lower_caseless.
Let table := NameNormalizer.unidecode_excerpt.

(** The run of C5's failing input, as in X12. *)
Lemma resolve_waypoints_grows_witness :
  let self' := {| stations := [neustadt_osm; neustadt_osm];
                  name_to_station := [] |} in
  let hints' := [(at_ 50 8, neustadt_osm); (at_ (50001 # 1000) 8, neustadt_osm)] in
  resolve_waypoints (init []) [] [at_ 50 8; at_ (50001 # 1000) 8]
  = Ok (self', hints') /\
  exists added,
    stations self' = stations (init []) ++ added /\
    (List.length added <= 2)%nat /\
    incl (name_to_station self') (name_to_station (init [])) /\
    (List.length hints' <= 0 + 2)%nat.
Proof.
  intros self' hints'.
  assert (H : resolve_waypoints (init []) [] [at_ 50 8; at_ (50001 # 1000) 8]
              = Ok (self', hints')) by reflexivity.
  split; [exact H|].
  exact (@resolve_waypoints_grows lower table countries reverse_neustadt false
           (init []) [] [at_ 50 8; at_ (50001 # 1000) 8] self' hints' H).
Defined.

(** The run that binds the catalog station "Neustadt", as in X13. *)
Lemma resolve_waypoints_hints_in_catalog_witness :
  let station := with_location neustadt (at_ 50 8) in
  let self' := {| stations := [neustadt; station]; name_to_station := [] |} in
  let hints' := [(at_ 50 8, station)] in
  resolve_waypoints (init [neustadt]) [] [at_ 50 8] = Ok (self', hints') /\
  In (at_ 50 8, station) hints' /\
  In station (stations self').
Proof.
  intros station self' hints'.
  assert (H1 : resolve_waypoints (init [neustadt]) [] [at_ 50 8]
               = Ok (self', hints')) by reflexivity.
  assert (H2 : In (at_ 50 8, station) hints') by now left.
  split; [exact H1|]. split; [exact H2|].
  eapply resolve_waypoints_hints_in_catalog; eassumption.
Defined.

(** The same waypoint, as in X14. *)
Lemma resolve_waypoint_binds_once_witness :
  let self := init [neustadt] in
  let station := with_location neustadt (at_ 50 8) in
  let self' := {| stations := [neustadt; station]; name_to_station := [] |} in
  let hints' := [(at_ 50 8, station)] in
  Measures.keys_unique (name_to_station self) /\
  possible_stations_of reverse_neustadt false (at_ 50 8)
  = Some [place "Neustadt" 42 50 8] /\
  first_name_in (possible_station_names lower table [place "Neustadt" 42 50 8])
                (name_to_station self) = Some (lit "neustadt", neustadt) /\
  Brouter.resolve_waypoint lower table countries reverse_neustadt false
                           self [] (at_ 50 8) = Ok (self', hints') /\
  get str_eqb (name_to_station self') (lit "neustadt") = None /\
  (forall names, match first_name_in names (name_to_station self') with
                 | Some (name', _) => name' <> lit "neustadt"
                 | None => True
                 end) /\
  Measures.keys_unique (name_to_station self') /\
  (forall name', get str_eqb (name_to_station self) name' = None ->
                 get str_eqb (name_to_station self') name' = None).
Proof.
  intros self station self' hints'.
  assert (H1 : Measures.keys_unique (name_to_station self)).
  { repeat constructor. intros []. }
  assert (H2 : possible_stations_of reverse_neustadt false (at_ 50 8)
               = Some [place "Neustadt" 42 50 8]) by reflexivity.
  assert (H3 : first_name_in
                 (possible_station_names lower table [place "Neustadt" 42 50 8])
                 (name_to_station self) = Some (lit "neustadt", neustadt))
    by reflexivity.
  assert (H4 : Brouter.resolve_waypoint lower table countries reverse_neustadt
                 false self [] (at_ 50 8) = Ok (self', hints')) by reflexivity.
  repeat (split; [assumption|]).
  eapply resolve_waypoint_binds_once; eassumption.
Defined.

(** The trace and hints of C7's counterexample, as in X15. *)
Lemma walk_emits_hinted_stops_witness :
  let hints := [(at_ 0 0, stop "A"); (at_ 0 (1 # 10000), stop "B")] in
  let points := [at_ 0 0; at_ 0 0; at_ 0 1] in
  hints_have_codes hints /\
  exists w,
    walk hints points = Ok w /\
    Forall2 (fun cw segment =>
               is_stop cw = true /\
               next_route_number cw = Some 0%Z /\
               hd_error (codes (snd segment)) = Some (code cw) /\
               exists location, In (location, snd segment) hints)
            (code_waypoints w) (track_paths w) /\
    (List.length (code_waypoints w) <= List.length points)%nat /\
    incl (waypoint_location_to_station_location w) hints.
Proof.
  intros hints points.
  assert (H : hints_have_codes hints).
  { repeat constructor; simpl; discriminate. }
  split; [exact H|].
  eapply walk_emits_hinted_stops; exact H.
Defined.

(** A trace of three points a degree apart, with a hint at the second, as
    in X16. *)
Lemma walk_distance_is_trace_length_witness :
  let hints := [(at_ 0 1, stop "A")] in
  let points := [at_ 0 0; at_ 0 1; at_ 0 2] in
  hints_have_codes hints /\
  exists w,
    walk hints points = Ok w /\
    distance_total w = Measures.trace_length flat_distance points /\
    forall k cw,
      nth_error (code_waypoints w) k = Some cw ->
      (Measures.stop_index (track_paths w) k < List.length points)%nat /\
      distance_from_start cw =
      Measures.trace_length flat_distance
        (firstn (S (Measures.stop_index (track_paths w) k)) points).
Proof.
  intros hints points.
  assert (H : hints_have_codes hints).
  { repeat constructor; simpl; discriminate. }
  split; [exact H|].
  eapply walk_distance_is_trace_length; exact H.
Defined.

(** The distances of that trace: 1 at the matched point, 2 in all. *)
Example walk_distance_km :
  exists w,
    walk [(at_ 0 1, stop "A")] [at_ 0 0; at_ 0 1; at_ 0 2] = Ok w /\
    List.map distance_from_start (code_waypoints w) = [1] /\
    Measures.trace_length flat_distance [at_ 0 0; at_ 0 1] = 1 /\
    distance_total w = 2.
Proof. eexists. repeat split. Qed.

(** A segment of three points of which the mask keeps the first and the
    last, as in X17. *)
Lemma simplify_path_with_stops_keeps_witness :
  let path := [([at_ 0 0; at_ (1 # 2) 0; at_ 1 0], stop "A")] in
  let simplified := [([at_ 0 0; at_ 1 0], stop "A")] in
  Simplifier.simplify_path_with_stops latitude longitude Simplifier.mask_whole
                                      path (1 # 10) = Ok simplified /\
  Forall2 (fun old new =>
             snd new = snd old /\
             Simplifier.subsequence (fst new) (fst old) /\
             (List.length (fst new) <= List.length (fst old))%nat /\
             incl (fst new) (fst old))
          path simplified.
Proof.
  intros path simplified.
  assert (H : Simplifier.simplify_path_with_stops
                latitude longitude Simplifier.mask_whole path (1 # 10)
              = Ok simplified) by reflexivity.
  split; [exact H|].
  eapply simplify_path_with_stops_keeps; exact H.
Defined.

(** Two waypoints near the one place the geocoder knows, on a catalog
    that has it without a location: the first is bound to the catalog
    station, the second makes a new one; the trace passes both.  The
    assembler, given the catalog as the importer leaves it, returns one
    placeholder hop, as in X20. *)
Lemma import_data_then_convert_witness :
  let self := init [neustadt] in
  let enriched := with_location neustadt (at_ 50 8) in
  let self' := {| stations := [neustadt; enriched; neustadt_osm];
                  name_to_station := [] |} in
  let emitted :=
    [{| distance_from_start := 0; code := lit "NEU"; is_stop := true;
        next_route_number := Some 0%Z |};
     {| distance_from_start := 1; code := [127465; 127466; 79; 52; 50]%N;
        is_stop := true; next_route_number := Some 0%Z |}] in
  Brouter.import_data lower table countries reverse_neustadt flat_distance
                      false self [at_ 50 8; at_ 51 8] [at_ 50 8; at_ 51 8]
  = Ok (self', emitted) /\
  Forall (Trassenfinder.resolves
            (Trassenfinder.codes_to_station_of iter_stations_by_codes_reverse
                                               (stations self'))) emitted /\
  Forall (fun cw => next_route_number cw = Some 0%Z) emitted /\
  convert_waypoints_to_route emitted (stations self') [path_100] =
  Ok {| waypoints := emitted;
        tracks_used :=
          List.map (fun _ => [Trassenfinder.invalid_track UNKNOWN (Some 0%Z)])
                   (combine emitted (tl emitted)) |}.
Proof.
  intros self enriched self' emitted.
  assert (H1 : Brouter.import_data lower table countries reverse_neustadt
                 flat_distance false self [at_ 50 8; at_ 51 8]
                 [at_ 50 8; at_ 51 8] = Ok (self', emitted)) by reflexivity.
  assert (H2 : Forall (Trassenfinder.resolves
                         (Trassenfinder.codes_to_station_of
                            iter_stations_by_codes_reverse (stations self')))
                      emitted).
  { repeat constructor; vm_compute; discriminate. }
  split; [exact H1|]. split; [exact H2|].
  eapply import_data_then_convert; eassumption.
Defined.

(** A geocoder whose first place has no name, on an empty catalog: the
    waypoint raises [KeyError], as X22 says. *)
Example resolve_waypoint_nameless_place :
  let nameless :=
    {| place_latitude := 50; place_longitude := 8; place_name := None;
       osm_value := Some (lit "halt"); countrycode := Some (lit "DE");
       osm_id := Some 7%Z |} in
  Brouter.resolve_waypoint lower table countries
    (fun _ _ => Some [nameless; place "Neustadt" 42 50 8]) false
    (init []) [] (at_ 50 8) = Raise KeyError.
Proof. reflexivity. Qed.

(** A place without ['osm_value'] behind the place "Neustadt", on the
    catalog that has "Neustadt": the groups are computed before the names
    are looked up, and the waypoint raises [KeyError] although its first
    name is in the lookup table. *)
Example resolve_waypoint_place_without_osm_value :
  let bare :=
    {| place_latitude := 50; place_longitude := 8;
       place_name := Some (lit "Altstadt");
       osm_value := None; countrycode := Some (lit "DE");
       osm_id := Some 7%Z |} in
  first_name_in
    (possible_station_names lower table [place "Neustadt" 42 50 8; bare])
    (name_to_station (init [neustadt])) = Some (lit "neustadt", neustadt) /\
  Brouter.resolve_waypoint lower table countries
    (fun _ _ => Some [place "Neustadt" 42 50 8; bare]) false
    (init [neustadt]) [] (at_ 50 8) = Raise KeyError.
Proof. split; reflexivity. Qed.

(** A place with a negative id, on an empty catalog: [int] refuses
    "69-42". *)
Example resolve_waypoint_negative_id :
  Brouter.resolve_waypoint lower table countries
    (fun _ _ => Some [place "Neustadt" (-42) 50 8]) false
    (init []) [] (at_ 50 8) = Raise ValueError.
Proof. reflexivity. Qed.

(** A row of the Trassenfinder file with 18 columns: the distance with a
    decimal comma, the code with a double space, a route number and the
    remark of a stop. *)
Example deserialize_row :
  TrassenfinderCsv.deserialize
    TrassenfinderCsv.float_digits TrassenfinderCsv.int_digits
    (List.map lit ["12,5"; ""; "AB  C"; "4010"; ""; ""; ""; ""; ""; ""; "";
                   ""; ""; ""; ""; ""; ""; "Kundenhalt (2 min)"]%string)
  = Ok {| distance_from_start := 12 + 5 / 10;
          code := lit "AB C";
          is_stop := true;
          next_route_number := Some 4010%Z |}
  /\ TrassenfinderCsv.deserialize
       TrassenfinderCsv.float_digits TrassenfinderCsv.int_digits
       (List.map lit ["12,5"; ""; "AB  C"]%string)
     = Raise IndexError.
Proof. split; reflexivity. Qed.

End NeustadtMore.

(** ** The distance of a point to a line *)

Section LineDistanceProps.
Import Py Floats LineDistance.
Local Open Scope float_scope.

Variable geodesic_km : ndarray -> ndarray -> result float.
Variable pldist : ndarray -> ndarray -> ndarray -> float.

Local Abbreviation approximate_distance_to_line :=
  (approximate_distance_to_line geodesic_km pldist).

(** *** The primitive tests, on the specification *)

Lemma SFcompare_refl s m e :
  SFcompare (S754_finite s m e) (S754_finite s m e) = Some Eq.
Proof.
  simpl. destruct s; rewrite Z.compare_refl, Pos.compare_cont_refl;
    reflexivity.
Qed.

Lemma is_finite_spec x : is_finite x = finite (Prim2SF x).
Proof.
  unfold is_finite, is_nan, is_infinity.
  rewrite !eqb_spec, abs_spec.
  change (Prim2SF infinity) with (S754_infinity false).
  unfold SFeqb.
  destruct (Prim2SF x) as [s|s| |s m e]; try reflexivity.
  - destruct s; reflexivity.
  - cbn [SFabs]. rewrite SFcompare_refl. reflexivity.
Qed.

Lemma is_nan_spec x :
  is_nan x = match Prim2SF x with S754_nan => true | _ => false end.
Proof.
  unfold is_nan. rewrite eqb_spec. unfold SFeqb.
  destruct (Prim2SF x) as [s|s| |s m e]; try reflexivity.
  - destruct s; reflexivity.
  - rewrite SFcompare_refl. reflexivity.
Qed.

Lemma is_zero_spec x :
  is_zero x = match Prim2SF x with S754_zero _ => true | _ => false end.
Proof.
  unfold is_zero. rewrite eqb_spec.
  change (Prim2SF zero) with (S754_zero false).
  unfold SFeqb.
  destruct (Prim2SF x) as [s|s| |s m e]; try reflexivity;
    destruct s; reflexivity.
Qed.

Lemma zero_or_nan_spec x :
  zero_or_nan (Prim2SF x) = is_zero x || is_nan x.
Proof.
  rewrite is_zero_spec, is_nan_spec. destruct (Prim2SF x); reflexivity.
Qed.

(** *** The norm of the difference of equal arrays *)

Lemma finite_sub_self s m e m' :
  m = m' ->
  zero_or_nan
    (binary_normalize prec emax
       (cond_Zopp s (Z.pos (fst (shl_align m e (IntDef.Z.min e e)))) -
        cond_Zopp s (Z.pos (fst (shl_align m' e (IntDef.Z.min e e)))))
       (IntDef.Z.min e e) false) = true.
Proof. intros <-. rewrite Z.sub_diag. reflexivity. Qed.

(** The difference of two equal numbers is a zero, or nan for two
    infinities. *)
Lemma SFeqb_sub x y :
  SFeqb x y = true -> zero_or_nan (SF64sub x y) = true.
Proof.
  unfold SFeqb, SF64sub.
  destruct x as [s|s| |s m e], y as [s'|s'| |s' m' e']; simpl;
    try discriminate;
    try (destruct s; discriminate); try (destruct s'; discriminate).
  - destruct s, s'; reflexivity.
  - destruct s, s'; try discriminate; reflexivity.
  - destruct s, s'; try discriminate;
      (destruct (Z.compare_spec e e') as [He|He|He]; try discriminate;
       subst e'; intros H;
       destruct (Pos.compare_cont Eq m m') eqn:E; try discriminate;
       apply Pos.compare_eq in E; now apply finite_sub_self).
Qed.

Lemma SFsub_self x : zero_or_nan (SF64sub x x) = true.
Proof.
  unfold SF64sub.
  destruct x as [s|s| |s m e]; simpl; try reflexivity.
  - destruct s; reflexivity.
  - destruct s; reflexivity.
  - now apply finite_sub_self.
Qed.

Lemma SFmul_self x :
  zero_or_nan x = true -> positive_zero_or_nan (SF64mul x x) = true.
Proof. destruct x as [[|]|s| |s m e]; try discriminate; reflexivity. Qed.

Lemma SFadd_zero x y :
  positive_zero_or_nan x = true -> positive_zero_or_nan y = true ->
  positive_zero_or_nan (SF64add x y) = true.
Proof.
  destruct x as [[|]|s| |s m e], y as [[|]|s'| |s' m' e'];
    try discriminate; reflexivity.
Qed.

Lemma SFsqrt_zero x :
  positive_zero_or_nan x = true -> zero_or_nan (SF64sqrt x) = true.
Proof. destruct x as [[|]|s| |s m e]; try discriminate; reflexivity. Qed.

(** A quotient by zero or by nan is an infinity or nan, whatever is
    divided; a product with an infinity or with nan is one again. *)
Lemma SFdiv_zero x y : zero_or_nan y = true -> finite (SF64div x y) = false.
Proof.
  destruct x as [s|s| |s m e], y as [s'|s'| |s' m' e'];
    try discriminate; reflexivity.
Qed.

Lemma SFmul_not_finite x y : finite y = false -> finite (SF64mul x y) = false.
Proof.
  destruct x as [s|s| |s m e], y as [s'|s'| |s' m' e'];
    try discriminate; reflexivity.
Qed.

(** Equal endpoints, as values or as numbers compare: the norm of their
    difference is zero or nan. *)
Lemma norm_same a b :
  a = b \/ array_equal a b = true ->
  is_zero (norm (subtract a b)) || is_nan (norm (subtract a b)) = true.
Proof.
  intros H. rewrite <- zero_or_nan_spec. unfold norm, subtract. cbn [fst snd].
  rewrite sqrt_spec, add_spec, !mul_spec, !sub_spec.
  apply SFsqrt_zero. apply SFadd_zero; apply SFmul_self.
  - destruct H as [<- | H]; [apply SFsub_self|].
    apply SFeqb_sub. rewrite <- eqb_spec.
    unfold array_equal in H. apply andb_true_iff in H. apply H.
  - destruct H as [<- | H]; [apply SFsub_self|].
    apply SFeqb_sub. rewrite <- eqb_spec.
    unfold array_equal in H. apply andb_true_iff in H. apply H.
Qed.

(** With a norm that is zero or nan the result is an infinity or nan,
    whatever [geodesic] and [pldist] return. *)
Lemma approximate_distance_to_line_zero_norm point start end_ d :
  is_zero (norm (subtract start end_)) || is_nan (norm (subtract start end_))
  = true ->
  approximate_distance_to_line point start end_ = Ok d ->
  is_finite d = false.
Proof.
  intros Hn. unfold LineDistance.approximate_distance_to_line.
  destruct (geodesic_km start end_) as [km|e]; [|discriminate].
  cbn [bind]. intros [= <-].
  rewrite <- zero_or_nan_spec in Hn.
  rewrite is_finite_spec, mul_spec, div_spec.
  apply SFmul_not_finite. now apply SFdiv_zero.
Qed.

(** C10 (as amended).  [approximate_distance_to_line] returns a finite
    distance only if the endpoints differ, as values and as numbers
    compare, and the norm of their difference is neither zero nor nan.
    With equal endpoints the scale factor is a quotient by a zero norm,
    or by nan for infinite coordinates: no exception, but an infinity or
    nan, and so is the result, whatever the point. *)
Theorem approximate_distance_to_line_finite_only_if point start end_ :
  returns_finite (approximate_distance_to_line point start end_) ->
  start <> end_ /\
  array_equal start end_ = false /\
  is_zero (norm (subtract start end_)) = false /\
  is_nan (norm (subtract start end_)) = false.
Proof.
  intros (d & Hd & Hfin).
  assert (Hn : is_zero (norm (subtract start end_))
               || is_nan (norm (subtract start end_)) = false).
  { destruct (is_zero (norm (subtract start end_))
              || is_nan (norm (subtract start end_))) eqn:E; [|reflexivity].
    rewrite (approximate_distance_to_line_zero_norm _ _ _ E Hd) in Hfin.
    discriminate Hfin. }
  assert (Hsame : ~ (start = end_ \/ array_equal start end_ = true)).
  { intros H. apply norm_same in H. congruence. }
  apply orb_false_iff in Hn. destruct Hn as [Hz Hnan].
  split; [tauto|]. split; [|auto].
  destruct (array_equal start end_); [|reflexivity]. elim Hsame. now right.
Qed.

End LineDistanceProps.

(** *** The distance on the libraries of the examples *)

Section LineDistanceExamples.
Import Py Floats LineDistance.
Local Open Scope float_scope.

(** C10 (as stated) fails: the endpoints (0, 0) and (2^-600, 0) differ,
    but the square of their difference underflows, the norm is zero, and
    the call returns no finite distance, whatever [geodesic] and [pldist]
    return.  On the libraries of the examples the result is an
    infinity. *)
Lemma approximate_distance_to_line_underflow :
  let start : ndarray := (0, 0) in
  let end_ : ndarray := (0x1p-600, 0) in
  start <> end_ /\
  array_equal start end_ = false /\
  norm (subtract start end_) = 0 /\
  (forall geodesic_km pldist point,
     ~ returns_finite
         (approximate_distance_to_line geodesic_km pldist point start end_)) /\
  approximate_distance_to_line geodesic_111 pldist_1 (1, 1) start end_
  = Ok infinity.
Proof.
  split.
  { intros H. apply (f_equal (fun p => is_zero (fst p))) in H. discriminate H. }
  split; [reflexivity|]. split; [reflexivity|]. split; [|reflexivity].
  intros geodesic_km pldist point (d & Hd & Hfin).
  rewrite (@approximate_distance_to_line_zero_norm
             geodesic_km pldist point (0, 0) (0x1p-600, 0) d eq_refl Hd)
    in Hfin.
  discriminate Hfin.
Qed.

(** The endpoints (0, 0) and (3, 4), at norm 5, give a finite distance on
    the libraries of the examples, as C10 as amended requires. *)
Lemma approximate_distance_to_line_finite_only_if_witness :
  let point : ndarray := (1, 1) in
  let start : ndarray := (0, 0) in
  let end_ : ndarray := (3, 4) in
  returns_finite
    (approximate_distance_to_line geodesic_111 pldist_1 point start end_) /\
  start <> end_ /\
  array_equal start end_ = false /\
  is_zero (norm (subtract start end_)) = false /\
  is_nan (norm (subtract start end_)) = false.
Proof.
  intros point start end_.
  assert (H : returns_finite
                (approximate_distance_to_line geodesic_111 pldist_1
                                              point start end_)).
  { eexists. split; reflexivity. }
  split; [exact H|].
  exact (@approximate_distance_to_line_finite_only_if
           geodesic_111 pldist_1 point start end_ H).
Defined.

(** Equal endpoints: the quotient is 0 / 0, the result nan. *)
Example approximate_distance_to_line_same_point :
  approximate_distance_to_line geodesic_111 pldist_1 (1, 1) (2, 3) (2, 3)
  = Ok nan /\
  is_finite nan = false.
Proof. split; reflexivity. Qed.

End LineDistanceExamples.
